(** * Rapfi search heuristics: history statistics and alpha-beta parameters

    A shallow embedding of [Rapfi/search/history.h] and
    [Rapfi/search/ab/parameter.h], with the properties of the
    search-heuristics specification stated and proved over it.

    Conventions.
    - C++ [int] / [int32_t] / [Value] and [int16_t] values are integers of
      [Z]; every arithmetic operation writes out its two's-complement
      wrap-around ([wrap 32], [wrap 16]).  Integer division truncates
      toward zero ([Z.quot]).
    - [Depth] is a C++ [float]: an IEEE-754 binary32 number, embedded as a
      [spec_float] of the standard library with precision 24 and maximal
      exponent 128; every operation rounds to nearest, ties to even.
    - An out-of-bounds array read or a float-to-int conversion whose result
      is not representable has undefined behaviour; the embedding returns
      [None] there. *)

From Stdlib Require Import ZArith Lia Bool List.
From Stdlib Require Import Floats.SpecFloat.
From stdpp Require Import base option list gmap vector.

Local Open Scope Z_scope.

(** ** Fixed-width integers *)

Module CInt.

(** Two's-complement reduction of [z] to a signed integer of [w] bits. *)
Definition wrap (w : Z) (z : Z) : Z :=
  (z + 2 ^ (w - 1)) mod 2 ^ w - 2 ^ (w - 1).

Definition INT_MIN : Z := - 2 ^ 31.
Definition INT_MAX : Z := 2 ^ 31 - 1.
Definition INT16_MIN : Z := - 2 ^ 15.
Definition INT16_MAX : Z := 2 ^ 15 - 1.

Definition in_int (z : Z) : Prop := INT_MIN <= z <= INT_MAX.
Definition in_int16 (z : Z) : Prop := INT16_MIN <= z <= INT16_MAX.

(** The operators of C++ on [int] operands. *)
Definition int_add (a b : Z) : Z := wrap 32 (a + b).
Definition int_sub (a b : Z) : Z := wrap 32 (a - b).
Definition int_mul (a b : Z) : Z := wrap 32 (a * b).
Definition int_div (a b : Z) : Z := wrap 32 (Z.quot a b).
(** [std::abs(int)] *)
Definition int_abs (a : Z) : Z := wrap 32 (Z.abs a).
(** Conversion of an [int] to [int16_t]. *)
Definition to_int16 (a : Z) : Z := wrap 16 a.

End CInt.

(** ** History tables ([Rapfi/search/history.h]) *)

Module History.
Import CInt.

(** [HistTable<int16_t, Range, ...>::Entry::operator<<]:
    [value += bonus - value * std::abs(bonus) / Range].
    The right-hand side is computed on [int]; the compound assignment
    converts the sum back to the [int16_t] field. *)
Definition update (Range : Z) (value bonus : Z) : Z :=
  to_int16
    (int_add value
       (int_sub bonus (int_div (int_mul value (int_abs bonus)) Range))).

(** A run of updates on one entry, oldest bonus first. *)
Definition updates (Range : Z) (bonuses : list Z) (value : Z) : Z :=
  fold_left (update Range) bonuses value.

(** The range of the [int16_t] statistics of the engine
    ([MainHistory], [MoveHistory]). *)
Definition HistRange : Z := 10692.

(** [enum MoveHistoryType { HIST_ATTACK, HIST_QUIET, MOVE_HIST_TYPE_NB }] and
    [enum Oppo4HistoryType { OPPO4_NO, OPPO4_YES, OPPO4_NB }] *)
Inductive MoveHistoryType : Type := HIST_ATTACK | HIST_QUIET.
Inductive Oppo4HistoryType : Type := OPPO4_NO | OPPO4_YES.
Definition MOVE_HIST_TYPE_NB : nat := 2.
Definition OPPO4_NB : nat := 2.

(** The instances of the template [HistTable<T, Range, Shape...>]: the
    value type is a 16-bit integer, a [std::pair<Pos, Pattern4>], or a
    table again. *)
Inductive ValueT : Type :=
| T_int16
| T_pair_Pos_Pattern4
| T_table (t : TableT)
with TableT : Type :=
| HistTable (T : ValueT) (Range : Z) (Shape : list nat).

Definition value_type (t : TableT) : ValueT :=
  match t with HistTable T _ _ => T end.
Definition range (t : TableT) : Z :=
  match t with HistTable _ R _ => R end.
Definition shape (t : TableT) : list nat :=
  match t with HistTable _ _ Shape => Shape end.

(** One index per dimension, each within its size. *)
Fixpoint in_bounds (Shape idx : list nat) : bool :=
  match Shape, idx with
  | [], [] => true
  | n :: Shape', i :: idx' => (i <? n)%nat && in_bounds Shape' idx'
  | _, _ => false
  end.

(** [table[i1]...[in]]: the value held by the entry reached with one
    index per dimension. *)
Definition entry_at (t : TableT) (idx : list nat) : option ValueT :=
  if in_bounds (shape t) idx then Some (value_type t) else None.

(** The table held by that entry, when the value type is a table. *)
Definition subtable_at (t : TableT) (idx : list nat) : option TableT :=
  match entry_at t idx with
  | Some (T_table t') => Some t'
  | _ => None
  end.

(** All the dimensions down to the scalar entries, outermost first. *)
Fixpoint dimensions (t : TableT) : list nat :=
  match t with
  | HistTable T _ Shape => Shape ++ dimensions_of_value T
  end
with dimensions_of_value (T : ValueT) : list nat :=
  match T with
  | T_table t => dimensions t
  | _ => []
  end.

Section Tables.
(** [SIDE_NB], [FULL_BOARD_CELL_COUNT] and [MAX_MOVES] are declared in
    the core headers. *)
Variables SIDE_NB FULL_BOARD_CELL_COUNT MAX_MOVES : nat.

Definition MainHistory : TableT :=
  HistTable T_int16 10692 [SIDE_NB; FULL_BOARD_CELL_COUNT; MOVE_HIST_TYPE_NB].
Definition CounterMoveHistory : TableT :=
  HistTable T_pair_Pos_Pattern4 0 [SIDE_NB; MAX_MOVES].
Definition MoveHistory : TableT :=
  HistTable T_int16 10692 [FULL_BOARD_CELL_COUNT].
Definition ContinuationHistory : TableT :=
  HistTable (T_table MoveHistory) 0 [OPPO4_NB; FULL_BOARD_CELL_COUNT].
End Tables.

End History.

(** ** IEEE-754 binary32 ([float], the engine's [Depth]) *)

Module F32.
Import CInt.

Definition prec : Z := 24.
Definition emax : Z := 128.

Definition float : Type := spec_float.

(** A well-formed binary32 datum: canonical mantissa, exponent in range. *)
Definition valid (x : float) : Prop := valid_binary prec emax x = true.

Definition fadd : float -> float -> float := SFadd prec emax.
Definition fsub : float -> float -> float := SFsub prec emax.
Definition fmul : float -> float -> float := SFmul prec emax.
Definition fdiv : float -> float -> float := SFdiv prec emax.
(** [x < y], [x <= y], [x > y] *)
Definition flt (x y : float) : bool := SFltb x y.
Definition fle (x y : float) : bool := SFleb x y.
Definition fgt (x y : float) : bool := SFltb y x.

(** Conversion of an [int] to [float] (round to nearest even). *)
Definition of_int (z : Z) : float := binary_normalize prec emax z 0 false.

(** The integer part of a finite float, toward zero. *)
Definition trunc (x : float) : option Z :=
  match x with
  | S754_zero _ => Some 0
  | S754_finite s m e => Some (cond_Zopp s (Z.shiftl (Zpos m) e))
  | S754_infinity _ | S754_nan => None
  end.

(** [int(x)]: undefined unless the integer part fits an [int]. *)
Definition to_int (x : float) : option Z :=
  match trunc x with
  | Some z => if (INT_MIN <=? z) && (z <=? INT_MAX) then Some z else None
  | None => None
  end.

(** The same number: the same datum, or two zeros (of any sign). *)
Definition same_number (x y : float) : Prop :=
  x = y \/ exists s s', x = S754_zero s /\ y = S754_zero s'.

(** [std::max(a, b)] on floats: [(a < b) ? b : a]. *)
Definition fmax (a b : float) : float := if flt a b then b else a.

(** Literals. A decimal literal denotes the float nearest to it, which the
    correctly rounded quotient of two exactly representable integers
    yields. *)
Definition zero : float := S754_zero false.
Definition one : float := Eval vm_compute in of_int 1.
Definition lit_0_125 : float := Eval vm_compute in fdiv (of_int 125) (of_int 1000).
Definition lit_3_36 : float := Eval vm_compute in fdiv (of_int 336) (of_int 100).
(** [INT_MIN] as a float: the least float whose integer part is an [int]. *)
Definition int_min_f : float := Eval vm_compute in of_int INT_MIN.

End F32.

(** ** Alpha-beta search parameters ([Rapfi/search/ab/parameter.h]) *)

Module AB.
Import CInt F32.

(** [Value] is an integer score; [Depth] a [float]. *)
Definition Value : Type := Z.
Definition Depth : Type := float.

Definition MAX_DEPTH : Z := 200.
Definition MAX_PLY : Z := 256.

Definition MARGIN_INFINITE : Value := INT16_MAX.

(** [prevDelta ? prevDelta * 3 / 2 + 5 : Value(17)] *)
Definition nextAspirationWindowDelta (prevDelta : Value) : Value :=
  if prevDelta =? 0 then 17
  else int_add (int_div (int_mul prevDelta 3) 2) 5.

(** [0.125f * d * d + 46 * d], the float argument of the conversion in
    [razorMargin]. *)
Definition razorPoly (d : Depth) : float :=
  fadd (fmul (fmul lit_0_125 d) d) (fmul (of_int 46) d).

(** [d < 3.36f ? Value(std::max(int(0.125f*d*d + 46*d) + 49, 0))
             : MARGIN_INFINITE] *)
Definition razorMargin (d : Depth) : option Value :=
  if flt d lit_3_36 then
    match to_int (razorPoly d) with
    | Some k => Some (Z.max (int_add k 49) 0)
    | None => None
    end
  else Some MARGIN_INFINITE.

(** Reading [a[i]] of a [std::array] with an [int] index. *)
Definition array_get {A : Type} (a : list A) (i : Z) : option A :=
  if i <? 0 then None else a !! Z.to_nat i.

Section Tables.
(** [MAX_MOVES] is declared in [core/types.h]. *)
Variable MAX_MOVES : nat.
(** [pow_1_4 i] stands for [int(std::pow(i, 1.4))], the C library's
    power function on [double] followed by the conversion to [int]. *)
Variable pow_1_4 : Z -> Z.

(** The initialiser of [FutilityMC]: an array of [MAX_MOVES + 1] zeros,
    then [MC[i] = 3 + int(std::pow(i, 1.4))] for [i = 1 .. MAX_MOVES]. *)
Definition FutilityMC : list Z :=
  fold_left
    (fun MC i => <[ i := int_add 3 (pow_1_4 (Z.of_nat i)) ]> MC)
    (seq 1 MAX_MOVES)
    (replicate (S MAX_MOVES) 0).

(** [FutilityMC[std::max(int(d), 0)] / (2 - improving)] *)
Definition futilityMoveCount (d : Depth) (improving : bool) : option Z :=
  match to_int d with
  | Some i =>
      match array_get FutilityMC (Z.max i 0) with
      | Some mc => Some (int_div mc (int_sub 2 (Z.b2z improving)))
      | None => None
      end
  | None => None
  end.
End Tables.

(** [reduction<PvNode>(lut, d, moveCount, improvement, delta, rootDelta)] *)
Definition reduction (PvNode : bool) (lut : list Depth) (d : Depth)
    (moveCount improvement : Z) (delta rootDelta : Value) : option Depth :=
  match to_int d with
  | Some i =>
      match array_get lut i, array_get lut moveCount with
      | Some a, Some b =>
          let r := fmul a b in
          if PvNode then
            Some (fmax (fsub r (fdiv (of_int delta) (of_int rootDelta))) zero)
          else
            Some (fadd r (of_int (Z.b2z ((improvement <=? 0) && fgt r one))))
      | _, _ => None
      end
  | None => None
  end.

(** Sample data for examples: [int(std::pow(i, 1.4))] for [i] up to 8, and
    a short reduction table. *)
Definition pow_1_4_sample (i : Z) : Z :=
  nth (Z.to_nat i) [0; 1; 2; 4; 6; 9; 12; 15; 18] 0.
Definition lut_sample : list Depth :=
  [zero; one; of_int 2; of_int 3].

(** The reduction as the specification words it, in terms of the base
    reduction [r]: at a principal-variation node [r] less
    [delta / rootDelta], floored at zero; elsewhere [r] plus one when the
    position is not improving and [r] exceeds one, else [r]. *)
Definition reduction_formula (PvNode : bool) (r : Depth)
    (improvement : Z) (delta rootDelta : Value) : Depth :=
  if PvNode then
    fmax (fsub r (fdiv (of_int delta) (of_int rootDelta))) zero
  else if (improvement <=? 0) && fgt r one then fadd r one
  else r.

(** The razoring margin below the threshold as the specification words
    it, [max(int(0.125*d*d + 46*d) + 49, 0)]: the quadratic written out
    in [float] operations, its integer part, 49 added as integers. *)
Definition razorMargin_formula (d : Depth) : option Value :=
  match to_int (fadd (fmul (fmul lit_0_125 d) d) (fmul (of_int 46) d)) with
  | Some k => Some (Z.max (k + 49) 0)
  | None => None
  end.

End AB.

(** ** The numbers denoted by binary32 data *)

Module F32Sem.
Import F32.

(** [scaled K x] is the value of the finite float [x] multiplied by
    [2 ^ K]; an integer as soon as no exponent is below [- K]. *)
Definition scaled (K : Z) (x : float) : Z :=
  match x with
  | S754_finite s m e => cond_Zopp s (Zpos m * 2 ^ (e + K))
  | _ => 0
  end.

(** Neither an infinity nor a NaN. *)
Definition finite (x : float) : Prop :=
  match x with
  | S754_zero _ | S754_finite _ _ _ => True
  | _ => False
  end.

(** A non-negative finite datum whose exponent is at least that of the
    subnormal numbers (the mantissa need not be canonical). *)
Definition nonneg_finite (x : float) : Prop :=
  match x with
  | S754_zero _ => True
  | S754_finite s m e => s = false /\ -149 <= e
  | _ => False
  end.

(** Spacing, at scale [K], of the binary32 numbers around the scaled
    value [X > 0]. *)
Definition grid (K X : Z) : Z :=
  2 ^ (fexp prec emax (Z.log2 X + 1 - K) + K).

(** Where [n / g] lies between two consecutive integers. *)
Definition loc_of (n g : Z) : location :=
  if n mod g =? 0 then loc_Exact else loc_Inexact (2 * (n mod g) ?= g).

(** The integer nearest to [X / g], ties to even. *)
Definition rne (X g : Z) : Z :=
  let q := X / g in
  let r := X mod g in
  if 2 * r <? g then q
  else if 2 * r =? g then (if Z.even q then q else q + 1)
  else q + 1.

(** Rounding to nearest even of a scaled value to a scaled binary32 value. *)
Definition round (K X : Z) : Z := grid K X * rne X (grid K X).

(** A non-negative finite datum that the rounding leaves alone. *)
Definition rep (K : Z) (x : float) : Prop :=
  nonneg_finite x /\ round K (scaled K x) = scaled K x.

(** The scale at which every value of the development is an integer:
    no product of two binary32 numbers has an exponent below [-298]. *)
Definition K : Z := 298.

(** The value, scaled, of the float [0.125f * d * d + 46 * d] in terms of
    the scaled value [X] of [d >= 0]: every operation rounds. *)
Definition razorPolyZ (X : Z) : Z :=
  round K
    (round K (round K (scaled K lit_0_125 * X / 2 ^ K) * X / 2 ^ K)
     + round K (scaled K (of_int 46) * X / 2 ^ K)).

(** The quadratic [0.125 * d * d + 46 * d] evaluated exactly, without any
    rounding, at the depth [d = X / 2 ^ K]: its value multiplied by
    [8 * 2 ^ (2 * K)]. *)
Definition razorQuadratic (X : Z) : Z := X * X + 368 * 2 ^ K * X.

End F32Sem.

(** ** The incremental neural evaluator *)

Module Evaluator.

(** Modelled from the spec: the accumulator of the incremental neural
    evaluator, its [applyMove] / [undoMove] and [clear]; their source is
    not among the files of the search heuristics. The accumulator holds
    the value-feature sum over the board, the per-cell feature map, the
    per-cell map after the depthwise convolution, and the stones of the
    moves composed into it since it was cleared. Feature vectors are
    integer vectors, so that sums are exact. *)

Inductive Color : Type := BLACK | WHITE | EMPTY.

#[global] Instance Color_eq_dec : EqDecision Color.
Proof. solve_decision. Defined.

Definition Cell : Type := Z * Z.

Inductive Direction : Type := Horizontal | Vertical | Diagonal | AntiDiagonal.

Definition directions : list Direction :=
  [Horizontal; Vertical; Diagonal; AntiDiagonal].

Definition step (d : Direction) : Cell :=
  match d with
  | Horizontal => (1, 0)
  | Vertical => (0, 1)
  | Diagonal => (1, 1)
  | AntiDiagonal => (1, -1)
  end.

(** [c + k * o] *)
Definition shift (c : Cell) (k : Z) (o : Cell) : Cell :=
  (c.1 + k * o.1, c.2 + k * o.2).

Section Network.
(** Width of the feature vectors, board size, radius of the line-shape
    window: dimensions of the network, fixed by the weight blob. *)
Variable dim : nat.
Variable boardSize : Z.
Variable radius : Z.
(** The line-shape index of a cell along a direction: the pattern
    classification the board exposes. *)
Variable shapeIndex : gmap Cell Color -> Cell -> Direction -> Z.
(** The mapping table of the weights: one feature vector per shape. *)
Variable mapping : Z -> vec Z dim.
(** The taps of the depthwise convolution: offset and per-channel weight. *)
Variable kernel : list (Cell * vec Z dim).

Definition vzero : vec Z dim := vreplicate dim 0.
Definition vadd (a b : vec Z dim) : vec Z dim := vzip_with Z.add a b.
Definition vsub (a b : vec Z dim) : vec Z dim := vzip_with Z.sub a b.
Definition vmul (a b : vec Z dim) : vec Z dim := vzip_with Z.mul a b.

Record Accumulator : Type := {
  stones : gmap Cell Color;
  valueSum : vec Z dim;
  map : gmap Cell (vec Z dim);
  mapAfterConv : gmap Cell (vec Z dim)
}.

Definition onBoard (c : Cell) : bool :=
  (0 <=? c.1) && (c.1 <? boardSize) && (0 <=? c.2) && (c.2 <? boardSize).

Definition cells : list Cell :=
  x ← seqZ 0 boardSize; y ← seqZ 0 boardSize; [(x, y)].

(** The cells whose line shape a stone at [p] takes part in: those on
    the four lines through [p], at most [radius] away, each with the
    direction of the line. *)
Definition window (p : Cell) : list (Cell * Direction) :=
  filter (fun cd => onBoard cd.1 = true)
    (d ← directions; k ← seqZ (- radius) (2 * radius + 1);
     [(shift p k (step d), d)]).

Definition feature (s : gmap Cell Color) (cd : Cell * Direction) : vec Z dim :=
  mapping (shapeIndex s cd.1 cd.2).

(** The depthwise convolution at cell [c]; cells off the board count
    for zero. *)
Definition conv (m : gmap Cell (vec Z dim)) (c : Cell) : vec Z dim :=
  foldr (fun ow s => vadd (vmul ow.2 (default vzero (m !! shift c 1 ow.1))) s)
    vzero kernel.

(** The cells whose convolution reads a cell of the window of [p]. *)
Definition convArea (p : Cell) : list Cell :=
  cd ← window p; ow ← kernel; [shift cd.1 (-1) ow.1].

(** Fold one feature delta into the map entry of its cell. *)
Definition addFeature (m : gmap Cell (vec Z dim)) (cv : Cell * vec Z dim)
    : gmap Cell (vec Z dim) :=
  alter (fun v => vadd v cv.2) cv.1 m.

(** Recompute the convolution at one cell. *)
Definition refresh (m : gmap Cell (vec Z dim)) (a : gmap Cell (vec Z dim))
    (c : Cell) : gmap Cell (vec Z dim) :=
  alter (fun _ => conv m c) c a.

(** The deltas (new feature less old feature) of the cells of the
    window of [p] when the stones change from [s] to [s']. *)
Definition deltas (s s' : gmap Cell Color) (p : Cell)
    : list (Cell * vec Z dim) :=
  (fun cd => (cd.1, vsub (feature s' cd) (feature s cd))) <$> window p.

(** Modelled from the spec: the incremental update of the accumulator
    (its source is absent) when the stones become [s'] by a change at
    [p]: fold the deltas into the feature map and into the value sum,
    then refresh the convolution around the window. *)
Definition updateAccumulator (acc : Accumulator) (p : Cell) (s' : gmap Cell Color)
    : Accumulator :=
  let ds := deltas (stones acc) s' p in
  let map' := foldl addFeature (map acc) ds in
  {| stones := s';
     valueSum := foldl (fun v cv => vadd v cv.2) (valueSum acc) ds;
     map := map';
     mapAfterConv := foldl (refresh map') (mapAfterConv acc) (convArea p) |}.

(** Modelled from the spec: [applyMove] and [undoMove] of the
    accumulator (their source is absent), placing and removing the
    stone at [p]. *)
Definition applyMove (acc : Accumulator) (color : Color) (p : Cell)
    : Accumulator :=
  updateAccumulator acc p (<[ p := color ]> (stones acc)).

Definition undoMove (acc : Accumulator) (p : Cell) : Accumulator :=
  updateAccumulator acc p (delete p (stones acc)).

(** Modelled from the spec: [clear] (its source is absent), the
    accumulator of the empty board. *)
Definition clear : Accumulator :=
  let m : gmap Cell (vec Z dim) :=
    list_to_map
      ((fun c => (c, foldr (fun d s => vadd (feature ∅ (c, d)) s) vzero directions))
         <$> cells) in
  {| stones := ∅;
     valueSum := foldr (fun c s => vadd (default vzero (m !! c)) s) vzero cells;
     map := m;
     mapAfterConv := list_to_map ((fun c => (c, conv m c)) <$> cells) |}.

(** The accumulators that moves and undos build from the cleared one. *)
Inductive reachable : Accumulator -> Prop :=
| reachable_clear : reachable clear
| reachable_apply acc color p :
    reachable acc -> reachable (applyMove acc color p)
| reachable_undo acc p :
    reachable acc -> reachable (undoMove acc p).

(** The convolved map agrees with the feature map. *)
Definition consistent (acc : Accumulator) : Prop :=
  forall c v, mapAfterConv acc !! c = Some v -> v = conv (map acc) c.

(** Modelled from the spec: the deferred move cache of the evaluator,
    [beforeMove] / [afterUndo] and the flush; their source is not among
    the files either. A cache is a stack, most recent entry first. *)
Record MoveCache : Type := {
  oldColor : Color;
  newColor : Color;
  pos : Cell
}.

(** Same coordinates, colours swapped. *)
Definition isContraryMove (a b : MoveCache) : bool :=
  bool_decide (pos a = pos b)
  && bool_decide (oldColor a = newColor b)
  && bool_decide (newColor a = oldColor b).

(** Modelled from the spec: recording a notification in a cache (its
    source is absent); an entry that is the inverse of the most recent
    one cancels it. *)
Definition addCache (cache : list MoveCache) (e : MoveCache) : list MoveCache :=
  match cache with
  | last :: rest => if isContraryMove last e then rest else e :: cache
  | [] => [e]
  end.

(** One accumulator and one cache per side. *)
Record Evaluator : Type := {
  accBlack : Accumulator;
  accWhite : Accumulator;
  cacheBlack : list MoveCache;
  cacheWhite : list MoveCache
}.




(** The colour as the accumulator of [side] sees it. *)
Definition relative (side c : Color) : Color :=
  match side, c with
  | WHITE, BLACK => WHITE
  | WHITE, WHITE => BLACK
  | _, _ => c
  end.

Definition applyCache (side : Color) (acc : Accumulator) (e : MoveCache)
    : Accumulator :=
  match oldColor e with
  | EMPTY => applyMove acc (relative side (newColor e)) (pos e)
  | _ => undoMove acc (pos e)
  end.

(** Modelled from the spec: the flush before an evaluation (its source
    is absent); it brings both accumulators up to date, oldest entry
    first. *)
Definition flush (ev : Evaluator) : Evaluator :=
  {| accBlack := foldl (applyCache BLACK) (accBlack ev) (rev (cacheBlack ev));
     accWhite := foldl (applyCache WHITE) (accWhite ev) (rev (cacheWhite ev));
     cacheBlack := [];
     cacheWhite := [] |}.


(** The caches that notifications build from the empty one. *)
Inductive recorded : list MoveCache -> Prop :=
| recorded_nil : recorded []
| recorded_add cache e : recorded cache -> recorded (addCache cache e).

(** No two neighbouring entries of the cache cancel. *)
Fixpoint reduced (cache : list MoveCache) : Prop :=
  match cache with
  | a :: rest =>
      match rest with
      | b :: _ => isContraryMove b a = false
      | [] => True
      end /\ reduced rest
  | [] => True
  end.

End Network.


End Evaluator.

(** ** Signed values of binary32 data *)

Module F32Signed.
Import F32 F32Sem.

(** A float with its sign replaced. *)
Definition with_sign (s : bool) (x : float) : float :=
  match x with
  | S754_zero _ => S754_zero s
  | S754_infinity _ => S754_infinity s
  | S754_nan => S754_nan
  | S754_finite _ m e => S754_finite s m e
  end.

(** Rounding to nearest even of a scaled value of either sign. *)
Definition sround (K X : Z) : Z :=
  if X <? 0 then - round K (- X) else round K X.

(** A well-formed finite datum (of either sign). *)
Definition vfin (x : float) : Prop := valid x /\ finite x.

(** The depths the properties range over: well-formed floats between
    [-2^20] and [2^20], far beyond [MAX_DEPTH]. *)
Definition depth_lo : float := Eval vm_compute in of_int (- 2 ^ 20).
Definition depth_hi : float := Eval vm_compute in of_int (2 ^ 20).
Definition in_depth_range (d : float) : Prop :=
  valid d /\ fle depth_lo d = true /\ fle d depth_hi = true.

End F32Signed.

(** ** The other search parameters of [Rapfi/search/ab/parameter.h] *)

Module ABMore.
Import CInt F32 AB.

(** [Rule] is an enumeration declared in [core/types.h]; a rule is
    modelled by its integer value, the index of the per-rule tables. *)
Definition Rule : Type := Z.

(** Float literals of the file. *)
Definition lit_2_9 : float := Eval vm_compute in fdiv (of_int 29) (of_int 10).
Definition lit_8 : float := Eval vm_compute in of_int 8.
Definition lit_3_21 : float := Eval vm_compute in fdiv (of_int 321) (of_int 100).
Definition lit_0_27 : float := Eval vm_compute in fdiv (of_int 27) (of_int 100).
Definition lit_7 : float := Eval vm_compute in of_int 7.
Definition lit_1_35 : float := Eval vm_compute in fdiv (of_int 135) (of_int 100).
Definition lit_1_2 : float := Eval vm_compute in fdiv (of_int 12) (of_int 10).
Definition lit_0_5 : float := Eval vm_compute in fdiv (of_int 5) (of_int 10).
Definition lit_0_01 : float := Eval vm_compute in fdiv (of_int 1) (of_int 100).

(** [razorMargin(d - 2.9f)] *)
Definition razorVerifyMargin (d : Depth) : option Value :=
  razorMargin (fsub d lit_2_9).

(** [Value(std::max(int(54 * (d - improving)), 0))] *)
Definition futilityMargin (d : Depth) (improving : bool) : option Value :=
  match to_int (fmul (of_int 54) (fsub d (of_int (Z.b2z improving)))) with
  | Some k => Some (Z.max k 0)
  | None => None
  end.

(** [d >= 8.0f ? Value(680 - 27 * std::min(int(d), 20)) : MARGIN_INFINITE] *)
Definition nullMoveMargin (d : Depth) : option Value :=
  if fle lit_8 d then
    match to_int d with
    | Some k => Some (int_sub 680 (int_mul 27 (Z.min k 20)))
    | None => None
    end
  else Some MARGIN_INFINITE.

(** [3.21f + 0.27f * d] *)
Definition nullMoveReduction (d : Depth) : Depth :=
  fadd lit_3_21 (fmul lit_0_27 d).

(** [7.0f] *)
Definition iidDepthReduction (d : Depth) : Depth := lit_7.

(** [Value(40 * (int(d) + bool(oppo4) * 2))] *)
Definition failHighMargin (d : Depth) (oppo4 : Z) : option Value :=
  match to_int d with
  | Some k =>
      Some (int_mul 40 (int_add k (int_mul (Z.b2z (negb (oppo4 =? 0))) 2)))
  | None => None
  end.

(** [Value(100 + int(50 * d))] *)
Definition failLowMargin (d : Depth) : option Value :=
  match to_int (fmul (of_int 50) d) with
  | Some k => Some (int_add 100 k)
  | None => None
  end.

(** [Value((2 + formerPv) * d)] *)
Definition singularMargin (d : Depth) (formerPv : bool) : option Value :=
  to_int (fmul (of_int (int_add 2 (Z.b2z formerPv))) d).

(** [d * 0.5f - formerPv] *)
Definition singularReduction (d : Depth) (formerPv : bool) : Depth :=
  fsub (fmul d lit_0_5) (of_int (Z.b2z formerPv)).

(** [Value(70 - std::min(int(d) / 2, 20))] *)
Definition doubleSEMargin (d : Depth) : option Value :=
  match to_int d with
  | Some k => Some (int_sub 70 (Z.min (int_div k 2) 20))
  | None => None
  end.

Section Rules.
(** The value of the enumerator [RENJU] ([core/types.h]). *)
Variable RENJU : Rule.

(** [Value(std::max((rule == RENJU ? 4000 : 2500) + 64 * int(d), 600))] *)
Definition qvcfDeltaMargin (rule : Rule) (d : Depth) : option Value :=
  match to_int d with
  | Some k =>
      Some (Z.max (int_add (if rule =? RENJU then 4000 else 2500)
                           (int_mul 64 k))
                  600)
  | None => None
  end.
End Rules.

(** [1 + 2 * improving + int((improving ? 1.35f : 1.2f) * d)] *)
Definition lateMoveCount (d : Depth) (improving : bool) : option Z :=
  match to_int (fmul (if improving then lit_1_35 else lit_1_2) d) with
  | Some k => Some (int_add (int_add 1 (int_mul 2 (Z.b2z improving))) k)
  | None => None
  end.

Section LUT.
(** [log_entry i numThreads] stands for
    [float(factor * (std::log(i) + threadBias))] with
    [factor = 1.0 / std::sqrt(1.95)] and
    [threadBias = 0.1 * std::log(numThreads)], computed on [double] by
    the C library. *)
Variable log_entry : nat -> Z -> Depth.

(** [initReductionLUT(lut, numThreads)]: [lut[0] = 0.0f], then
    [lut[i]] for [i = 1 .. lut.size() - 1]. *)
Definition initReductionLUT (lut : list Depth) (numThreads : Z) : list Depth :=
  fold_left
    (fun l i => <[ i := log_entry i numThreads ]> l)
    (seq 1 (length lut - 1))
    (<[ 0%nat := zero ]> lut).
End LUT.

(** [CR1] ... [CR4]: [0.01f * c] for each of the three rules. *)
Definition CR1 : list Depth :=
  [fmul lit_0_01 (fdiv (of_int 8475) (of_int 1000));
   fmul lit_0_01 (of_int 9);
   fmul lit_0_01 (fdiv (of_int 7200) (of_int 1000))].
Definition CR2 : list Depth :=
  [fmul lit_0_01 (fdiv (of_int 4143) (of_int 1000));
   fmul lit_0_01 (of_int 4);
   fmul lit_0_01 (fdiv (of_int 3628) (of_int 1000))].
Definition CR3 : list Depth :=
  [fmul lit_0_01 (fdiv (of_int 2189) (of_int 1000));
   fmul lit_0_01 (of_int 2);
   fmul lit_0_01 (fdiv (of_int 1950) (of_int 1000))].
Definition CR4 : list Depth :=
  [fmul lit_0_01 (fdiv (of_int 719) (of_int 1000));
   fmul lit_0_01 (fdiv (of_int 7) (of_int 10));
   fmul lit_0_01 (fdiv (of_int 681) (of_int 1000))].

(** [(trivialMove ? (distract ? CR1 : CR2) : !importantMove ? CR3 : CR4)[R]] *)
Definition complexityReduction (R : Rule)
    (trivialMove importantMove distract : bool) : option Depth :=
  array_get
    (if trivialMove then (if distract then CR1 else CR2)
   else if negb importantMove then CR3 else CR4) R.

End ABMore.

Module CIntFacts.
Import CInt.

Lemma wrap32_id z : in_int z -> wrap 32 z = z.
Proof.
  unfold in_int, INT_MIN, INT_MAX, wrap. intros H.
  change (2 ^ (32 - 1)) with 2147483648. change (2 ^ 32) with 4294967296.
  change (2 ^ 31) with 2147483648 in H.
  rewrite Z.mod_small; lia.
Qed.

Lemma wrap16_id z : in_int16 z -> wrap 16 z = z.
Proof.
  unfold in_int16, INT16_MIN, INT16_MAX, wrap. intros H.
  change (2 ^ (16 - 1)) with 32768. change (2 ^ 16) with 65536.
  change (2 ^ 15) with 32768 in H.
  rewrite Z.mod_small; lia.
Qed.

Lemma in_int_bound z : Z.abs z <= 2147483647 -> in_int z.
Proof. unfold in_int, INT_MIN, INT_MAX. change (2 ^ 31) with 2147483648. lia. Qed.

Lemma in_int16_bound z : Z.abs z <= 32767 -> in_int16 z.
Proof. unfold in_int16, INT16_MIN, INT16_MAX. change (2 ^ 15) with 32768. lia. Qed.

End CIntFacts.

Module HistoryFacts.
Import CInt CIntFacts History.

Lemma quot_bounds a R :
  0 < R ->
  (0 <= a -> R * Z.quot a R <= a < R * Z.quot a R + R) /\
  (a <= 0 -> R * Z.quot a R - R < a <= R * Z.quot a R).
Proof.
  intros HR.
  pose proof (Z.quot_rem' a R) as E.
  split; intros Ha.
  - pose proof (Z.rem_bound_pos a R Ha HR). lia.
  - pose proof (Z.rem_bound_pos_neg a R HR Ha). lia.
Qed.

Lemma saturate_bound R v b :
  0 < R -> Z.abs v <= R -> Z.abs b <= R ->
  Z.abs (v + b - Z.quot (v * Z.abs b) R) <= R.
Proof.
  intros HR Hv Hb.
  destruct (quot_bounds (v * Z.abs b) R HR) as [Hp Hn].
  set (q := Z.quot (v * Z.abs b) R) in *.
  destruct (Z.le_gt_cases 0 v) as [v0|v0], (Z.le_gt_cases 0 b) as [b0|b0].
  - rewrite (Z.abs_eq b) in * by lia.
    assert (0 <= v * b) by nia. specialize (Hp H). nia.
  - rewrite (Z.abs_neq b) in * by lia.
    assert (0 <= v * - b) by nia. specialize (Hp H). nia.
  - rewrite (Z.abs_eq b) in * by lia.
    assert (v * b <= 0) by nia. specialize (Hn H). nia.
  - rewrite (Z.abs_neq b) in * by lia.
    assert (v * - b <= 0) by nia. specialize (Hn H). nia.
Qed.

Lemma update_exact R v b :
  0 < R <= INT16_MAX -> Z.abs v <= R -> Z.abs b <= R ->
  update R v b = v + b - Z.quot (v * Z.abs b) R.
Proof.
  unfold INT16_MAX. change (2 ^ 15 - 1) with 32767.
  intros HR Hv Hb.
  assert (HRpos : 0 < R) by lia.
  pose proof (saturate_bound R v b HRpos Hv Hb) as Hs.
  destruct (quot_bounds (v * Z.abs b) R HRpos) as [Hp Hn].
  assert (Hq : Z.abs (Z.quot (v * Z.abs b) R) <= 32767).
  { destruct (Z.le_gt_cases 0 (v * Z.abs b)) as [H|H].
    - specialize (Hp H). nia.
    - assert (H' : v * Z.abs b <= 0) by lia. specialize (Hn H'). nia. }
  unfold update, to_int16, int_add, int_sub, int_div, int_mul, int_abs.
  rewrite (wrap32_id (Z.abs b)) by (apply in_int_bound; lia).
  rewrite (wrap32_id (v * Z.abs b)) by (apply in_int_bound; nia).
  rewrite (wrap32_id (Z.quot _ _)) by (apply in_int_bound; lia).
  rewrite (wrap32_id (b - _)) by (apply in_int_bound; lia).
  rewrite (wrap32_id (v + _)) by (apply in_int_bound; lia).
  rewrite wrap16_id by (apply in_int16_bound; lia).
  lia.
Qed.

Lemma update_in_range R v b :
  0 < R <= INT16_MAX -> Z.abs v <= R -> Z.abs b <= R ->
  Z.abs (update R v b) <= R.
Proof.
  intros HR Hv Hb. rewrite update_exact by assumption.
  apply saturate_bound; lia.
Qed.

Lemma updates_in_range R bs :
  0 < R <= INT16_MAX ->
  Forall (fun b => Z.abs b <= R) bs ->
  forall v, Z.abs v <= R -> Z.abs (updates R bs v) <= R.
Proof.
  intros HR Hbs. unfold updates.
  induction Hbs as [|b bs Hb _ IH]; intros v Hv; simpl.
  - exact Hv.
  - apply IH. apply update_in_range; assumption.
Qed.

(** C1. For an entry value [v] and a bonus [b] both within [-Range, Range],
    [operator<<] stores [v + b - v*|b|/Range] (division truncated toward
    zero, no wrap-around occurs), the stored value is again within
    [-Range, Range], and so is the value reached from a zero-initialised
    entry by any finite sequence of bonuses within [-Range, Range]. *)
Theorem entry_update_saturates (Range v b : Z) (bonuses : list Z) :
  0 < Range <= INT16_MAX ->
  Z.abs v <= Range -> Z.abs b <= Range ->
  Forall (fun b' => Z.abs b' <= Range) bonuses ->
  update Range v b = v + b - Z.quot (v * Z.abs b) Range
  /\ Z.abs (update Range v b) <= Range
  /\ Z.abs (updates Range bonuses 0) <= Range.
Proof.
  intros HR Hv Hb Hbs. split; [|split].
  - apply update_exact; assumption.
  - apply update_in_range; assumption.
  - apply updates_in_range; [assumption..|]. simpl. lia.
Qed.

Lemma entry_update_saturates_witness :
  update HistRange 10000 8000 = 10518
  /\ Z.abs (update HistRange 10000 8000) <= HistRange
  /\ Z.abs (updates HistRange [8000; -10692; 5; 10692; -3000] 0) <= HistRange.
Proof.
  pose proof (entry_update_saturates HistRange 10000 8000
                [8000; -10692; 5; 10692; -3000]) as H.
  assert (H1 : 0 < HistRange <= INT16_MAX) by (vm_compute; split; [reflexivity|discriminate]).
  assert (H2 : Z.abs 10000 <= HistRange) by (vm_compute; discriminate).
  assert (H3 : Z.abs 8000 <= HistRange) by (vm_compute; discriminate).
  assert (H4 : Forall (fun b' => Z.abs b' <= HistRange) [8000; -10692; 5; 10692; -3000]).
  { repeat constructor; vm_compute; discriminate. }
  destruct (H H1 H2 H3 H4) as (E & B & S).
  split; [|split]; [|exact B|exact S].
  rewrite E. reflexivity.
Defined.

(** C10. The extreme bonuses are absorbing: whatever in-range value the
    entry holds, a bonus of [+Range] leaves exactly [+Range] in it and a
    bonus of [-Range] leaves exactly [-Range]. *)
Theorem entry_update_extreme_bonus (Range v : Z) :
  0 < Range <= INT16_MAX ->
  Z.abs v <= Range ->
  update Range v Range = Range /\ update Range v (- Range) = - Range.
Proof.
  intros HR Hv.
  rewrite !update_exact by (try assumption; lia).
  rewrite Z.abs_opp, (Z.abs_eq Range) by lia.
  rewrite Z.quot_mul by lia. lia.
Qed.

Lemma entry_update_extreme_bonus_witness :
  update HistRange (-4321) HistRange = HistRange
  /\ update HistRange (-4321) (- HistRange) = - HistRange.
Proof.
  apply (entry_update_extreme_bonus HistRange (-4321)).
  - vm_compute; split; [reflexivity|discriminate].
  - vm_compute; discriminate.
Defined.
End HistoryFacts.

Module TableFacts.
Import History.

(** C6, as amended. [ContinuationHistory] is indexed by the
    opponent-four flag, the previous move's cell and the current move's
    cell. Indexing by the flag and the previous move's cell yields a
    [MoveHistory]: one dimension, the current move's cell, of 16-bit
    entries with range 10692. It has the range and the entry type of
    [MainHistory], not its three dimensions. *)
Theorem ContinuationHistory_subtable
    (SIDE_NB FULL_BOARD_CELL_COUNT : nat) (oppo4 prev cur : nat) :
  (oppo4 < OPPO4_NB)%nat ->
  (prev < FULL_BOARD_CELL_COUNT)%nat ->
  (cur < FULL_BOARD_CELL_COUNT)%nat ->
  dimensions (ContinuationHistory FULL_BOARD_CELL_COUNT)
  = [OPPO4_NB; FULL_BOARD_CELL_COUNT; FULL_BOARD_CELL_COUNT]
  /\ subtable_at (ContinuationHistory FULL_BOARD_CELL_COUNT) [oppo4; prev]
     = Some (MoveHistory FULL_BOARD_CELL_COUNT)
  /\ shape (MoveHistory FULL_BOARD_CELL_COUNT) = [FULL_BOARD_CELL_COUNT]
  /\ entry_at (MoveHistory FULL_BOARD_CELL_COUNT) [cur] = Some T_int16
  /\ range (MoveHistory FULL_BOARD_CELL_COUNT) = 10692
  /\ range (MoveHistory FULL_BOARD_CELL_COUNT)
     = range (MainHistory SIDE_NB FULL_BOARD_CELL_COUNT)
  /\ value_type (MoveHistory FULL_BOARD_CELL_COUNT)
     = value_type (MainHistory SIDE_NB FULL_BOARD_CELL_COUNT)
  /\ shape (MoveHistory FULL_BOARD_CELL_COUNT)
     <> shape (MainHistory SIDE_NB FULL_BOARD_CELL_COUNT).
Proof.
  intros Ho Hp Hc.
  split; [reflexivity|]. split.
  - unfold subtable_at, entry_at. cbn [shape ContinuationHistory in_bounds].
    apply Nat.ltb_lt in Ho, Hp. rewrite Ho, Hp. reflexivity.
  - split; [reflexivity|]. split.
    + unfold entry_at. cbn [shape MoveHistory in_bounds].
      apply Nat.ltb_lt in Hc. rewrite Hc. reflexivity.
    + repeat split. discriminate.
Qed.

Lemma ContinuationHistory_subtable_witness :
  subtable_at (ContinuationHistory 1024) [1; 37]%nat = Some (MoveHistory 1024)
  /\ shape (MoveHistory 1024) = [1024]%nat.
Proof.
  pose proof (ContinuationHistory_subtable 2 1024 1 37 5) as H.
  assert (H1 : (1 < OPPO4_NB)%nat) by (unfold OPPO4_NB; lia).
  assert (H2 : (37 < 1024)%nat) by lia.
  assert (H3 : (5 < 1024)%nat) by lia.
  destruct (H H1 H2 H3) as (_ & Hs & Hsh & _).
  split; [exact Hs|exact Hsh].
Defined.

(** C6 as stated fails: with two sides and a 32 x 32 board, the table
    reached by the flag and the previous move's cell does not have the
    shape of [MainHistory]. *)
Lemma ContinuationHistory_not_MainHistory_shaped :
  ~ (exists t,
        subtable_at (ContinuationHistory 1024) [0; 0]%nat = Some t
        /\ shape t = shape (MainHistory 2 1024)
        /\ range t = 10692).
Proof.
  intros (t & Ht & Hs & _).
  vm_compute in Ht. injection Ht as <-. discriminate Hs.
Qed.

End TableFacts.

Module AspirationFacts.
Import CInt CIntFacts AB.

Lemma quot2_bounds a :
  (0 <= a -> 2 * Z.quot a 2 <= a <= 2 * Z.quot a 2 + 1) /\
  (a <= 0 -> 2 * Z.quot a 2 - 1 <= a <= 2 * Z.quot a 2).
Proof.
  pose proof (Z.quot_rem' a 2) as E.
  split; intros Ha.
  - pose proof (Z.rem_bound_pos_pos a 2 ltac:(lia) Ha). lia.
  - pose proof (Z.rem_bound_pos_neg a 2 ltac:(lia) Ha). lia.
Qed.

Lemma nextDelta_nonzero p :
  p <> 0 -> in_int (p * 3) ->
  nextAspirationWindowDelta p = Z.quot (p * 3) 2 + 5.
Proof.
  intros Hp Hr. unfold nextAspirationWindowDelta.
  destruct (Z.eqb_spec p 0) as [|_]; [contradiction|].
  destruct (quot2_bounds (p * 3)) as [Hpos Hneg].
  unfold in_int, INT_MIN, INT_MAX in Hr. change (2 ^ 31) with 2147483648 in Hr.
  unfold int_add, int_div, int_mul.
  rewrite (wrap32_id (p * 3)) by (apply in_int_bound; lia).
  rewrite (wrap32_id (Z.quot _ _)) by (apply in_int_bound; lia).
  rewrite wrap32_id by (apply in_int_bound; lia).
  reflexivity.
Qed.

(** C3. The first aspiration half-width is 17; from a nonzero previous
    half-width [p] the next one is [p * 3 / 2 + 5] in the arithmetic of
    [int], which is the integer [(p * 3) quot 2 + 5] (division truncating
    toward zero) as long as [p * 3] is an [int]; and the successor of 17
    is 30. *)
Theorem nextAspirationWindowDelta_spec (p : Value) :
  p <> 0 ->
  nextAspirationWindowDelta 0 = 17
  /\ nextAspirationWindowDelta p = int_add (int_div (int_mul p 3) 2) 5
  /\ (in_int (p * 3) -> nextAspirationWindowDelta p = Z.quot (p * 3) 2 + 5)
  /\ nextAspirationWindowDelta 17 = 30.
Proof.
  intros Hp. split; [reflexivity|]. split; [|split; [|reflexivity]].
  - unfold nextAspirationWindowDelta.
    destruct (Z.eqb_spec p 0) as [|_]; [contradiction|reflexivity].
  - apply nextDelta_nonzero; assumption.
Qed.

Lemma nextAspirationWindowDelta_spec_witness :
  nextAspirationWindowDelta 0 = 17
  /\ nextAspirationWindowDelta (-7) = Z.quot (-7 * 3) 2 + 5
  /\ nextAspirationWindowDelta 17 = 30.
Proof.
  destruct (nextAspirationWindowDelta_spec (-7)) as (H0 & _ & Hq & H17);
    [discriminate|].
  split; [exact H0|]. split; [|exact H17].
  apply Hq. vm_compute. split; discriminate.
Defined.

(** C9. From a previous half-width [p >= 1] (with [p * 3] an [int]) the
    next half-width is at least [p + 5], so the window strictly widens on
    every re-search. *)
Theorem nextAspirationWindowDelta_grows (p : Value) :
  1 <= p -> in_int (p * 3) ->
  p + 5 <= nextAspirationWindowDelta p /\ p < nextAspirationWindowDelta p.
Proof.
  intros Hp Hr.
  rewrite nextDelta_nonzero by (try assumption; lia).
  destruct (quot2_bounds (p * 3)) as [Hpos _].
  specialize (Hpos ltac:(lia)). lia.
Qed.

Lemma nextAspirationWindowDelta_grows_witness :
  30 + 5 <= nextAspirationWindowDelta 30 /\ 30 < nextAspirationWindowDelta 30.
Proof.
  apply (nextAspirationWindowDelta_grows 30).
  - lia.
  - vm_compute. split; discriminate.
Defined.

End AspirationFacts.

Module F32Facts.
Import CInt CIntFacts F32 F32Sem.

(** *** Digits and powers of two *)

Lemma digits2_size m : digits2_pos m = Pos.size m.
Proof. induction m; simpl; congruence. Qed.

Lemma digits2_bounds m :
  2 ^ (Zpos (digits2_pos m) - 1) <= Zpos m < 2 ^ Zpos (digits2_pos m).
Proof.
  rewrite digits2_size.
  pose proof (Pos.size_gt m) as Hgt. pose proof (Pos.size_le m) as Hle.
  apply Pos2Z.pos_lt_pos in Hgt. apply Pos2Z.pos_le_pos in Hle.
  rewrite Pos2Z.inj_pow in Hgt, Hle.
  change (Zpos m~0) with (2 * Zpos m) in Hle.
  replace (Zpos (Pos.size m)) with (Zpos (Pos.size m) - 1 + 1) in Hle at 1 by lia.
  rewrite Z.pow_add_r in Hle by lia. change (2 ^ 1) with 2 in Hle.
  split; [lia|exact Hgt].
Qed.

Lemma digits2_log2 m : Zpos (digits2_pos m) = Z.log2 (Zpos m) + 1.
Proof.
  pose proof (digits2_bounds m) as [Hl Hu].
  symmetry. apply Z.add_move_r. apply Z.log2_unique; [lia|].
  replace (Z.succ (Zpos (digits2_pos m) - 1)) with (Zpos (digits2_pos m)) by lia.
  split; assumption.
Qed.

Lemma pow2_pos a : 0 <= a -> 0 < 2 ^ a.
Proof. intros. apply Z.pow_pos_nonneg; lia. Qed.

Lemma pow2_split a b : 0 <= a -> 0 <= b -> 2 ^ (a + b) = 2 ^ a * 2 ^ b.
Proof. intros. apply Z.pow_add_r; assumption. Qed.

Lemma pow2_le a b : 0 <= a <= b -> 2 ^ a <= 2 ^ b.
Proof. intros. apply Z.pow_le_mono_r; lia. Qed.

Lemma pow2_lt a b : 0 <= a < b -> 2 ^ a < 2 ^ b.
Proof. intros. apply Z.pow_lt_mono_r; lia. Qed.

Lemma fexp_eq mu : fexp prec emax mu = Z.max (mu - 24) (-149).
Proof. reflexivity. Qed.

(** *** Canonical data and the order of their values *)

Lemma bounded_inv m e :
  bounded prec emax m e = true ->
  -149 <= e <= 104 /\
  (Zpos (digits2_pos m) = 24 \/ (e = -149 /\ Zpos (digits2_pos m) <= 24)).
Proof.
  unfold bounded, canonical_mantissa. rewrite fexp_eq.
  intros H. apply andb_prop in H as [Hc Hb].
  apply Z.eqb_eq in Hc. apply Z.leb_le in Hb.
  change (emax - prec) with 104 in Hb. lia.
Qed.

Lemma canonical_compare K m1 e1 m2 e2 :
  149 <= K ->
  bounded prec emax m1 e1 = true -> bounded prec emax m2 e2 = true ->
  match e1 ?= e2 with
  | Lt => Lt
  | Gt => Gt
  | Eq => Pos.compare_cont Eq m1 m2
  end = (Zpos m1 * 2 ^ (e1 + K) ?= Zpos m2 * 2 ^ (e2 + K)).
Proof.
  intros HK H1 H2.
  apply bounded_inv in H1 as [He1 Hd1]. apply bounded_inv in H2 as [He2 Hd2].
  pose proof (digits2_bounds m1) as [Hl1 Hu1].
  pose proof (digits2_bounds m2) as [Hl2 Hu2].
  assert (Hu1' : Zpos m1 < 2 ^ 24).
  { eapply Z.lt_le_trans; [exact Hu1|]. apply pow2_le. lia. }
  assert (Hu2' : Zpos m2 < 2 ^ 24).
  { eapply Z.lt_le_trans; [exact Hu2|]. apply pow2_le. lia. }
  destruct (Z.compare_spec e1 e2) as [->|Hlt|Hgt].
  - change (Pos.compare_cont Eq m1 m2) with (Zpos m1 ?= Zpos m2).
    pose proof (pow2_pos (e2 + K) ltac:(lia)) as HP.
    symmetry. destruct (Z.compare_spec (Zpos m1) (Zpos m2)) as [E|L|G].
    + rewrite E. apply Z.compare_refl.
    + apply Z.compare_lt_iff. nia.
    + apply Z.compare_gt_iff. nia.
  - symmetry. apply Z.compare_lt_iff.
    assert (Hn2 : Zpos (digits2_pos m2) = 24) by lia.
    rewrite Hn2 in Hl2. change (2 ^ (24 - 1)) with 8388608 in Hl2.
    change (2 ^ 24) with 16777216 in Hu1'.
    replace (e2 + K) with ((e1 + K) + (e2 - e1)) by lia.
    rewrite (pow2_split (e1 + K) (e2 - e1)) by lia.
    pose proof (pow2_pos (e1 + K) ltac:(lia)) as HP.
    pose proof (pow2_le 1 (e2 - e1) ltac:(lia)) as HQ. change (2 ^ 1) with 2 in HQ.
    set (P := 2 ^ (e1 + K)) in *. set (Q := 2 ^ (e2 - e1)) in *.
    assert (16777216 <= Zpos m2 * Q) by nia.
    assert (Zpos m1 * P < 16777216 * P) by nia.
    assert (16777216 * P <= Zpos m2 * Q * P) by nia.
    lia.
  - symmetry. apply Z.compare_gt_iff.
    assert (Hn1 : Zpos (digits2_pos m1) = 24) by lia.
    rewrite Hn1 in Hl1. change (2 ^ (24 - 1)) with 8388608 in Hl1.
    change (2 ^ 24) with 16777216 in Hu2'.
    replace (e1 + K) with ((e2 + K) + (e1 - e2)) by lia.
    rewrite (pow2_split (e2 + K) (e1 - e2)) by lia.
    pose proof (pow2_pos (e2 + K) ltac:(lia)) as HP.
    pose proof (pow2_le 1 (e1 - e2) ltac:(lia)) as HQ. change (2 ^ 1) with 2 in HQ.
    set (P := 2 ^ (e2 + K)) in *. set (Q := 2 ^ (e1 - e2)) in *.
    assert (16777216 <= Zpos m1 * Q) by nia.
    assert (Zpos m2 * P < 16777216 * P) by nia.
    assert (16777216 * P <= Zpos m1 * Q * P) by nia.
    lia.
Qed.

Lemma scaled_pos K m e :
  0 <= e + K -> 0 < Zpos m * 2 ^ (e + K).
Proof. intros H. pose proof (pow2_pos _ H). lia. Qed.

(** On well-formed finite data [SFcompare] is the order of the values. *)
Lemma compare_scaled K x y :
  149 <= K -> valid x -> valid y -> finite x -> finite y ->
  SFcompare x y = Some (scaled K x ?= scaled K y).
Proof.
  intros HK Vx Vy Fx Fy.
  destruct x as [sx| | |sx mx ex], y as [sy| | |sy my ey]; try contradiction;
    unfold valid in *; simpl in Vx, Vy.
  - reflexivity.
  - apply bounded_inv in Vy as [He _].
    pose proof (scaled_pos K my ey ltac:(lia)).
    unfold SFcompare, scaled. destruct sy; unfold cond_Zopp; f_equal; symmetry.
    + apply Z.compare_gt_iff. lia.
    + apply Z.compare_lt_iff. lia.
  - apply bounded_inv in Vx as [He _].
    pose proof (scaled_pos K mx ex ltac:(lia)).
    unfold SFcompare, scaled. destruct sx; unfold cond_Zopp; f_equal; symmetry.
    + apply Z.compare_lt_iff. lia.
    + apply Z.compare_gt_iff. lia.
  - pose proof (canonical_compare K mx ex my ey HK Vx Vy) as Hc.
    apply bounded_inv in Vx as [Hex _]. apply bounded_inv in Vy as [Hey _].
    pose proof (scaled_pos K mx ex ltac:(lia)).
    pose proof (scaled_pos K my ey ltac:(lia)).
    unfold SFcompare, scaled. destruct sx, sy; unfold cond_Zopp; f_equal.
    + rewrite Z.compare_opp, (Z.compare_antisym (Zpos mx * _) (Zpos my * _)), <- Hc.
      destruct (ex ?= ey); reflexivity.
    + symmetry. apply Z.compare_lt_iff. lia.
    + symmetry. apply Z.compare_gt_iff. lia.
    + exact Hc.
Qed.

End F32Facts.

Module PowFacts.
Import CInt.

(** *** The integer part of [i ^ 1.4]

    [k] is the integer part of [i ^ (7/5)] when [k^5 <= i^7 < (k+1)^5]. *)

Lemma pow_lt_inv a b c : 0 <= a -> 0 <= b -> 0 < c -> a ^ c < b ^ c -> a < b.
Proof.
  intros Ha Hb Hc H. destruct (Z.lt_ge_cases a b) as [|Hge]; [assumption|].
  pose proof (Z.pow_le_mono_l b a c ltac:(lia)). lia.
Qed.

Lemma pow_le_inv a b c : 0 <= a -> 0 <= b -> 0 < c -> a ^ c <= b ^ c -> a <= b.
Proof.
  intros Ha Hb Hc H. destruct (Z.le_gt_cases a b) as [|Hgt]; [assumption|].
  pose proof (Z.pow_lt_mono_l b a c Hc ltac:(lia)). lia.
Qed.

Lemma pow_pow a b c : 0 <= b -> 0 <= c -> (a ^ b) ^ c = a ^ (b * c).
Proof. intros. symmetry. apply Z.pow_mul_r; assumption. Qed.

(** Below [k^5 <= i^7] the lower powers of [k] are bounded by powers of [i]. *)
Lemma root_bounds i k :
  1 <= i -> 0 <= k -> k ^ 5 <= i ^ 7 ->
  k <= i ^ 2 /\ k ^ 2 <= i ^ 3 /\ k ^ 3 <= i ^ 5 /\ k ^ 4 <= i ^ 6.
Proof.
  intros Hi Hk H.
  assert (Hmono : forall a b, 0 <= a <= b -> i ^ a <= i ^ b)
    by (intros; apply Z.pow_le_mono_r; lia).
  assert (Hp : forall n, 0 <= n -> 0 <= i ^ n) by (intros; apply Z.pow_nonneg; lia).
  assert (Hq : forall n, 0 <= n -> 0 <= k ^ n) by (intros; apply Z.pow_nonneg; lia).
  repeat split.
  - apply (pow_le_inv _ _ 5); [lia|apply Hp; lia|lia|].
    rewrite pow_pow by lia. pose proof (Hmono 7 (2 * 5) ltac:(lia)). lia.
  - apply (pow_le_inv _ _ 5); [apply Hq; lia|apply Hp; lia|lia|].
    rewrite !pow_pow by lia. rewrite (Z.mul_comm 2 5), <- pow_pow by lia.
    pose proof (Z.pow_le_mono_l (k ^ 5) (i ^ 7) 2 ltac:(split; [apply Hq; lia|lia])) as H2.
    rewrite (pow_pow i) in H2 by lia.
    pose proof (Hmono (7 * 2) (3 * 5) ltac:(lia)). lia.
  - apply (pow_le_inv _ _ 5); [apply Hq; lia|apply Hp; lia|lia|].
    rewrite !pow_pow by lia. rewrite (Z.mul_comm 3 5), <- pow_pow by lia.
    pose proof (Z.pow_le_mono_l (k ^ 5) (i ^ 7) 3 ltac:(split; [apply Hq; lia|lia])) as H2.
    rewrite (pow_pow i) in H2 by lia.
    pose proof (Hmono (7 * 3) (5 * 5) ltac:(lia)). lia.
  - apply (pow_le_inv _ _ 5); [apply Hq; lia|apply Hp; lia|lia|].
    rewrite !pow_pow by lia. rewrite (Z.mul_comm 4 5), <- pow_pow by lia.
    pose proof (Z.pow_le_mono_l (k ^ 5) (i ^ 7) 4 ltac:(split; [apply Hq; lia|lia])) as H2.
    rewrite (pow_pow i) in H2 by lia.
    pose proof (Hmono (7 * 4) (6 * 5) ltac:(lia)). lia.
Qed.

(** [i ^ 1.4] grows by more than one from [i] to [i + 1]. *)
Lemma root_step i k :
  1 <= i -> 0 <= k -> k ^ 5 <= i ^ 7 -> (k + 1) ^ 5 <= (i + 1) ^ 7.
Proof.
  intros Hi Hk H.
  destruct (root_bounds i k Hi Hk H) as (B1 & B2 & B3 & B4).
  assert (Hp : forall n, 0 <= n -> 1 <= i ^ n).
  { intros n Hn. rewrite <- (Z.pow_1_l n) by lia. apply Z.pow_le_mono_l. lia. }
  pose proof (Hp 2 ltac:(lia)). pose proof (Hp 3 ltac:(lia)).
  pose proof (Hp 4 ltac:(lia)). pose proof (Hp 5 ltac:(lia)).
  pose proof (Hp 6 ltac:(lia)). pose proof (Hp 7 ltac:(lia)).
  replace ((k + 1) ^ 5)
    with (k ^ 5 + 5 * k ^ 4 + 10 * k ^ 3 + 10 * k ^ 2 + 5 * k + 1) by ring.
  replace ((i + 1) ^ 7)
    with (i ^ 7 + 7 * i ^ 6 + 21 * i ^ 5 + 35 * i ^ 4 + 35 * i ^ 3
          + 21 * i ^ 2 + 7 * i + 1) by ring.
  lia.
Qed.

Section Accuracy.
Variable MAX_MOVES : nat.
Variable pow_1_4 : Z -> Z.

(** The truncated library power is the integer part of [i ^ 1.4] or
    one less (the exponent [1.4] is not a [double]). *)
Hypothesis accurate :
  forall i, 1 <= i <= Z.of_nat MAX_MOVES ->
    exists k, 0 <= k /\ k ^ 5 <= i ^ 7 < (k + 1) ^ 5 /\ k - 1 <= pow_1_4 i <= k.
Hypothesis small : Z.of_nat MAX_MOVES <= 40000.

Lemma accurate_range i :
  1 <= i <= Z.of_nat MAX_MOVES -> 0 <= pow_1_4 i <= INT_MAX - 3.
Proof.
  intros Hi. destruct (accurate i Hi) as (k & Hk & [Hl Hu] & Hp).
  assert (1 <= k).
  { destruct (Z.eq_dec k 0) as [->|]; [|lia].
    assert (1 <= i ^ 7); [|simpl in Hu; lia].
    rewrite <- (Z.pow_1_l 7) by lia. apply Z.pow_le_mono_l. lia. }
  destruct (root_bounds i k ltac:(lia) Hk Hl) as (B1 & _).
  assert (i ^ 2 <= 40000 ^ 2) by (apply Z.pow_le_mono_l; lia).
  unfold INT_MAX. change (2 ^ 31) with 2147483648.
  change (40000 ^ 2) with 1600000000 in *. lia.
Qed.

Lemma accurate_step i :
  1 <= i -> i + 1 <= Z.of_nat MAX_MOVES -> pow_1_4 i <= pow_1_4 (i + 1).
Proof.
  intros Hi Hj.
  destruct (accurate i ltac:(lia)) as (k & Hk & [Hl Hu] & Hp).
  destruct (accurate (i + 1) ltac:(lia)) as (k' & Hk' & [Hl' Hu'] & Hp').
  pose proof (root_step i k Hi Hk Hl) as Hs.
  assert (k + 1 < k' + 1); [|lia].
  apply (pow_lt_inv _ _ 5); lia.
Qed.

Lemma accurate_mono i j :
  1 <= i <= j -> j <= Z.of_nat MAX_MOVES -> pow_1_4 i <= pow_1_4 j.
Proof.
  intros [Hi Hij] Hj.
  replace j with (i + Z.of_nat (Z.to_nat (j - i))) in * by lia.
  induction (Z.to_nat (j - i)) as [|n IH].
  - rewrite Z.add_0_r. lia.
  - rewrite Nat2Z.inj_succ in *. unfold Z.succ in *.
    etransitivity; [apply IH; lia|].
    rewrite Z.add_assoc. apply accurate_step; lia.
Qed.
End Accuracy.

End PowFacts.

Module TruncFacts.
Import CInt CIntFacts F32 F32Sem F32Facts.

(** The integer part is the quotient, truncated toward zero, of the
    scaled value by the scale. *)
Lemma trunc_scaled K s m e :
  0 <= e + K -> 0 <= K ->
  trunc (S754_finite s m e)
  = Some (Z.quot (scaled K (S754_finite s m e)) (2 ^ K)).
Proof.
  intros HeK HK. unfold trunc, scaled. f_equal.
  pose proof (pow2_pos K HK) as HP.
  assert (E : Z.shiftl (Zpos m) e = Z.quot (Zpos m * 2 ^ (e + K)) (2 ^ K)).
  { rewrite Z.quot_div_nonneg by (try lia; pose proof (pow2_pos _ HeK); lia).
    destruct (Z.le_gt_cases 0 e) as [He|He].
    - rewrite Z.shiftl_mul_pow2 by assumption.
      rewrite pow2_split by assumption. rewrite Z.mul_assoc.
      rewrite Z.div_mul by lia. reflexivity.
    - rewrite Z.shiftl_div_pow2 by lia.
      replace K with ((- e) + (e + K)) at 2 by lia.
      rewrite (pow2_split (- e) (e + K)) by lia.
      pose proof (pow2_pos (- e) ltac:(lia)). pose proof (pow2_pos _ HeK).
      rewrite <- (Z.mul_1_l (2 ^ (e + K))) at 1.
      rewrite Z.mul_assoc, Z.mul_1_r.
      rewrite Z.div_mul_cancel_r by lia. reflexivity. }
  destruct s; unfold cond_Zopp.
  - rewrite Z.quot_opp_l by lia. f_equal. exact E.
  - exact E.
Qed.

Lemma trunc_scaled_valid K x z :
  149 <= K -> valid x -> trunc x = Some z ->
  z = Z.quot (scaled K x) (2 ^ K).
Proof.
  intros HK V H. destruct x as [s| | |s m e]; try discriminate.
  - simpl in H. injection H as <-. simpl. symmetry. apply Z.quot_0_l.
    pose proof (pow2_pos K ltac:(lia)). lia.
  - unfold valid in V. simpl in V. apply bounded_inv in V as [He _].
    rewrite (trunc_scaled K) in H by lia. congruence.
Qed.

Lemma trunc_finite x z : trunc x = Some z -> finite x.
Proof. destruct x; simpl; intros; try discriminate; exact I. Qed.

Lemma to_int_trunc x z :
  to_int x = Some z -> trunc x = Some z /\ in_int z.
Proof.
  unfold to_int. destruct (trunc x) as [t|]; [|discriminate].
  destruct (andb _ _) eqn:B; [|discriminate].
  intros [= <-]. apply andb_prop in B as [B1 B2].
  apply Z.leb_le in B1, B2. split; [reflexivity|]. split; assumption.
Qed.

(** [int(.)] is monotone on well-formed floats. *)
Lemma to_int_monotone x y i j :
  valid x -> valid y -> fle x y = true ->
  to_int x = Some i -> to_int y = Some j -> i <= j.
Proof.
  intros Vx Vy Hle Hx Hy.
  apply to_int_trunc in Hx as [Hx _]. apply to_int_trunc in Hy as [Hy _].
  pose proof (trunc_finite _ _ Hx) as Fx. pose proof (trunc_finite _ _ Hy) as Fy.
  rewrite (trunc_scaled_valid 149 x i) by (try assumption; lia).
  rewrite (trunc_scaled_valid 149 y j) by (try assumption; lia).
  apply Z.quot_le_mono; [apply pow2_pos; lia|].
  unfold fle, SFleb in Hle.
  rewrite (compare_scaled 149) in Hle by (try assumption; lia).
  destruct (Z.compare_spec (scaled 149 x) (scaled 149 y)); try discriminate; lia.
Qed.

Lemma to_int_below_one x i :
  valid x -> flt x one = true -> to_int x = Some i -> i <= 0.
Proof.
  intros Vx Hlt Hx.
  apply to_int_trunc in Hx as [Hx _].
  pose proof (trunc_finite _ _ Hx) as Fx.
  rewrite (trunc_scaled_valid 149 x i) by (try assumption; lia).
  unfold flt, SFltb in Hlt.
  rewrite (compare_scaled 149) in Hlt by (try assumption; try lia; reflexivity).
  destruct (Z.compare_spec (scaled 149 x) (scaled 149 one)) as [|L|]; try discriminate.
  change (scaled 149 one) with (2 ^ 149) in L.
  pose proof (pow2_pos 149 ltac:(lia)) as HP.
  destruct (Z.le_gt_cases 0 (scaled 149 x)).
  - rewrite Z.quot_small; lia.
  - apply Z.quot_le_upper_bound; lia.
Qed.

(** From [INT_MIN] up to 1 (excluded) the conversion is defined. *)
Lemma to_int_defined_below_one x :
  valid x -> fle int_min_f x = true -> flt x one = true ->
  exists i, to_int x = Some i /\ INT_MIN <= i <= 0.
Proof.
  intros V Hlo Hhi.
  assert (F : finite x).
  { destruct x as [| [] | |]; try exact I; discriminate. }
  assert (Ht : exists z, trunc x = Some z).
  { destruct x; try contradiction; eexists; reflexivity. }
  destruct Ht as [z Hz].
  pose proof (trunc_scaled_valid 149 x z ltac:(lia) V Hz) as Ez.
  unfold fle, SFleb in Hlo. unfold flt, SFltb in Hhi.
  rewrite (compare_scaled 149) in Hlo, Hhi
    by (try assumption; try lia; try reflexivity; exact I).
  assert (Hl : scaled 149 int_min_f <= scaled 149 x)
    by (destruct (Z.compare_spec (scaled 149 int_min_f) (scaled 149 x));
        try discriminate; lia).
  assert (Hu : scaled 149 x < scaled 149 one)
    by (destruct (Z.compare_spec (scaled 149 x) (scaled 149 one));
        try discriminate; lia).
  pose proof (pow2_pos 149 ltac:(lia)) as HP.
  assert (Hz1 : INT_MIN <= z).
  { replace INT_MIN with (Z.quot (scaled 149 int_min_f) (2 ^ 149))
      by (vm_compute; reflexivity).
    rewrite Ez. apply Z.quot_le_mono; assumption. }
  assert (Hz2 : z <= 0).
  { rewrite Ez. change (scaled 149 one) with (2 ^ 149) in Hu.
    destruct (Z.le_gt_cases 0 (scaled 149 x)).
    - rewrite Z.quot_small; lia.
    - apply Z.quot_le_upper_bound; lia. }
  exists z. split; [|lia].
  unfold to_int. rewrite Hz.
  destruct (Z.leb_spec INT_MIN z); [|lia].
  destruct (Z.leb_spec z INT_MAX) as [|C]; [reflexivity|].
  unfold INT_MAX in C. change (2 ^ 31) with 2147483648 in C. lia.
Qed.

End TruncFacts.

Module FutilityFacts.
Import CInt CIntFacts F32 F32Sem F32Facts TruncFacts AB.

Lemma fold_insert_lookup (f : nat -> Z) (l : list nat) :
  forall (init : list Z) (k : nat),
    (k < length init)%nat ->
    fold_left (fun MC i => <[ i := f i ]> MC) l init !! k
    = if decide (k ∈ l) then Some (f k) else init !! k.
Proof.
  induction l as [|i l IH]; intros init k Hk; simpl.
  - destruct (decide (k ∈ [])) as [H|_]; [inversion H|reflexivity].
  - rewrite IH by (rewrite length_insert; exact Hk).
    destruct (decide (k ∈ l)) as [Hin|Hnin].
    + rewrite decide_True by (right; exact Hin). reflexivity.
    + destruct (decide (k = i)) as [->|Hne].
      * rewrite decide_True by left.
        apply list_lookup_insert_eq. exact Hk.
      * rewrite decide_False by (intros Hc; inversion Hc; subst; contradiction).
        apply list_lookup_insert_ne. congruence.
Qed.

Section Table.
Variable MAX_MOVES : nat.
Variable pow_1_4 : Z -> Z.

Local Abbreviation MC := (FutilityMC MAX_MOVES pow_1_4).

Lemma FutilityMC_lookup (k : nat) :
  (k <= MAX_MOVES)%nat ->
  MC !! k = Some (if decide (k = 0%nat) then 0 else int_add 3 (pow_1_4 (Z.of_nat k))).
Proof.
  intros Hk. unfold FutilityMC.
  rewrite fold_insert_lookup by (rewrite length_replicate; lia).
  destruct (decide (k = 0%nat)) as [->|Hk0].
  - rewrite decide_False by (rewrite elem_of_seq; lia). reflexivity.
  - rewrite decide_True by (rewrite elem_of_seq; lia). reflexivity.
Qed.

Lemma FutilityMC_length : length MC = S MAX_MOVES.
Proof.
  unfold FutilityMC. generalize (seq 1 MAX_MOVES) as l.
  assert (H : length (replicate (S MAX_MOVES) 0) = S MAX_MOVES)
    by apply length_replicate.
  revert H. generalize (replicate (S MAX_MOVES) 0) as init.
  intros init H l. revert init H.
  induction l as [|i l IH]; intros init H; simpl; [exact H|].
  apply IH. rewrite length_insert. exact H.
Qed.

Lemma FutilityMC_zero : array_get MC 0 = Some 0.
Proof.
  unfold array_get. simpl. rewrite FutilityMC_lookup by lia. reflexivity.
Qed.

(** The value of [futilityMoveCount] wherever it is defined. *)
Lemma futilityMoveCount_eq d improving i :
  to_int d = Some i -> i <= Z.of_nat MAX_MOVES ->
  exists mc,
    array_get MC (Z.max i 0) = Some mc /\
    futilityMoveCount MAX_MOVES pow_1_4 d improving
    = Some (int_div mc (int_sub 2 (Z.b2z improving))).
Proof.
  intros Hi Hb. unfold futilityMoveCount. rewrite Hi.
  assert (Hk : (Z.to_nat (Z.max i 0) <= MAX_MOVES)%nat) by lia.
  pose proof (FutilityMC_lookup _ Hk) as Hl.
  unfold array_get. destruct (Z.ltb_spec (Z.max i 0) 0) as [?|_]; [lia|].
  rewrite Hl. eexists; split; reflexivity.
Qed.

(** C8. Below depth 1, negative depths included, the index
    [max(int(d), 0)] is 0 and the table holds 0 there (not
    [3 + 0^1.4]), so [futilityMoveCount] returns 0 whatever [improving]
    is. The depth is a well-formed float not below [INT_MIN], so that
    [int(d)] is defined. *)
Theorem futilityMoveCount_below_one (d : Depth) (improving : bool) :
  valid d -> fle int_min_f d = true -> flt d one = true ->
  (exists i, to_int d = Some i /\ Z.max i 0 = 0)
  /\ array_get MC 0 = Some 0
  /\ futilityMoveCount MAX_MOVES pow_1_4 d improving = Some 0.
Proof.
  intros V Hlo Hlt.
  destruct (to_int_defined_below_one d V Hlo Hlt) as (i & Hi & Hr).
  assert (Hm : Z.max i 0 = 0) by lia.
  split; [exists i; split; assumption|]. split; [apply FutilityMC_zero|].
  destruct (futilityMoveCount_eq d improving i Hi ltac:(lia)) as (mc & Hmc & ->).
  rewrite Hm, FutilityMC_zero in Hmc. injection Hmc as <-.
  destruct improving; reflexivity.
Qed.

Hypothesis pow_range :
  forall i, 1 <= i <= Z.of_nat MAX_MOVES -> 0 <= pow_1_4 i <= INT_MAX - 3.
Hypothesis pow_mono :
  forall i j, 1 <= i <= j -> j <= Z.of_nat MAX_MOVES -> pow_1_4 i <= pow_1_4 j.

Lemma FutilityMC_get (i : Z) :
  0 <= i <= Z.of_nat MAX_MOVES ->
  array_get MC i = Some (if i =? 0 then 0 else 3 + pow_1_4 i).
Proof.
  intros Hi. unfold array_get.
  destruct (Z.ltb_spec i 0) as [?|_]; [lia|].
  rewrite FutilityMC_lookup by lia.
  destruct (decide (Z.to_nat i = 0%nat)) as [E|N], (Z.eqb_spec i 0) as [E'|N'];
    try lia; try reflexivity.
  rewrite Z2Nat.id by lia. unfold int_add.
  rewrite wrap32_id; [reflexivity|].
  specialize (pow_range i ltac:(lia)).
  unfold in_int, INT_MIN, INT_MAX in *. change (2 ^ 31) with 2147483648 in *. lia.
Qed.

Lemma FutilityMC_get_range i mc :
  0 <= i <= Z.of_nat MAX_MOVES -> array_get MC i = Some mc ->
  0 <= mc <= INT_MAX.
Proof.
  intros Hi. rewrite FutilityMC_get by assumption.
  intros [= <-]. destruct (Z.eqb_spec i 0).
  - unfold INT_MAX. change (2 ^ 31) with 2147483648. lia.
  - specialize (pow_range i ltac:(lia)). lia.
Qed.

Lemma FutilityMC_monotone i j a b :
  0 <= i <= j -> j <= Z.of_nat MAX_MOVES ->
  array_get MC i = Some a -> array_get MC j = Some b -> a <= b.
Proof.
  intros Hij Hj. rewrite !FutilityMC_get by lia.
  intros [= <-] [= <-].
  destruct (Z.eqb_spec i 0), (Z.eqb_spec j 0); try lia.
  - specialize (pow_range j ltac:(lia)). lia.
  - specialize (pow_mono i j ltac:(lia) Hj). lia.
Qed.

Lemma int_div_small mc improving :
  0 <= mc <= INT_MAX ->
  int_div mc (int_sub 2 (Z.b2z improving)) = Z.quot mc (2 - Z.b2z improving)
  /\ 0 <= Z.quot mc (2 - Z.b2z improving) <= mc.
Proof.
  intros H. unfold INT_MAX in H. change (2 ^ 31) with 2147483648 in H.
  assert (Hq : 0 <= Z.quot mc (2 - Z.b2z improving) <= mc).
  { destruct improving; simpl.
    - rewrite Z.quot_1_r. lia.
    - split; [apply Z.quot_pos; lia|apply Z.quot_le_upper_bound; lia]. }
  split; [|exact Hq].
  unfold int_div, int_sub.
  rewrite (wrap32_id (2 - _)) by (apply in_int_bound; destruct improving; simpl; lia).
  apply wrap32_id. apply in_int_bound. lia.
Qed.

(** Monotonicity over a table of non-negative, non-decreasing [int]s. *)
Lemma futilityMoveCount_monotone_table (d1 d2 : Depth) (improving : bool) (i1 i2 : Z) :
  valid d1 -> valid d2 -> fle d1 d2 = true ->
  to_int d1 = Some i1 -> to_int d2 = Some i2 -> i2 <= Z.of_nat MAX_MOVES ->
  (exists r1 r2,
      futilityMoveCount MAX_MOVES pow_1_4 d1 improving = Some r1 /\
      futilityMoveCount MAX_MOVES pow_1_4 d2 improving = Some r2 /\
      r1 <= r2)
  /\ (exists rf rt,
      futilityMoveCount MAX_MOVES pow_1_4 d1 false = Some rf /\
      futilityMoveCount MAX_MOVES pow_1_4 d1 true = Some rt /\
      rf <= rt).
Proof.
  intros V1 V2 Hle H1 H2 Hb.
  pose proof (to_int_monotone d1 d2 i1 i2 V1 V2 Hle H1 H2) as Hi.
  assert (Hb1 : i1 <= Z.of_nat MAX_MOVES) by lia.
  split.
  - destruct (futilityMoveCount_eq d1 improving i1 H1 Hb1) as (a & Ha & ->).
    destruct (futilityMoveCount_eq d2 improving i2 H2 Hb) as (b & Hb' & ->).
    pose proof (FutilityMC_get_range (Z.max i1 0) a ltac:(lia) Ha) as Ra.
    pose proof (FutilityMC_get_range (Z.max i2 0) b ltac:(lia) Hb') as Rb.
    pose proof (FutilityMC_monotone (Z.max i1 0) (Z.max i2 0) a b
                  ltac:(lia) ltac:(lia) Ha Hb') as Hab.
    destruct (int_div_small a improving Ra) as [-> _].
    destruct (int_div_small b improving Rb) as [-> _].
    do 2 eexists. split; [reflexivity|]. split; [reflexivity|].
    apply Z.quot_le_mono; [destruct improving; simpl; lia|exact Hab].
  - destruct (futilityMoveCount_eq d1 false i1 H1 Hb1) as (a & Ha & ->).
    destruct (futilityMoveCount_eq d1 true i1 H1 Hb1) as (a' & Ha' & ->).
    assert (a' = a) by congruence. subst a'.
    pose proof (FutilityMC_get_range (Z.max i1 0) a ltac:(lia) Ha) as Ra.
    destruct (int_div_small a false Ra) as [-> [_ Hq]].
    destruct (int_div_small a true Ra) as [-> _].
    do 2 eexists. split; [reflexivity|]. split; [reflexivity|].
    simpl in *. rewrite Z.quot_1_r. exact Hq.
Qed.

End Table.

(** C4. With the flag [improving] fixed, [futilityMoveCount] is
    non-decreasing in the depth; with the depth fixed, its value for
    [improving = true] is at least its value for [improving = false].
    The depths are well-formed floats whose integer part is an [int] no
    larger than [MAX_MOVES], where the function is defined. The library
    power, truncated, is supposed to be the integer part of [i ^ 1.4] or
    one less, and [MAX_MOVES] at most 40000. *)
Theorem futilityMoveCount_monotone (MAX_MOVES : nat) (pow_1_4 : Z -> Z)
    (d1 d2 : Depth) (improving : bool) (i1 i2 : Z) :
  (forall i, 1 <= i <= Z.of_nat MAX_MOVES ->
     exists k, 0 <= k /\ k ^ 5 <= i ^ 7 < (k + 1) ^ 5 /\ k - 1 <= pow_1_4 i <= k) ->
  Z.of_nat MAX_MOVES <= 40000 ->
  valid d1 -> valid d2 -> fle d1 d2 = true ->
  to_int d1 = Some i1 -> to_int d2 = Some i2 -> i2 <= Z.of_nat MAX_MOVES ->
  (exists r1 r2,
      futilityMoveCount MAX_MOVES pow_1_4 d1 improving = Some r1 /\
      futilityMoveCount MAX_MOVES pow_1_4 d2 improving = Some r2 /\
      r1 <= r2)
  /\ (exists rf rt,
      futilityMoveCount MAX_MOVES pow_1_4 d1 false = Some rf /\
      futilityMoveCount MAX_MOVES pow_1_4 d1 true = Some rt /\
      rf <= rt).
Proof.
  intros Hacc Hsmall.
  apply futilityMoveCount_monotone_table.
  - apply PowFacts.accurate_range; assumption.
  - apply PowFacts.accurate_mono; assumption.
Qed.

Lemma pow_1_4_sample_accurate i :
  1 <= i <= Z.of_nat 8 ->
  exists k, 0 <= k /\ k ^ 5 <= i ^ 7 < (k + 1) ^ 5
            /\ k - 1 <= pow_1_4_sample i <= k.
Proof.
  intros H. exists (pow_1_4_sample i).
  assert (C : i = 1 \/ i = 2 \/ i = 3 \/ i = 4 \/ i = 5 \/ i = 6 \/ i = 7 \/ i = 8) by lia.
  repeat (destruct C as [->|C]); try subst i; vm_compute; repeat split; discriminate.
Qed.

Lemma futilityMoveCount_below_one_witness :
  futilityMoveCount 8 pow_1_4_sample (S754_finite true 10485760 (-22)) true = Some 0.
Proof.
  apply (futilityMoveCount_below_one 8 pow_1_4_sample
           (S754_finite true 10485760 (-22)) true); reflexivity.
Defined.

Lemma futilityMoveCount_monotone_witness :
  (exists r1 r2,
      futilityMoveCount 8 pow_1_4_sample (of_int 3) false = Some r1 /\
      futilityMoveCount 8 pow_1_4_sample (of_int 7) false = Some r2 /\
      r1 <= r2)
  /\ (exists rf rt,
      futilityMoveCount 8 pow_1_4_sample (of_int 3) false = Some rf /\
      futilityMoveCount 8 pow_1_4_sample (of_int 3) true = Some rt /\
      rf <= rt).
Proof.
  apply (futilityMoveCount_monotone 8 pow_1_4_sample
           (of_int 3) (of_int 7) false 3 7); try reflexivity.
  - apply pow_1_4_sample_accurate.
  - simpl. lia.
  - simpl. lia.
Defined.

End FutilityFacts.

Module RoundFacts.
Import CInt CIntFacts F32 F32Sem F32Facts.

(** *** Right shifts with round and sticky bits *)

Lemma iter_pos_eq {A} (f : A -> A) (n : positive) :
  forall x, SpecFloat.iter_pos f n x = Pos.iter f x n.
Proof.
  induction n as [n IH|n IH|]; intros x; simpl.
  - rewrite !IH. rewrite !Pos.iter_swap. reflexivity.
  - rewrite !IH. reflexivity.
  - reflexivity.
Qed.

Lemma shr_1_nonneg m r s :
  0 <= m ->
  shr_1 (Build_shr_record m r s) = Build_shr_record (m / 2) (Z.odd m) (r || s).
Proof.
  intros Hm. rewrite <- Z.div2_div.
  destruct m as [|p|p]; [reflexivity| |lia].
  destruct p; reflexivity.
Qed.

Lemma mod_double n G :
  0 < G ->
  n mod (G * 2) = n mod G + G * (if Z.odd (n / G) then 1 else 0).
Proof.
  intros HG. rewrite Z.rem_mul_r by lia. f_equal. f_equal.
  rewrite Zmod_odd. reflexivity.
Qed.

Lemma shr_iter n p :
  0 <= n ->
  let rec := Pos.iter shr_1 (Build_shr_record n false false) p in
  shr_m rec = n / 2 ^ Zpos p
  /\ loc_of_shr_record rec = loc_of n (2 ^ Zpos p).
Proof.
  intros Hn.
  apply (Pos.iter_ind _ shr_1 (Build_shr_record n false false)
           (fun p rec => shr_m rec = n / 2 ^ Zpos p
                         /\ loc_of_shr_record rec = loc_of n (2 ^ Zpos p))).
  - rewrite shr_1_nonneg by assumption. simpl shr_m. split; [reflexivity|].
    unfold loc_of. change (2 ^ 1) with 2. rewrite Zmod_odd.
    destruct (Z.odd n); reflexivity.
  - clear p. intros p [m r s] [Hm Hl]. simpl in Hm.
    assert (HG : 0 < 2 ^ Zpos p) by (apply pow2_pos; lia).
    assert (Hm0 : 0 <= m) by (subst m; apply Z.div_pos; lia).
    rewrite shr_1_nonneg by assumption. simpl shr_m.
    rewrite Pos2Z.inj_succ. unfold Z.succ.
    rewrite (pow2_split (Zpos p) 1) by lia. change (2 ^ 1) with 2.
    split.
    + subst m. rewrite Z.div_div by lia. reflexivity.
    + unfold loc_of in *. rewrite mod_double by assumption. rewrite <- Hm.
      pose proof (Z.mod_pos_bound n (2 ^ Zpos p) HG) as Hb.
      set (a := n mod 2 ^ Zpos p) in *. set (G := 2 ^ Zpos p) in *.
      assert (Hs : (r || s) = negb (a =? 0)).
      { destruct (Z.eqb_spec a 0), r, s; simpl in *; try discriminate; reflexivity. }
      rewrite Hs. clear Hl Hs.
      destruct (Z.odd m); simpl.
      * replace (a + G * 1 =? 0) with false by (symmetry; apply Z.eqb_neq; lia).
        destruct (Z.eqb_spec a 0) as [->|Ha]; simpl.
        -- replace (2 * (0 + G * 1) ?= G * 2) with Eq; [reflexivity|].
           symmetry. apply Z.compare_eq_iff. lia.
        -- replace (2 * (a + G * 1) ?= G * 2) with Gt; [reflexivity|].
           symmetry. apply Z.compare_gt_iff. lia.
      * rewrite Z.mul_0_r, Z.add_0_r.
        destruct (Z.eqb_spec a 0) as [->|Ha]; simpl; [reflexivity|].
        replace (2 * a ?= G * 2) with Lt; [reflexivity|].
        symmetry. apply Z.compare_lt_iff. lia.
Qed.

Lemma round_nearest_even_loc n g :
  0 < g ->
  round_nearest_even (n / g) (loc_of n g) = rne n g.
Proof.
  intros Hg. unfold loc_of, rne. cbv zeta.
  pose proof (Z.mod_pos_bound n g Hg) as Hb.
  set (r := n mod g) in *. set (q := n / g).
  destruct (Z.eqb_spec r 0) as [E|N].
  - destruct (Z.ltb_spec (2 * r) g); [reflexivity|lia].
  - destruct (Z.ltb_spec (2 * r) g) as [L|L].
    + rewrite (proj2 (Z.compare_lt_iff _ _) L). reflexivity.
    + destruct (Z.eqb_spec (2 * r) g) as [E2|N2].
      * rewrite (proj2 (Z.compare_eq_iff _ _) E2). reflexivity.
      * rewrite (proj2 (Z.compare_gt_iff _ _)) by lia. reflexivity.
Qed.

(** The first stage of [binary_round_aux] on an exact positive input:
    nothing happens when the exponent is already fine enough, otherwise
    the mantissa is divided and the lost part classified. *)
Lemma shr_exact n e s :
  0 <= n -> 0 < s ->
  let '(rec, e') := shr (shr_record_of_loc n loc_Exact) e s in
  e' = e + s
  /\ round_nearest_even (shr_m rec) (loc_of_shr_record rec) = rne n (2 ^ s).
Proof.
  intros Hn Hs. destruct s as [|p|p]; try lia.
  unfold shr, shr_record_of_loc. rewrite iter_pos_eq.
  pose proof (shr_iter n p Hn) as [Hm Hl]. simpl in Hm, Hl.
  split; [reflexivity|].
  rewrite Hm, Hl. apply round_nearest_even_loc. apply pow2_pos. lia.
Qed.

Lemma shr_noop rec e s : s <= 0 -> shr rec e s = (rec, e).
Proof. destruct s; try reflexivity. lia. Qed.

(** *** Rounding on scaled values *)

Lemma rne_multiple k g : 0 < g -> rne (k * g) g = k.
Proof.
  intros Hg. unfold rne. cbv zeta.
  rewrite Z.mod_mul, Z.div_mul by lia.
  destruct (Z.ltb_spec (2 * 0) g); [reflexivity|lia].
Qed.

Lemma rne_scale n g c : 0 < g -> 0 < c -> rne (n * c) (g * c) = rne n g.
Proof.
  intros Hg Hc. unfold rne. cbv zeta.
  rewrite Z.div_mul_cancel_r by lia.
  rewrite Zmult_mod_distr_r.
  pose proof (Z.mod_pos_bound n g Hg) as Hb.
  set (r := n mod g) in *.
  assert (E1 : (2 * (r * c) <? g * c) = (2 * r <? g)).
  { destruct (Z.ltb_spec (2 * (r * c)) (g * c)), (Z.ltb_spec (2 * r) g);
      try reflexivity; exfalso; nia. }
  assert (E2 : (2 * (r * c) =? g * c) = (2 * r =? g)).
  { destruct (Z.eqb_spec (2 * (r * c)) (g * c)), (Z.eqb_spec (2 * r) g);
      try reflexivity; exfalso; nia. }
  rewrite E1, E2. reflexivity.
Qed.

Lemma rne_bounds n g :
  0 < g -> n / g <= rne n g <= n / g + 1.
Proof.
  intros Hg. unfold rne. cbv zeta.
  destruct (Z.ltb_spec (2 * (n mod g)) g); [lia|].
  destruct (Z.eqb_spec (2 * (n mod g)) g); [|lia].
  destruct (Z.even (n / g)); lia.
Qed.

Lemma log2_scaled n a :
  0 <= a -> Z.log2 (Zpos n * 2 ^ a) + 1 = Zpos (digits2_pos n) + a.
Proof.
  intros Ha. rewrite Z.log2_mul_pow2 by lia. rewrite digits2_log2. lia.
Qed.

Lemma pow2_lt_inv a b : 0 <= b -> 2 ^ a < 2 ^ b -> a < b.
Proof. intros Hb H. apply (Z.pow_lt_mono_r_iff 2); lia. Qed.

Lemma digits2_le n k : 0 <= k -> Zpos n < 2 ^ k -> Zpos (digits2_pos n) <= k.
Proof.
  intros Hk Hn. pose proof (digits2_bounds n) as [Hl _].
  assert (2 ^ (Zpos (digits2_pos n) - 1) < 2 ^ k) by lia.
  apply pow2_lt_inv in H; lia.
Qed.

(** [binary_round_aux] on an exact positive number below [2^100] returns
    the float whose value is the rounding of that number. *)
Lemma round_aux_scaled K n e :
  149 <= K -> - K <= e -> Zpos n * 2 ^ (e + K) < 2 ^ (100 + K) ->
  nonneg_finite (binary_round_aux prec emax false (Zpos n) e loc_Exact)
  /\ scaled K (binary_round_aux prec emax false (Zpos n) e loc_Exact)
     = round K (Zpos n * 2 ^ (e + K)).
Proof.
  intros HK He HX.
  pose proof (pow2_pos (e + K) ltac:(lia)) as HP.
  pose proof (digits2_bounds n) as [Hdl Hdu].
  assert (Hd0 : 0 < Zpos (digits2_pos n)) by lia.
  (* magnitude and target exponent *)
  assert (Hmu : Zpos (digits2_pos n) + e <= 100).
  { assert (2 ^ (Zpos (digits2_pos n) - 1 + (e + K)) < 2 ^ (100 + K)).
    { rewrite pow2_split by lia. nia. }
    apply pow2_lt_inv in H; lia. }
  unfold round, grid. rewrite <- Z.add_sub_assoc.
  replace (Z.log2 (Zpos n * 2 ^ (e + K)) + (1 - K))
    with (Zpos (digits2_pos n) + e)
    by (pose proof (log2_scaled n (e + K) ltac:(lia)); lia).
  unfold binary_round_aux, shr_fexp. simpl Zdigits2.
  rewrite fexp_eq.
  set (e' := Z.max (Zpos (digits2_pos n) + e - 24) (-149)).
  assert (He' : -149 <= e' <= 76) by lia.
  pose proof (pow2_pos (e' + K) ltac:(lia)) as HG.
  destruct (Z.le_gt_cases (e' - e) 0) as [Hs|Hs].
  - (* the number is representable as it stands *)
    rewrite shr_noop by assumption. simpl shr_m. simpl loc_of_shr_record.
    simpl round_nearest_even. simpl Zdigits2. rewrite fexp_eq. fold e'.
    rewrite shr_noop by assumption. simpl shr_m.
    assert (He100 : e <= 104) by lia.
    destruct (Z.leb_spec e (emax - prec)) as [_|Hc];
      [|change (emax - prec) with 104 in Hc; lia].
    split; [simpl; lia|].
    simpl scaled.
    replace (e + K) with ((e - e') + (e' + K)) by lia.
    rewrite (pow2_split (e - e') (e' + K)) by lia.
    rewrite Z.mul_assoc. rewrite rne_multiple by assumption. lia.
  - (* the mantissa is shifted right by [e' - e] and rounded *)
    pose proof (shr_exact (Zpos n) e (e' - e) ltac:(lia) Hs) as Hshr.
    destruct (shr (shr_record_of_loc (Zpos n) loc_Exact) e (e' - e)) as [rec e1].
    destruct Hshr as [He1 Hm]. replace (e + (e' - e)) with e' in He1 by lia.
    subst e1. rewrite Hm.
    pose proof (pow2_pos (e' - e) ltac:(lia)) as HS.
    assert (Hrne : rne (Zpos n * 2 ^ (e + K)) (2 ^ (e' + K)) = rne (Zpos n) (2 ^ (e' - e))).
    { replace (e' + K) with ((e' - e) + (e + K)) by lia.
      rewrite (pow2_split (e' - e) (e + K)) by lia.
      apply rne_scale; assumption. }
    rewrite Hrne.
    pose proof (rne_bounds (Zpos n) (2 ^ (e' - e)) HS) as [Hlo Hhi].
    assert (Hq : 0 <= Zpos n / 2 ^ (e' - e) < 2 ^ 24).
    { split; [apply Z.div_pos; lia|].
      apply Z.div_lt_upper_bound; [lia|].
      eapply Z.lt_le_trans; [exact Hdu|].
      rewrite <- pow2_split by lia. apply pow2_le. lia. }
    set (m' := rne (Zpos n) (2 ^ (e' - e))) in *.
    change (2 ^ 24) with 16777216 in Hq.
    destruct m' as [|p|p] eqn:Em; [| |lia].
    + (* underflow to zero *)
      change (Zdigits2 0) with 0. rewrite shr_noop by (rewrite fexp_eq; lia).
      cbn [shr_m shr_record_of_loc]. split; [exact I|]. cbn [scaled]. lia.
    + change (Zdigits2 (Zpos p)) with (Zpos (digits2_pos p)). rewrite fexp_eq.
      destruct (Z.eq_dec (Zpos p) 16777216) as [E|N].
      * (* the rounding carried into the next binade *)
        injection E as ->.
        change (Zpos (digits2_pos 16777216)) with 25.
        replace (Z.max (25 + e' - 24) (-149) - e') with 1 by lia.
        cbn [shr_record_of_loc].
        replace (shr {| shr_m := 16777216; shr_r := false; shr_s := false |} e' 1)
          with ({| shr_m := 8388608; shr_r := false; shr_s := false |}, e' + 1)
          by reflexivity.
        cbn [shr_m].
        destruct (Z.leb_spec (e' + 1) (emax - prec)) as [_|Hc];
          [|change (emax - prec) with 104 in Hc; lia].
        split; [cbn [nonneg_finite]; lia|].
        cbn [scaled cond_Zopp].
        replace (e' + 1 + K) with (1 + (e' + K)) by lia.
        rewrite (pow2_split 1 (e' + K)) by lia. change (2 ^ 1) with 2. lia.
      * (* the rounded mantissa fits *)
        assert (Hp : Zpos p < 2 ^ 24) by (change (2 ^ 24) with 16777216; lia).
        pose proof (digits2_le p 24 ltac:(lia) Hp) as Hdp.
        rewrite shr_noop by lia. cbn [shr_m shr_record_of_loc].
        destruct (Z.leb_spec e' (emax - prec)) as [_|Hc];
          [|change (emax - prec) with 104 in Hc; lia].
        split; [cbn [nonneg_finite]; lia|].
        cbn [scaled cond_Zopp]. lia.
Qed.

(** *** Monotonicity and idempotence of the rounding *)

Lemma rne_mono X Y g : 0 < g -> X <= Y -> rne X g <= rne Y g.
Proof.
  intros Hg HXY.
  pose proof (Z.div_le_mono X Y g Hg HXY) as Hq.
  pose proof (rne_bounds X g Hg) as [_ HX].
  pose proof (rne_bounds Y g Hg) as [HY _].
  destruct (Z.eq_dec (X / g) (Y / g)) as [E|N]; [|lia].
  pose proof (Z.div_mod X g ltac:(lia)) as DX.
  pose proof (Z.div_mod Y g ltac:(lia)) as DY.
  assert (Hr : X mod g <= Y mod g) by (rewrite E in DX; nia).
  unfold rne. cbv zeta. rewrite E.
  destruct (Z.ltb_spec (2 * (X mod g)) g), (Z.ltb_spec (2 * (Y mod g)) g);
    try lia.
  - destruct (Z.eqb_spec (2 * (Y mod g)) g); [|lia].
    destruct (Z.even (Y / g)); lia.
  - destruct (Z.eqb_spec (2 * (X mod g)) g), (Z.eqb_spec (2 * (Y mod g)) g);
      try lia.
    destruct (Z.even (Y / g)); lia.
Qed.

Lemma grid_eq K X :
  grid K X = 2 ^ (Z.max (Z.log2 X + 1 - K - 24) (-149) + K).
Proof. reflexivity. Qed.

Lemma grid_pos K X : 149 <= K -> 0 < grid K X.
Proof. intros. rewrite grid_eq. apply pow2_pos. lia. Qed.

(** A multiple of its own grid spacing is its own rounding. *)
Lemma round_multiple K X k :
  149 <= K -> X = k * grid K X -> round K X = X.
Proof.
  intros HK E. unfold round. pose proof (grid_pos K X HK) as Hg.
  rewrite E at 2. rewrite rne_multiple by assumption. lia.
Qed.

Lemma round_0 K : 149 <= K -> round K 0 = 0.
Proof. intros HK. apply (round_multiple K 0 0); [assumption|lia]. Qed.

Lemma round_pow2 K j :
  149 <= K -> -149 <= j -> round K (2 ^ (j + K)) = 2 ^ (j + K).
Proof.
  intros HK Hj.
  apply (round_multiple K _ (2 ^ (j - Z.max (j - 23) (-149)))); [assumption|].
  rewrite grid_eq. rewrite Z.log2_pow2 by lia.
  replace (j + K + 1 - K - 24) with (j - 23) by lia.
  rewrite <- pow2_split by lia. f_equal. lia.
Qed.

Lemma round_mono K X Y :
  149 <= K -> 0 <= X <= Y -> round K X <= round K Y.
Proof.
  intros HK [HX HXY].
  pose proof (Z.log2_le_mono X Y HXY) as Hl.
  pose proof (grid_pos K X HK) as HgX. pose proof (grid_pos K Y HK) as HgY.
  unfold round. rewrite !grid_eq in *.
  set (eX := Z.max (Z.log2 X + 1 - K - 24) (-149)) in *.
  set (eY := Z.max (Z.log2 Y + 1 - K - 24) (-149)) in *.
  destruct (Z.eq_dec eX eY) as [E|N].
  - rewrite E in *. apply Z.mul_le_mono_nonneg_l; [lia|].
    apply rne_mono; assumption.
  - assert (HeXY : eX < eY) by lia.
    assert (HY0 : 0 < Y).
    { destruct (Z.eq_dec Y 0) as [->|]; [|lia].
      assert (X = 0) by lia. subst X. lia. }
    assert (HeY : eY = Z.log2 Y + 1 - K - 24) by lia.
    assert (HlXY : Z.log2 X < Z.log2 Y) by lia.
    pose proof (Z.log2_spec Y HY0) as [HYl _].
    (* a lower bound of the rounding of [Y] *)
    assert (HL : 2 ^ Z.log2 Y <= 2 ^ (eY + K) * rne Y (2 ^ (eY + K))).
    { assert (E23 : 2 ^ Z.log2 Y = 2 ^ 23 * 2 ^ (eY + K)).
      { rewrite <- pow2_split by lia. f_equal. lia. }
      pose proof (rne_mono _ _ _ HgY HYl) as Hm.
      rewrite E23 in Hm at 1. rewrite rne_multiple in Hm by assumption.
      rewrite E23. nia. }
    (* an upper bound of the rounding of [X] *)
    set (t := Z.max (Z.log2 X + 1) (eX + K)).
    assert (Ht : X <= 2 ^ t).
    { destruct (Z.eq_dec X 0) as [->|].
      - pose proof (pow2_pos t ltac:(lia)). lia.
      - pose proof (Z.log2_spec X ltac:(lia)) as [_ HXu].
        unfold Z.succ in HXu.
        pose proof (pow2_le (Z.log2 X + 1) t).
        pose proof (Z.log2_nonneg X). lia. }
    assert (HT : 2 ^ (eX + K) * rne X (2 ^ (eX + K)) <= 2 ^ t).
    { assert (Et : 2 ^ t = 2 ^ (t - (eX + K)) * 2 ^ (eX + K)).
      { rewrite <- pow2_split by lia. f_equal. lia. }
      pose proof (rne_mono _ _ _ HgX Ht) as Hm.
      rewrite Et in Hm at 1. rewrite rne_multiple in Hm by assumption.
      rewrite Et. nia. }
    pose proof (pow2_le t (Z.log2 Y)).
    pose proof (Z.log2_nonneg X). lia.
Qed.

Lemma round_le_pow2 K X j :
  149 <= K -> -149 <= j -> 0 <= X <= 2 ^ (j + K) -> round K X <= 2 ^ (j + K).
Proof.
  intros HK Hj HX. rewrite <- (round_pow2 K j) by assumption.
  apply round_mono; assumption.
Qed.

Lemma round_nonneg K X : 149 <= K -> 0 <= X -> 0 <= round K X.
Proof.
  intros HK HX. rewrite <- (round_0 K) by assumption.
  apply round_mono; [assumption|lia].
Qed.

Lemma rne_nonneg X g : 0 < g -> 0 <= X -> 0 <= rne X g.
Proof.
  intros Hg HX. pose proof (rne_bounds X g Hg) as [H _].
  pose proof (Z.div_pos X g HX Hg). lia.
Qed.

Lemma round_idem K X :
  149 <= K -> 0 <= X -> round K (round K X) = round K X.
Proof.
  intros HK HX.
  pose proof (grid_pos K X HK) as Hg.
  pose proof (rne_nonneg X (grid K X) Hg HX) as Hk0.
  pose proof (rne_bounds X (grid K X) Hg) as [_ Hku].
  unfold round at 2 3.
  set (k := rne X (grid K X)) in *.
  rewrite grid_eq in *.
  set (eX := Z.max (Z.log2 X + 1 - K - 24) (-149)) in *.
  destruct (Z.eq_dec k 0) as [->|Hk].
  { rewrite Z.mul_0_r. apply round_0. assumption. }
  assert (Hk24 : k <= 2 ^ 24).
  { assert (X / 2 ^ (eX + K) < 2 ^ 24); [|lia].
    apply Z.div_lt_upper_bound; [assumption|].
    rewrite <- pow2_split by lia.
    destruct (Z.eq_dec X 0) as [->|]; [apply pow2_pos; lia|].
    pose proof (Z.log2_spec X ltac:(lia)) as [_ Hu]. unfold Z.succ in Hu.
    pose proof (Z.log2_nonneg X).
    pose proof (pow2_le (Z.log2 X + 1) (eX + K + 24)). lia. }
  destruct (Z.eq_dec k (2 ^ 24)) as [->|Hk'].
  - rewrite <- pow2_split by lia.
    replace (eX + K + 24) with ((eX + 24) + K) by lia.
    apply round_pow2; lia.
  - assert (Hlk : Z.log2 k <= 23).
    { assert (Z.log2 k < 24); [|lia]. apply Z.log2_lt_pow2; lia. }
    pose proof (Z.log2_nonneg k) as Hlk0.
    rewrite (Z.mul_comm (2 ^ (eX + K)) k).
    apply (round_multiple K _ (k * 2 ^ (eX - Z.max (eX + Z.log2 k - 23) (-149))));
      [assumption|].
    rewrite grid_eq. rewrite Z.log2_mul_pow2 by lia.
    replace (eX + K + Z.log2 k + 1 - K - 24) with (eX + Z.log2 k - 23) by lia.
    rewrite <- Z.mul_assoc. rewrite <- pow2_split by lia. do 2 f_equal. lia.
Qed.

(** *** Well-formed data and results of the rounding are representable *)

Lemma valid_rep K s m e :
  149 <= K -> valid (S754_finite s m e) -> s = false ->
  rep K (S754_finite s m e).
Proof.
  intros HK V ->. unfold valid in V. cbn [valid_binary] in V.
  pose proof (bounded_inv m e V) as [He _].
  unfold bounded, canonical_mantissa in V. apply andb_prop in V as [Hc _].
  apply Z.eqb_eq in Hc.
  split; [cbn [nonneg_finite]; lia|].
  cbn [scaled cond_Zopp].
  apply (round_multiple K _ (Zpos m)); [assumption|].
  unfold grid. rewrite <- Z.add_sub_assoc.
  replace (Z.log2 (Zpos m * 2 ^ (e + K)) + (1 - K))
    with (Zpos (digits2_pos m) + e)
    by (pose proof (log2_scaled m (e + K) ltac:(lia)); lia).
  rewrite Hc. reflexivity.
Qed.

Lemma zero_rep K s : 149 <= K -> rep K (S754_zero s).
Proof. intros HK. split; [exact I|]. cbn [scaled]. apply round_0. assumption. Qed.

Lemma round_aux_rep K n e :
  149 <= K -> - K <= e -> Zpos n * 2 ^ (e + K) < 2 ^ (100 + K) ->
  rep K (binary_round_aux prec emax false (Zpos n) e loc_Exact)
  /\ scaled K (binary_round_aux prec emax false (Zpos n) e loc_Exact)
     = round K (Zpos n * 2 ^ (e + K)).
Proof.
  intros HK He HX.
  destruct (round_aux_scaled K n e HK He HX) as [Hn Hs].
  split; [|exact Hs]. split; [exact Hn|].
  rewrite Hs. apply round_idem; [assumption|].
  pose proof (pow2_pos (e + K) ltac:(lia)). lia.
Qed.

(** *** Multiplication and addition of non-negative floats *)

Lemma fmul_scaled K x y :
  298 <= K -> nonneg_finite x -> nonneg_finite y ->
  scaled K x * scaled K y / 2 ^ K < 2 ^ (100 + K) ->
  rep K (fmul x y)
  /\ scaled K (fmul x y) = round K (scaled K x * scaled K y / 2 ^ K).
Proof.
  intros HK Nx Ny Hb.
  pose proof (pow2_pos K ltac:(lia)) as HPK.
  destruct x as [sx| | |sx mx ex], y as [sy| | |sy my ey]; try contradiction;
    unfold fmul, SFmul.
  - split; [apply zero_rep; lia|]. cbn [scaled].
    rewrite Z.mul_0_l, Z.div_0_l, round_0 by lia. reflexivity.
  - split; [apply zero_rep; lia|]. cbn [scaled].
    rewrite Z.mul_0_l, Z.div_0_l, round_0 by lia. reflexivity.
  - split; [apply zero_rep; lia|]. cbn [scaled].
    rewrite Z.mul_0_r, Z.div_0_l, round_0 by lia. reflexivity.
  - destruct Nx as [-> Hex], Ny as [-> Hey]. cbn [xorb].
    cbn [scaled cond_Zopp] in *.
    assert (E : Zpos mx * 2 ^ (ex + K) * (Zpos my * 2 ^ (ey + K)) / 2 ^ K
                = Zpos (mx * my) * 2 ^ (ex + ey + K)).
    { rewrite Pos2Z.inj_mul.
      assert (E2 : 2 ^ (ex + K) * 2 ^ (ey + K) = 2 ^ (ex + ey + K) * 2 ^ K).
      { rewrite <- !pow2_split by lia. f_equal. lia. }
      replace (Zpos mx * 2 ^ (ex + K) * (Zpos my * 2 ^ (ey + K)))
        with (Zpos mx * Zpos my * (2 ^ (ex + K) * 2 ^ (ey + K))) by ring.
      rewrite E2, Z.mul_assoc. apply Z.div_mul. lia. }
    rewrite E in *.
    apply round_aux_rep; [lia|lia|exact Hb].
Qed.

Lemma iter_xO m d : Zpos (Pos.iter xO m d) = Zpos m * 2 ^ Zpos d.
Proof.
  rewrite <- Z.shiftl_mul_pow2 by lia. unfold Z.shiftl.
  apply (Pos.iter_swap_gen _ _ Zpos xO (Z.mul 2)). reflexivity.
Qed.

Lemma shl_align_spec m e t :
  snd (shl_align m e t) = Z.min e t
  /\ Zpos (fst (shl_align m e t)) = Zpos m * 2 ^ (e - Z.min e t).
Proof.
  unfold shl_align. destruct (t - e) as [|p|p] eqn:E; cbn [fst snd].
  - replace (Z.min e t) with e by lia. rewrite Z.sub_diag. lia.
  - replace (Z.min e t) with e by lia. rewrite Z.sub_diag. lia.
  - replace (Z.min e t) with t by lia. rewrite iter_xO.
    replace (e - t) with (Zpos p) by lia. split; reflexivity.
Qed.

Lemma fadd_scaled K x y :
  149 <= K -> rep K x -> rep K y ->
  scaled K x + scaled K y < 2 ^ (100 + K) ->
  rep K (fadd x y)
  /\ scaled K (fadd x y) = round K (scaled K x + scaled K y).
Proof.
  intros HK Rx Ry Hb.
  pose proof (proj1 Rx) as Nx. pose proof (proj1 Ry) as Ny.
  destruct x as [sx| | |sx mx ex], y as [sy| | |sy my ey]; try contradiction;
    clear Nx Ny; unfold fadd, SFadd.
  - assert (R : rep K (if Bool.eqb sx sy then S754_zero sx else S754_zero false))
      by (destruct (Bool.eqb sx sy); apply zero_rep; assumption).
    replace (match sx with
             | true => if sy then S754_zero sx else S754_zero false
             | false => if sy then S754_zero false else S754_zero sx
             end)
      with (if Bool.eqb sx sy then S754_zero sx else S754_zero false)
      by (destruct sx, sy; reflexivity).
    split; [exact R|].
    cbn [scaled]. rewrite round_0 by assumption.
    destruct (Bool.eqb sx sy); reflexivity.
  - split; [exact Ry|]. cbn [scaled] in *. rewrite Z.add_0_l.
    symmetry. apply Ry.
  - split; [exact Rx|]. cbn [scaled] in *. rewrite Z.add_0_r.
    symmetry. apply Rx.
  - destruct Rx as [[-> Hex] _], Ry as [[-> Hey] _].
    cbn [scaled cond_Zopp] in *.
    set (ez := Z.min ex ey).
    destruct (shl_align_spec mx ex ez) as [_ Emx].
    destruct (shl_align_spec my ey ez) as [_ Emy].
    replace (Z.min ex ez) with ez in Emx by lia.
    replace (Z.min ey ez) with ez in Emy by lia.
    set (mx' := fst (shl_align mx ex ez)) in *.
    set (my' := fst (shl_align my ey ez)) in *.
    change (Zpos mx' + Zpos my') with (Zpos (mx' + my')).
    cbn [binary_normalize]. unfold binary_round.
    set (n := (mx' + my')%positive).
    set (t := fexp prec emax (Zpos (digits2_pos n) + ez)).
    assert (Ht : -149 <= t) by (unfold t; rewrite fexp_eq; lia).
    destruct (shl_align_spec n ez t) as [Ee En].
    destruct (shl_align n ez t) as [mz ez']. cbn [fst snd] in Ee, En.
    assert (Hez' : -149 <= ez') by lia.
    assert (E : scaled K (S754_finite false mx ex) + scaled K (S754_finite false my ey)
                = Zpos mz * 2 ^ (ez' + K)).
    { cbn [scaled cond_Zopp]. rewrite En. unfold n. rewrite Pos2Z.inj_add, Emx, Emy.
      rewrite <- Ee.
      replace (ex + K) with ((ex - ez) + (ez - ez') + (ez' + K)) by lia.
      replace (ey + K) with ((ey - ez) + (ez - ez') + (ez' + K)) by lia.
      rewrite (pow2_split (ex - ez + (ez - ez')) (ez' + K)) by lia.
      rewrite (pow2_split (ey - ez + (ez - ez')) (ez' + K)) by lia.
      rewrite (pow2_split (ex - ez) (ez - ez')) by lia.
      rewrite (pow2_split (ey - ez) (ez - ez')) by lia.
      ring. }
    cbn [scaled cond_Zopp] in E. rewrite E in *.
    apply round_aux_rep; [lia|lia|exact Hb].
Qed.

End RoundFacts.

Module SignedFacts.
Import CInt CIntFacts F32 F32Sem F32Facts TruncFacts RoundFacts F32Signed.

(** *** The signed rounding *)

Lemma sround_nonneg K X : 0 <= X -> sround K X = round K X.
Proof. intros H. unfold sround. destruct (Z.ltb_spec X 0); [lia|reflexivity]. Qed.

Lemma sround_opp K X : 149 <= K -> sround K (- X) = - sround K X.
Proof.
  intros HK. unfold sround.
  destruct (Z.ltb_spec (- X) 0), (Z.ltb_spec X 0); try lia.
  - rewrite Z.opp_involutive. reflexivity.
  - assert (X = 0) by lia. subst X. change (- 0) with 0.
    pose proof (round_0 K HK) as E. rewrite E. reflexivity.
Qed.

Lemma sround_mono K X Y : 149 <= K -> X <= Y -> sround K X <= sround K Y.
Proof.
  intros HK H. unfold sround.
  destruct (Z.ltb_spec X 0), (Z.ltb_spec Y 0); try lia.
  - pose proof (round_mono K (- Y) (- X) HK ltac:(lia)). lia.
  - pose proof (round_nonneg K (- X) HK ltac:(lia)).
    pose proof (round_nonneg K Y HK ltac:(lia)). lia.
  - apply round_mono; [assumption|lia].
Qed.

Lemma sround_0 K : 149 <= K -> sround K 0 = 0.
Proof. intros. rewrite sround_nonneg by lia. apply round_0. assumption. Qed.

Lemma sround_idem K X : 149 <= K -> sround K (sround K X) = sround K X.
Proof.
  intros HK. destruct (Z.le_gt_cases 0 X) as [H|H].
  - rewrite (sround_nonneg K X H).
    rewrite sround_nonneg by (apply round_nonneg; assumption).
    apply round_idem; assumption.
  - assert (E : sround K X = - round K (- X)).
    { unfold sround. destruct (Z.ltb_spec X 0); [reflexivity|lia]. }
    rewrite E. rewrite sround_opp by assumption. f_equal.
    rewrite sround_nonneg by (apply round_nonneg; [assumption|lia]).
    apply round_idem; [assumption|lia].
Qed.

Lemma sround_pow2 K j :
  149 <= K -> -149 <= j -> sround K (2 ^ (j + K)) = 2 ^ (j + K).
Proof.
  intros HK Hj. rewrite sround_nonneg by (pose proof (pow2_pos (j + K)); lia).
  apply round_pow2; assumption.
Qed.

Lemma sround_abs_le K X j :
  149 <= K -> -149 <= j -> Z.abs X <= 2 ^ (j + K) ->
  Z.abs (sround K X) <= 2 ^ (j + K).
Proof.
  intros HK Hj HX.
  pose proof (sround_mono K X (2 ^ (j + K)) HK ltac:(lia)) as Hu.
  pose proof (sround_mono K (- 2 ^ (j + K)) X HK ltac:(lia)) as Hl.
  rewrite sround_opp in Hl by assumption.
  rewrite sround_pow2 in Hu, Hl by assumption. lia.
Qed.

Lemma sround_multiple K z :
  149 <= K -> Z.abs z <= 2 ^ 24 -> sround K (z * 2 ^ K) = z * 2 ^ K.
Proof.
  intros HK Hz. pose proof (pow2_pos K ltac:(lia)) as HP.
  assert (Hpos : forall n, 0 < n <= 2 ^ 24 -> round K (n * 2 ^ K) = n * 2 ^ K).
  { intros n Hn.
    destruct (Z.eq_dec n (2 ^ 24)) as [->|Hne].
    { rewrite <- pow2_split by lia. apply round_pow2; lia. }
    assert (Hl : Z.log2 n < 24) by (apply Z.log2_lt_pow2; lia).
    pose proof (Z.log2_nonneg n) as Hl0.
    apply (round_multiple K _ (n * 2 ^ (- Z.max (Z.log2 n + 1 - 24) (-149))));
      [assumption|].
    rewrite grid_eq. rewrite Z.log2_mul_pow2 by lia.
    replace (K + Z.log2 n + 1 - K - 24) with (Z.log2 n + 1 - 24) by lia.
    rewrite <- Z.mul_assoc. rewrite <- pow2_split by lia. do 2 f_equal. lia. }
  destruct (Z.lt_trichotomy z 0) as [H|[->|H]].
  - replace (z * 2 ^ K) with (- (- z * 2 ^ K)) by lia.
    rewrite sround_opp by assumption.
    rewrite sround_nonneg by nia. rewrite Hpos by lia. reflexivity.
  - simpl. apply sround_0. assumption.
  - rewrite sround_nonneg by nia. apply Hpos. lia.
Qed.

(** *** Signs and well-formedness of rounded results *)

Lemma round_aux_sign sx n e l :
  binary_round_aux prec emax sx n e l
  = with_sign sx (binary_round_aux prec emax false n e l).
Proof.
  unfold binary_round_aux.
  destruct (shr_fexp prec emax n e l) as [r1 e1].
  destruct (shr_fexp prec emax _ e1 loc_Exact) as [r2 e2].
  destruct (shr_m r2); [reflexivity| |reflexivity].
  destruct (e2 <=? emax - prec); reflexivity.
Qed.

Lemma scaled_with_sign k s F :
  nonneg_finite F ->
  scaled k (with_sign s F) = cond_Zopp s (scaled k F).
Proof.
  destruct F as [s'| | |s' m e]; try contradiction; cbn.
  - intros _. destruct s; reflexivity.
  - intros [-> He]. reflexivity.
Qed.

Lemma valid_with_sign s F : valid F -> valid (with_sign s F).
Proof. destruct F; exact (fun H => H). Qed.

Lemma digits2_ge n k : 0 <= k -> 2 ^ k <= Zpos n -> k + 1 <= Zpos (digits2_pos n).
Proof.
  intros Hk Hn. pose proof (digits2_bounds n) as [_ Hu].
  assert (2 ^ k < 2 ^ Zpos (digits2_pos n)) by lia.
  apply pow2_lt_inv in H; lia.
Qed.

(** When no left shift is pending, [binary_round_aux] returns a
    well-formed float. *)
Lemma round_aux_valid n e :
  Zpos (digits2_pos n) + e <= 100 ->
  e <= fexp prec emax (Zpos (digits2_pos n) + e) ->
  valid (binary_round_aux prec emax false (Zpos n) e loc_Exact).
Proof.
  intros Hmu Hs0.
  pose proof (digits2_bounds n) as [Hdl Hdu].
  assert (Hd0 : 0 < Zpos (digits2_pos n)) by lia.
  unfold valid, binary_round_aux, shr_fexp. simpl Zdigits2.
  rewrite fexp_eq in *.
  set (e' := Z.max (Zpos (digits2_pos n) + e - 24) (-149)) in *.
  assert (He' : -149 <= e' <= 76) by lia.
  destruct (Z.le_gt_cases (e' - e) 0) as [Hs|Hs].
  - assert (Ee : e' = e) by lia.
    rewrite shr_noop by assumption. simpl shr_m. simpl loc_of_shr_record.
    simpl round_nearest_even. simpl Zdigits2. rewrite fexp_eq. fold e'.
    rewrite shr_noop by assumption. simpl shr_m.
    destruct (Z.leb_spec e (emax - prec)) as [Hc|Hc];
      [|change (emax - prec) with 104 in Hc; lia].
    cbn [valid_binary]. unfold bounded, canonical_mantissa.
    rewrite fexp_eq. fold e'. rewrite Ee, Z.eqb_refl.
    apply Z.leb_le in Hc. rewrite Hc. reflexivity.
  - pose proof (shr_exact (Zpos n) e (e' - e) ltac:(lia) Hs) as Hshr.
    destruct (shr (shr_record_of_loc (Zpos n) loc_Exact) e (e' - e)) as [rec e1].
    destruct Hshr as [He1 Hm]. replace (e + (e' - e)) with e' in He1 by lia.
    subst e1. rewrite Hm.
    pose proof (pow2_pos (e' - e) ltac:(lia)) as HS.
    pose proof (rne_bounds (Zpos n) (2 ^ (e' - e)) HS) as [Hlo Hhi].
    assert (Hq : 0 <= Zpos n / 2 ^ (e' - e) < 2 ^ 24).
    { split; [apply Z.div_pos; lia|].
      apply Z.div_lt_upper_bound; [lia|].
      eapply Z.lt_le_trans; [exact Hdu|].
      rewrite <- pow2_split by lia. apply pow2_le. lia. }
    assert (Hq23 : -149 < e' -> 2 ^ 23 <= Zpos n / 2 ^ (e' - e)).
    { intros Hn. apply Z.div_le_lower_bound; [lia|].
      rewrite <- pow2_split by lia.
      eapply Z.le_trans; [|exact Hdl]. apply pow2_le. lia. }
    set (m' := rne (Zpos n) (2 ^ (e' - e))) in *.
    change (2 ^ 24) with 16777216 in Hq.
    destruct m' as [|p|p] eqn:Em; [| |lia].
    + change (Zdigits2 0) with 0. rewrite shr_noop by (rewrite fexp_eq; lia).
      reflexivity.
    + change (Zdigits2 (Zpos p)) with (Zpos (digits2_pos p)). rewrite fexp_eq.
      destruct (Z.eq_dec (Zpos p) 16777216) as [E|N].
      * injection E as ->.
        change (Zpos (digits2_pos 16777216)) with 25.
        replace (Z.max (25 + e' - 24) (-149) - e') with 1 by lia.
        cbn [shr_record_of_loc].
        replace (shr {| shr_m := 16777216; shr_r := false; shr_s := false |} e' 1)
          with ({| shr_m := 8388608; shr_r := false; shr_s := false |}, e' + 1)
          by reflexivity.
        cbn [shr_m].
        destruct (Z.leb_spec (e' + 1) (emax - prec)) as [Hc|Hc];
          [|change (emax - prec) with 104 in Hc; lia].
        cbn [valid_binary]. unfold bounded, canonical_mantissa.
        change (Zpos (digits2_pos 8388608)) with 24. rewrite fexp_eq.
        replace (Z.max (24 + (e' + 1) - 24) (-149)) with (e' + 1) by lia.
        rewrite Z.eqb_refl. apply Z.leb_le in Hc. rewrite Hc. reflexivity.
      * assert (Hp : Zpos p < 2 ^ 24) by (change (2 ^ 24) with 16777216; lia).
        pose proof (digits2_le p 24 ltac:(lia) Hp) as Hdp.
        rewrite shr_noop by lia. cbn [shr_m shr_record_of_loc].
        destruct (Z.leb_spec e' (emax - prec)) as [Hc|Hc];
          [|change (emax - prec) with 104 in Hc; lia].
        cbn [valid_binary]. unfold bounded, canonical_mantissa. rewrite fexp_eq.
        assert (Ec : Z.max (Zpos (digits2_pos p) + e' - 24) (-149) = e').
        { destruct (Z.eq_dec e' (-149)) as [->|Hn]; [lia|].
          specialize (Hq23 ltac:(lia)).
          pose proof (digits2_ge p 23 ltac:(lia) ltac:(lia)). lia. }
        rewrite Ec, Z.eqb_refl. apply Z.leb_le in Hc. rewrite Hc. reflexivity.
Qed.

Lemma finite_with_sign s F : nonneg_finite F -> finite (with_sign s F).
Proof. destruct F; try contradiction; intros _; exact I. Qed.

Lemma binary_round_spec K sx n e :
  149 <= K -> - K <= e -> Zpos n * 2 ^ (e + K) < 2 ^ (100 + K) ->
  vfin (binary_round prec emax sx n e)
  /\ scaled K (binary_round prec emax sx n e)
     = cond_Zopp sx (round K (Zpos n * 2 ^ (e + K))).
Proof.
  intros HK He HX.
  pose proof (pow2_pos (e + K) ltac:(lia)) as HP.
  pose proof (digits2_bounds n) as [Hdl Hdu].
  assert (Hmu : Zpos (digits2_pos n) + e <= 100).
  { assert (2 ^ (Zpos (digits2_pos n) - 1 + (e + K)) < 2 ^ (100 + K)).
    { rewrite pow2_split by lia. nia. }
    apply pow2_lt_inv in H; lia. }
  unfold binary_round.
  set (t := fexp prec emax (Zpos (digits2_pos n) + e)).
  assert (Ht : -149 <= t) by (unfold t; rewrite fexp_eq; lia).
  destruct (shl_align_spec n e t) as [Ee En].
  destruct (shl_align n e t) as [mz ez']. cbn [fst snd] in Ee, En.
  assert (Hez' : - K <= ez') by lia.
  rewrite <- Ee in En.
  assert (E : Zpos mz * 2 ^ (ez' + K) = Zpos n * 2 ^ (e + K)).
  { rewrite En.
    replace (e + K) with ((e - ez') + (ez' + K)) by lia.
    rewrite (pow2_split (e - ez') (ez' + K)) by lia. ring. }
  assert (Ed : Zpos (digits2_pos mz) + ez' = Zpos (digits2_pos n) + e).
  { pose proof (log2_scaled mz 0 ltac:(lia)) as L1.
    pose proof (log2_scaled n (e - ez') ltac:(lia)) as L2.
    rewrite Z.pow_0_r, Z.mul_1_r in L1. rewrite <- En in L2. lia. }
  rewrite round_aux_sign.
  destruct (round_aux_scaled K mz ez' HK Hez' ltac:(rewrite E; exact HX)) as [N S].
  pose proof (round_aux_valid mz ez' ltac:(lia)
                ltac:(rewrite Ed; fold t; lia)) as V.
  split; [split; [apply valid_with_sign, V|apply finite_with_sign, N]|].
  rewrite (scaled_with_sign K sx _ N), S, E. reflexivity.
Qed.

Lemma normalize_spec K z e :
  149 <= K -> - K <= e -> Z.abs z * 2 ^ (e + K) < 2 ^ (100 + K) ->
  vfin (binary_normalize prec emax z e false)
  /\ scaled K (binary_normalize prec emax z e false) = sround K (z * 2 ^ (e + K)).
Proof.
  intros HK He HX.
  pose proof (pow2_pos (e + K) ltac:(lia)) as HP.
  destruct z as [|n|n]; cbn [binary_normalize].
  - split; [split; [reflexivity|exact I]|].
    cbn [scaled]. rewrite Z.mul_0_l. symmetry. apply sround_0, HK.
  - change (Z.abs (Zpos n)) with (Zpos n) in HX.
    destruct (binary_round_spec K false n e HK He HX) as [V S].
    split; [exact V|]. rewrite S. cbn [cond_Zopp].
    symmetry. apply sround_nonneg. lia.
  - change (Z.abs (Zneg n)) with (Zpos n) in HX.
    destruct (binary_round_spec K true n e HK He HX) as [V S].
    split; [exact V|]. rewrite S. cbn [cond_Zopp].
    replace (Zneg n * 2 ^ (e + K)) with (- (Zpos n * 2 ^ (e + K))) by lia.
    rewrite sround_opp by exact HK. f_equal.
    symmetry. apply sround_nonneg. lia.
Qed.

(** A well-formed finite float is a fixed point of the rounding. *)
Lemma vfin_sround K x : 149 <= K -> vfin x -> sround K (scaled K x) = scaled K x.
Proof.
  intros HK [V F]. destruct x as [s| | |s m e]; try contradiction.
  - apply sround_0, HK.
  - pose proof (valid_rep K false m e HK V eq_refl) as [_ R].
    cbn [scaled cond_Zopp] in *.
    pose proof (pow2_pos (e + K) ltac:(pose proof (bounded_inv m e V); lia)) as HP.
    destruct s; cbn [cond_Zopp].
    + rewrite sround_opp by exact HK. f_equal.
      rewrite sround_nonneg by lia. exact R.
    + rewrite sround_nonneg by lia. exact R.
Qed.

Lemma vfin_exponent s m e : vfin (S754_finite s m e) -> -149 <= e.
Proof. intros [V _]. pose proof (bounded_inv m e V). lia. Qed.

Lemma vfin_zero s : vfin (S754_zero s).
Proof. split; [reflexivity|exact I]. Qed.

Lemma sround_cond_Zopp K s X :
  149 <= K -> 0 <= X -> sround K (cond_Zopp s X) = cond_Zopp s (round K X).
Proof.
  intros HK HX. destruct s; cbn [cond_Zopp].
  - rewrite sround_opp by exact HK. f_equal. apply sround_nonneg, HX.
  - apply sround_nonneg, HX.
Qed.

Lemma abs_mul_pos z P : 0 < P -> Z.abs z * P = Z.abs (z * P).
Proof. intros HP. rewrite Z.abs_mul, (Z.abs_eq P) by lia. reflexivity. Qed.

(** *** Addition, subtraction and multiplication of well-formed floats *)

Lemma align_sum K sx mx ex sy my ey (f : Z -> Z -> Z) :
  149 <= K -> -149 <= ex -> -149 <= ey ->
  (forall a b c, f a b * c = f (a * c) (b * c)) ->
  let ez := Z.min ex ey in
  f (cond_Zopp sx (Zpos (fst (shl_align mx ex ez))))
    (cond_Zopp sy (Zpos (fst (shl_align my ey ez)))) * 2 ^ (ez + K)
  = f (cond_Zopp sx (Zpos mx * 2 ^ (ex + K))) (cond_Zopp sy (Zpos my * 2 ^ (ey + K))).
Proof.
  intros HK Hex Hey Hf ez.
  destruct (shl_align_spec mx ex ez) as [_ Emx].
  destruct (shl_align_spec my ey ez) as [_ Emy].
  replace (Z.min ex ez) with ez in Emx by lia.
  replace (Z.min ey ez) with ez in Emy by lia.
  rewrite Hf, Emx, Emy.
  replace (ex + K) with ((ex - ez) + (ez + K)) by lia.
  replace (ey + K) with ((ey - ez) + (ez + K)) by lia.
  rewrite (pow2_split (ex - ez) (ez + K)) by lia.
  rewrite (pow2_split (ey - ez) (ez + K)) by lia.
  f_equal; [destruct sx|destruct sy]; cbn [cond_Zopp]; ring.
Qed.

Lemma fadd_v K x y :
  149 <= K -> vfin x -> vfin y ->
  Z.abs (scaled K x + scaled K y) < 2 ^ (100 + K) ->
  vfin (fadd x y)
  /\ scaled K (fadd x y) = sround K (scaled K x + scaled K y).
Proof.
  intros HK Vx Vy Hb.
  pose proof (vfin_sround K x HK Vx) as Rx.
  pose proof (vfin_sround K y HK Vy) as Ry.
  destruct x as [sx| | |sx mx ex], y as [sy| | |sy my ey];
    try (exfalso; exact (proj2 Vx)); try (exfalso; exact (proj2 Vy));
    unfold fadd, SFadd.
  - split; [destruct sx, sy; apply vfin_zero|].
    cbn [scaled]. rewrite sround_0 by exact HK. destruct sx, sy; reflexivity.
  - split; [exact Vy|]. cbn [scaled] in *. rewrite Z.add_0_l, Ry. reflexivity.
  - split; [exact Vx|]. cbn [scaled] in *. rewrite Z.add_0_r, Rx. reflexivity.
  - pose proof (vfin_exponent _ _ _ Vx) as Hex.
    pose proof (vfin_exponent _ _ _ Vy) as Hey.
    pose proof (align_sum K sx mx ex sy my ey Z.add HK Hex Hey
                  ltac:(intros; ring)) as E.
    cbv zeta in E. cbn [scaled] in *. rewrite <- E in *.
    apply normalize_spec; [exact HK|lia|].
    rewrite abs_mul_pos by (apply pow2_pos; lia). exact Hb.
Qed.

Lemma fsub_v K x y :
  149 <= K -> vfin x -> vfin y ->
  Z.abs (scaled K x - scaled K y) < 2 ^ (100 + K) ->
  vfin (fsub x y)
  /\ scaled K (fsub x y) = sround K (scaled K x - scaled K y).
Proof.
  intros HK Vx Vy Hb.
  pose proof (vfin_sround K x HK Vx) as Rx.
  pose proof (vfin_sround K y HK Vy) as Ry.
  destruct x as [sx| | |sx mx ex], y as [sy| | |sy my ey];
    try (exfalso; exact (proj2 Vx)); try (exfalso; exact (proj2 Vy));
    unfold fsub, SFsub.
  - split; [destruct sx, sy; apply vfin_zero|].
    cbn [scaled]. rewrite sround_0 by exact HK. destruct sx, sy; reflexivity.
  - split; [split; [exact (proj1 Vy)|exact I]|].
    cbn [scaled] in *. rewrite Z.sub_0_l, sround_opp, Ry by exact HK.
    destruct sy; cbn [negb cond_Zopp]; lia.
  - split; [exact Vx|]. cbn [scaled] in *. rewrite Z.sub_0_r, Rx. reflexivity.
  - pose proof (vfin_exponent _ _ _ Vx) as Hex.
    pose proof (vfin_exponent _ _ _ Vy) as Hey.
    pose proof (align_sum K sx mx ex sy my ey Z.sub HK Hex Hey
                  ltac:(intros; ring)) as E.
    cbv zeta in E. cbn [scaled] in *. rewrite <- E in *.
    apply normalize_spec; [exact HK|lia|].
    rewrite abs_mul_pos by (apply pow2_pos; lia). exact Hb.
Qed.

Lemma digits2_mul mx my :
  Zpos (digits2_pos mx) + Zpos (digits2_pos my) - 1 <= Zpos (digits2_pos (mx * my)).
Proof.
  pose proof (digits2_bounds mx) as [Hx _].
  pose proof (digits2_bounds my) as [Hy _].
  pose proof (digits2_bounds (mx * my)) as [_ Hu].
  assert (0 < Zpos (digits2_pos mx)) by lia.
  assert (0 < Zpos (digits2_pos my)) by lia.
  enough (Zpos (digits2_pos mx) - 1 + (Zpos (digits2_pos my) - 1) + 1
          <= Zpos (digits2_pos (mx * my))) by lia.
  apply digits2_ge; [lia|].
  rewrite pow2_split by lia. rewrite Pos2Z.inj_mul.
  pose proof (pow2_pos (Zpos (digits2_pos mx) - 1) ltac:(lia)).
  pose proof (pow2_pos (Zpos (digits2_pos my) - 1) ltac:(lia)).
  nia.
Qed.

Lemma fmul_v K x y :
  298 <= K -> vfin x -> vfin y ->
  Z.abs (scaled K x * scaled K y / 2 ^ K) < 2 ^ (100 + K) ->
  vfin (fmul x y)
  /\ scaled K (fmul x y) = sround K (scaled K x * scaled K y / 2 ^ K).
Proof.
  intros HK Vx Vy Hb.
  pose proof (pow2_pos K ltac:(lia)) as HPK.
  destruct x as [sx| | |sx mx ex], y as [sy| | |sy my ey];
    try (exfalso; exact (proj2 Vx)); try (exfalso; exact (proj2 Vy));
    unfold fmul, SFmul.
  - split; [apply vfin_zero|]. cbn [scaled].
    rewrite Z.mul_0_l, Z.div_0_l, sround_0 by lia. reflexivity.
  - split; [apply vfin_zero|]. cbn [scaled].
    rewrite Z.mul_0_l, Z.div_0_l, sround_0 by lia. reflexivity.
  - split; [apply vfin_zero|]. cbn [scaled].
    rewrite Z.mul_0_r, Z.div_0_l, sround_0 by lia. reflexivity.
  - pose proof (vfin_exponent _ _ _ Vx) as Hex.
    pose proof (vfin_exponent _ _ _ Vy) as Hey.
    pose proof (bounded_inv mx ex (proj1 Vx)) as [_ Cx].
    pose proof (bounded_inv my ey (proj1 Vy)) as [_ Cy].
    cbn [scaled] in *.
    assert (E : cond_Zopp sx (Zpos mx * 2 ^ (ex + K))
                * cond_Zopp sy (Zpos my * 2 ^ (ey + K)) / 2 ^ K
                = cond_Zopp (xorb sx sy) (Zpos (mx * my) * 2 ^ (ex + ey + K))).
    { rewrite Pos2Z.inj_mul.
      assert (E2 : 2 ^ (ex + K) * 2 ^ (ey + K) = 2 ^ (ex + ey + K) * 2 ^ K).
      { rewrite <- !pow2_split by lia. f_equal. lia. }
      replace (cond_Zopp sx (Zpos mx * 2 ^ (ex + K))
               * cond_Zopp sy (Zpos my * 2 ^ (ey + K)))
        with (cond_Zopp (xorb sx sy) (Zpos mx * Zpos my * 2 ^ (ex + ey + K)) * 2 ^ K).
      - apply Z.div_mul. lia.
      - transitivity (cond_Zopp (xorb sx sy)
                        (Zpos mx * Zpos my * (2 ^ (ex + K) * 2 ^ (ey + K)))).
        + rewrite E2. destruct sx, sy; cbn [xorb cond_Zopp]; ring.
        + destruct sx, sy; cbn [xorb cond_Zopp]; ring. }
    rewrite E in *.
    pose proof (pow2_pos (ex + ey + K) ltac:(lia)) as HP.
    assert (HX : Zpos (mx * my) * 2 ^ (ex + ey + K) < 2 ^ (100 + K)).
    { destruct (xorb sx sy); cbn [cond_Zopp] in Hb; lia. }
    pose proof (digits2_bounds (mx * my)) as [Hdl Hdu].
    assert (Hmu : Zpos (digits2_pos (mx * my)) + (ex + ey) <= 100).
    { assert (2 ^ (Zpos (digits2_pos (mx * my)) - 1 + (ex + ey + K)) < 2 ^ (100 + K)).
      { rewrite pow2_split by lia. nia. }
      apply pow2_lt_inv in H; lia. }
    pose proof (digits2_mul mx my) as Hdm.
    pose proof (digits2_bounds mx) as [_ Hux]. pose proof (digits2_bounds my) as [_ Huy].
    assert (0 < Zpos (digits2_pos mx)) by lia.
    assert (0 < Zpos (digits2_pos my)) by lia.
    rewrite round_aux_sign.
    destruct (round_aux_scaled K (mx * my) (ex + ey) ltac:(lia) ltac:(lia) HX) as [N S].
    pose proof (round_aux_valid (mx * my) (ex + ey) Hmu
                  ltac:(rewrite fexp_eq; lia)) as V.
    split; [split; [apply valid_with_sign, V|apply finite_with_sign, N]|].
    rewrite (scaled_with_sign K (xorb sx sy) _ N), S.
    symmetry. apply sround_cond_Zopp; lia.
Qed.

(** *** Comparison and conversion *)

Lemma fle_scaled K x y :
  149 <= K -> vfin x -> vfin y -> fle x y = (scaled K x <=? scaled K y).
Proof.
  intros HK [Vx Fx] [Vy Fy]. unfold fle, SFleb, Z.leb.
  rewrite (compare_scaled K x y HK Vx Vy Fx Fy).
  destruct (scaled K x ?= scaled K y); reflexivity.
Qed.

Lemma flt_scaled K x y :
  149 <= K -> vfin x -> vfin y -> flt x y = (scaled K x <? scaled K y).
Proof.
  intros HK [Vx Fx] [Vy Fy]. unfold flt, SFltb, Z.ltb.
  rewrite (compare_scaled K x y HK Vx Vy Fx Fy).
  destruct (scaled K x ?= scaled K y); reflexivity.
Qed.

Lemma trunc_vfin K x :
  149 <= K -> vfin x -> trunc x = Some (Z.quot (scaled K x) (2 ^ K)).
Proof.
  intros HK Vx. destruct x as [s| | |s m e]; try (exfalso; exact (proj2 Vx)).
  - cbn [trunc scaled]. rewrite Z.quot_0_l; [reflexivity|].
    pose proof (pow2_pos K ltac:(lia)). lia.
  - pose proof (vfin_exponent _ _ _ Vx). apply trunc_scaled; lia.
Qed.

Lemma to_int_vfin K x :
  149 <= K -> vfin x -> in_int (Z.quot (scaled K x) (2 ^ K)) ->
  to_int x = Some (Z.quot (scaled K x) (2 ^ K)).
Proof.
  intros HK Vx [Hl Hu]. unfold to_int. rewrite (trunc_vfin K x HK Vx).
  apply Z.leb_le in Hl, Hu. rewrite Hl, Hu. reflexivity.
Qed.

Lemma of_int_v K z :
  149 <= K -> Z.abs z < 2 ^ 100 ->
  vfin (of_int z) /\ scaled K (of_int z) = sround K (z * 2 ^ K).
Proof.
  intros HK Hz. unfold of_int.
  pose proof (normalize_spec K z 0 HK ltac:(lia)) as H.
  rewrite Z.add_0_l in H. apply H.
  rewrite pow2_split by lia. pose proof (pow2_pos K ltac:(lia)). nia.
Qed.

Lemma of_int_exact K z :
  149 <= K -> Z.abs z <= 2 ^ 24 ->
  vfin (of_int z) /\ scaled K (of_int z) = z * 2 ^ K.
Proof.
  intros HK Hz.
  destruct (of_int_v K z HK) as [V S].
  { pose proof (pow2_lt 24 100 ltac:(lia)). lia. }
  split; [exact V|]. rewrite S. apply sround_multiple; assumption.
Qed.

End SignedFacts.

Module RazorFacts.
Import CInt CIntFacts F32 F32Sem F32Facts TruncFacts RoundFacts AB.

Lemma SFcompare_antisym x y :
  SFcompare y x = option_map CompOpp (SFcompare x y).
Proof.
  destruct x as [sx|sx| |sx mx ex], y as [sy|sy| |sy my ey];
    try reflexivity;
    try (destruct sx; reflexivity); try (destruct sy; reflexivity);
    try (destruct sx, sy; reflexivity).
  unfold SFcompare, option_map. f_equal.
  change (Pos.compare_cont Eq mx my) with (Pos.compare mx my).
  change (Pos.compare_cont Eq my mx) with (Pos.compare my mx).
  rewrite (Z.compare_antisym ex ey), (Pos.compare_antisym mx my).
  destruct sx, sy; try reflexivity;
    destruct (ex ?= ey); try reflexivity;
    destruct (mx ?= my)%positive; reflexivity.
Qed.

Lemma fle_not_flt x y : fle x y = true -> flt y x = false.
Proof.
  unfold fle, flt, SFleb, SFltb. rewrite (SFcompare_antisym x y).
  destruct (SFcompare x y) as [[]|]; simpl; congruence.
Qed.

(** A well-formed float between zero and a finite float is finite and
    not negative. *)
Lemma between_rep d c :
  valid d -> fle zero d = true -> flt d c = true -> finite c ->
  rep K d /\ finite d.
Proof.
  intros V H0 Hc Fc.
  destruct d as [s|s| |s m e].
  - split; [apply zero_rep; unfold K; lia|exact I].
  - destruct s; [discriminate|].
    destruct c; try contradiction; discriminate.
  - discriminate.
  - destruct s; [discriminate|].
    split; [apply valid_rep; [unfold K; lia|assumption|reflexivity]|exact I].
Qed.

Lemma scaled_nonneg k x : nonneg_finite x -> 0 <= k -> 0 <= scaled k x.
Proof.
  destruct x as [s| | |s m e]; cbn [nonneg_finite scaled]; try lia.
  intros [-> He] Hk. cbn [cond_Zopp].
  destruct (Z.le_gt_cases 0 (e + k)) as [H|H].
  - pose proof (pow2_pos _ H). lia.
  - rewrite Z.pow_neg_r by lia. lia.
Qed.

Section Bounds.
Local Abbreviation SK := (2 ^ K).

Lemma S_pos : 0 < SK.
Proof. apply pow2_pos. unfold K. lia. Qed.

Lemma prod_bound a b i j :
  0 <= i + K -> 0 <= j ->
  0 <= a <= 2 ^ (i + K) -> 0 <= b <= 2 ^ (j + K) ->
  0 <= a * b / SK <= 2 ^ (i + j + K).
Proof.
  intros Hi Hj Ha Hb. pose proof S_pos as HS.
  split; [apply Z.div_pos; [nia|lia]|].
  apply Z.div_le_upper_bound; [lia|].
  replace (i + j + K) with (j + (i + K)) by lia.
  rewrite (pow2_split j (i + K)) by lia.
  rewrite (pow2_split j K) in Hb by (unfold K; lia).
  pose proof (pow2_pos (i + K) Hi) as HP. pose proof (pow2_pos j Hj) as HQ.
  set (P := 2 ^ (i + K)) in *. set (Q := 2 ^ j) in *.
  assert (a * b <= P * (Q * SK)) by nia. lia.
Qed.

Lemma lt_100 j X : j < 100 -> 0 <= j + K -> X <= 2 ^ (j + K) -> X < 2 ^ (100 + K).
Proof.
  intros Hj Hj' HX. pose proof (pow2_lt (j + K) (100 + K) ltac:(lia)). lia.
Qed.

(** A product of two representable numbers with its bound. *)
Lemma fmul_bounded x y i j :
  -149 <= i -> 0 <= j -> i + j < 100 ->
  rep K x -> rep K y ->
  scaled K x <= 2 ^ (i + K) -> scaled K y <= 2 ^ (j + K) ->
  rep K (fmul x y)
  /\ scaled K (fmul x y) = round K (scaled K x * scaled K y / SK)
  /\ scaled K (fmul x y) <= 2 ^ (i + j + K).
Proof.
  intros Hi Hj Hij [Nx _] [Ny _] Bx By.
  pose proof (scaled_nonneg K x Nx ltac:(unfold K; lia)) as X0.
  pose proof (scaled_nonneg K y Ny ltac:(unfold K; lia)) as Y0.
  pose proof (prod_bound _ _ i j ltac:(unfold K; lia) Hj
                (conj X0 Bx) (conj Y0 By)) as [P0 Pb].
  destruct (fmul_scaled K x y ltac:(unfold K; lia) Nx Ny) as [R E].
  { apply (lt_100 (i + j)); [lia|unfold K; lia|exact Pb]. }
  split; [exact R|]. split; [exact E|].
  rewrite E. apply round_le_pow2; [unfold K; lia|lia|]. split; assumption.
Qed.

Lemma lit_0_125_rep : rep K lit_0_125 /\ scaled K lit_0_125 <= 2 ^ (0 + K).
Proof.
  split; [apply valid_rep; [unfold K; lia|reflexivity|reflexivity]|].
  vm_compute. discriminate.
Qed.

Lemma lit_46_rep : rep K (of_int 46) /\ scaled K (of_int 46) <= 2 ^ (6 + K).
Proof.
  split; [apply valid_rep; [unfold K; lia|reflexivity|reflexivity]|].
  vm_compute. discriminate.
Qed.

(** The float polynomial of [razorMargin] computes [razorPolyZ]. *)
Lemma razorPoly_scaled d :
  rep K d -> scaled K d <= 2 ^ (2 + K) ->
  rep K (razorPoly d)
  /\ scaled K (razorPoly d) = razorPolyZ (scaled K d)
  /\ 0 <= scaled K (razorPoly d) <= 2 ^ (9 + K).
Proof.
  intros Rd Bd. unfold razorPoly, razorPolyZ.
  destruct lit_0_125_rep as [Rc Bc]. destruct lit_46_rep as [R46 B46].
  destruct (fmul_bounded lit_0_125 d 0 2 ltac:(lia) ltac:(lia) ltac:(lia)
              Rc Rd Bc Bd) as (R1 & E1 & B1).
  destruct (fmul_bounded (fmul lit_0_125 d) d (0 + 2) 2
              ltac:(lia) ltac:(lia) ltac:(lia) R1 Rd B1 Bd) as (R2 & E2 & B2).
  destruct (fmul_bounded (of_int 46) d 6 2 ltac:(lia) ltac:(lia) ltac:(lia)
              R46 Rd B46 Bd) as (R3 & E3 & B3).
  pose proof (scaled_nonneg K _ (proj1 R2) ltac:(unfold K; lia)) as P2.
  pose proof (scaled_nonneg K _ (proj1 R3) ltac:(unfold K; lia)) as P3.
  assert (Bs : scaled K (fmul (fmul lit_0_125 d) d) + scaled K (fmul (of_int 46) d)
               <= 2 ^ (9 + K)).
  { replace (9 + K) with (1 + (8 + K)) by lia.
    rewrite (pow2_split 1 (8 + K)) by (unfold K; lia). change (2 ^ 1) with 2.
    pose proof (pow2_le (0 + 2 + 2 + K) (8 + K) ltac:(unfold K; lia)).
    replace (6 + 2 + K) with (8 + K) in B3 by lia. lia. }
  destruct (fadd_scaled K _ _ ltac:(unfold K; lia) R2 R3) as [RA EA].
  { apply (lt_100 9); [lia|unfold K; lia|exact Bs]. }
  split; [exact RA|]. split.
  - rewrite EA, E2, E3, E1. reflexivity.
  - rewrite EA. split.
    + apply round_nonneg; [unfold K; lia|lia].
    + apply round_le_pow2; [unfold K; lia|lia|lia].
Qed.

Lemma razorPolyZ_mono X Y :
  0 <= X <= Y -> razorPolyZ X <= razorPolyZ Y.
Proof.
  intros [HX HXY]. unfold razorPolyZ. pose proof S_pos as HS.
  assert (HK : 149 <= K) by (unfold K; lia).
  destruct lit_0_125_rep as [[Nc _] _]. destruct lit_46_rep as [[N46 _] _].
  pose proof (scaled_nonneg K _ Nc ltac:(lia)) as C0.
  pose proof (scaled_nonneg K _ N46 ltac:(lia)) as C46.
  set (c := scaled K lit_0_125) in *. set (c46 := scaled K (of_int 46)) in *.
  assert (M1 : 0 <= round K (c * X / SK) <= round K (c * Y / SK)).
  { split.
    - apply round_nonneg; [lia|]. apply Z.div_pos; nia.
    - apply round_mono; [lia|]. split; [apply Z.div_pos; nia|].
      apply Z.div_le_mono; nia. }
  assert (M2 : 0 <= round K (round K (c * X / SK) * X / SK)
               <= round K (round K (c * Y / SK) * Y / SK)).
  { split.
    - apply round_nonneg; [lia|]. apply Z.div_pos; nia.
    - apply round_mono; [lia|]. split; [apply Z.div_pos; nia|].
      apply Z.div_le_mono; nia. }
  assert (M3 : 0 <= round K (c46 * X / SK) <= round K (c46 * Y / SK)).
  { split.
    - apply round_nonneg; [lia|]. apply Z.div_pos; nia.
    - apply round_mono; [lia|]. split; [apply Z.div_pos; nia|].
      apply Z.div_le_mono; nia. }
  apply round_mono; [lia|]. lia.
Qed.
End Bounds.

(** *** The float polynomial against the exact quadratic *)

Section Exact.
Local Abbreviation Scale := (2 ^ K).

Lemma grid_le K X j :
  149 <= K -> -126 <= j -> 0 < X <= 2 ^ (j + K) ->
  grid K X <= 2 ^ (j - 23 + K).
Proof.
  intros HK Hj [H0 HX]. rewrite grid_eq. apply pow2_le.
  pose proof (Z.log2_le_mono _ _ HX) as L.
  rewrite Z.log2_pow2 in L by lia. lia.
Qed.

(** The rounding moves a value by at most one grid step. *)
Lemma round_err K X j :
  149 <= K -> -126 <= j -> 0 <= X <= 2 ^ (j + K) ->
  X - 2 ^ (j - 23 + K) <= round K X <= X + 2 ^ (j - 23 + K).
Proof.
  intros HK Hj [H0 HX].
  pose proof (pow2_pos (j - 23 + K) ltac:(lia)) as HP.
  destruct (Z.eq_dec X 0) as [->|Hn].
  - rewrite round_0 by exact HK. lia.
  - pose proof (grid_le K X j HK Hj ltac:(lia)) as HG.
    pose proof (grid_pos K X HK) as Hg.
    unfold round. set (g := grid K X) in *.
    pose proof (rne_bounds X g Hg) as [Rl Ru].
    pose proof (Z.div_mod X g ltac:(lia)) as DM.
    pose proof (Z.mod_pos_bound X g Hg) as MB.
    nia.
Qed.

Lemma razor_scales :
  8 * scaled K lit_0_125 = Scale
  /\ scaled K (of_int 46) = 46 * Scale
  /\ Scale = 16777216 * 2 ^ (K - 24)
  /\ 2 ^ (-1 + K) = 8388608 * 2 ^ (K - 24)
  /\ 2 ^ (-1 - 23 + K) = 2 ^ (K - 24)
  /\ 2 ^ (1 + K) = 33554432 * 2 ^ (K - 24)
  /\ 2 ^ (1 - 23 + K) = 4 * 2 ^ (K - 24)
  /\ 2 ^ (8 + K) = 4294967296 * 2 ^ (K - 24)
  /\ 2 ^ (8 - 23 + K) = 512 * 2 ^ (K - 24)
  /\ 2 ^ (9 + K) = 8589934592 * 2 ^ (K - 24)
  /\ 2 ^ (9 - 23 + K) = 1024 * 2 ^ (K - 24)
  /\ 2 ^ (2 + K) = 67108864 * 2 ^ (K - 24)
  /\ 2 ^ (2 * K - 10) = 8 * Scale * (2048 * 2 ^ (K - 24)).
Proof. repeat split; vm_compute; reflexivity. Qed.

(** The float polynomial is within [2^-13] of the exact quadratic. *)
Lemma razorPolyZ_exact X :
  0 <= X <= 2 ^ (2 + K) ->
  razorQuadratic X - 2 ^ (2 * K - 10) <= 8 * Scale * razorPolyZ X
  /\ 8 * Scale * razorPolyZ X <= razorQuadratic X + 2 ^ (2 * K - 10).
Proof.
  intros [X0 XB].
  assert (HK : 149 <= K) by (unfold K; lia).
  destruct razor_scales
    as (Ec & E46 & ES & Em1 & Eg1 & E1 & Eg2 & E8 & Eg3 & E9 & Eg4 & E2 & EE).
  pose proof (pow2_pos (K - 24) ltac:(unfold K; lia)) as Hu.
  unfold razorPolyZ, razorQuadratic. rewrite E46, EE.
  rewrite E2 in XB.
  set (c := scaled K lit_0_125) in *.
  (* 0.125f * d *)
  set (A1 := c * X / Scale).
  assert (HA1 : Scale * A1 <= c * X < Scale * A1 + Scale).
  { pose proof (Z.div_mod (c * X) Scale ltac:(lia)) as DM.
    pose proof (Z.mod_pos_bound (c * X) Scale ltac:(lia)) as MB.
    fold A1 in DM. lia. }
  assert (B1 : 0 <= A1 <= 2 ^ (-1 + K)).
  { split; [apply Z.div_pos; nia|]. rewrite Em1. nia. }
  pose proof (round_err K A1 (-1) HK ltac:(lia) B1) as R1.
  pose proof (round_nonneg K A1 HK (proj1 B1)) as P1.
  pose proof (round_le_pow2 K A1 (-1) HK ltac:(lia) B1) as U1.
  set (T1 := round K A1) in *.
  (* (0.125f * d) * d *)
  set (A2 := T1 * X / Scale).
  assert (HA2 : Scale * A2 <= T1 * X < Scale * A2 + Scale).
  { pose proof (Z.div_mod (T1 * X) Scale ltac:(lia)) as DM.
    pose proof (Z.mod_pos_bound (T1 * X) Scale ltac:(lia)) as MB.
    fold A2 in DM. lia. }
  assert (B2 : 0 <= A2 <= 2 ^ (1 + K)).
  { split; [apply Z.div_pos; nia|]. rewrite E1, Em1 in *.
    assert (T1 * X <= (8388608 * 2 ^ (K - 24)) * (67108864 * 2 ^ (K - 24)))
      by (apply Z.mul_le_mono_nonneg; lia).
    nia. }
  pose proof (round_err K A2 1 HK ltac:(lia) B2) as R2.
  pose proof (round_nonneg K A2 HK (proj1 B2)) as P2.
  pose proof (round_le_pow2 K A2 1 HK ltac:(lia) B2) as U2.
  set (T2 := round K A2) in *.
  (* 46 * d *)
  replace (46 * Scale * X / Scale) with (46 * X)
    by (replace (46 * Scale * X) with (46 * X * Scale) by ring;
        rewrite Z.div_mul by lia; reflexivity).
  assert (B3 : 0 <= 46 * X <= 2 ^ (8 + K)) by (rewrite E8; lia).
  pose proof (round_err K (46 * X) 8 HK ltac:(lia) B3) as R3.
  pose proof (round_nonneg K (46 * X) HK (proj1 B3)) as P3.
  pose proof (round_le_pow2 K (46 * X) 8 HK ltac:(lia) B3) as U3.
  set (T3 := round K (46 * X)) in *.
  (* the sum *)
  assert (B4 : 0 <= T2 + T3 <= 2 ^ (9 + K)) by (rewrite E9, E8, E1 in *; lia).
  pose proof (round_err K (T2 + T3) 9 HK ltac:(lia) B4) as R4.
  set (P := round K (T2 + T3)) in *.
  rewrite Eg1 in R1. rewrite Eg2 in R2. rewrite Eg3 in R3. rewrite Eg4 in R4.
  rewrite ES in *.
  set (u := 2 ^ (K - 24)) in *. clearbody u c A1 T1 A2 T2 T3 P.
  clear - X0 XB Ec Hu HA1 R1 P1 HA2 R2 R3 R4.
  assert (H8 : 8 * A1 <= X /\ X < 8 * A1 + 8) by nia.
  assert (M1 : (A1 - u) * X <= T1 * X <= (A1 + u) * X)
    by (split; apply Z.mul_le_mono_nonneg_r; lia).
  assert (M2 : X * X - 8 * X <= 8 * A1 * X <= X * X) by nia.
  assert (M3 : 0 <= u * X <= u * (67108864 * u))
    by (split; [nia|apply Z.mul_le_mono_nonneg_l; lia]).
  nia.
Qed.
End Exact.

Lemma rep_trunc x :
  rep K x -> trunc x = Some (scaled K x / 2 ^ K).
Proof.
  intros [N _]. destruct x as [s| | |s m e]; try contradiction.
  - cbn [trunc scaled]. rewrite Z.div_0_l; [reflexivity|].
    pose proof S_pos. lia.
  - destruct N as [-> He].
    rewrite (trunc_scaled K) by (unfold K; lia). f_equal.
    apply Z.quot_div_nonneg; [|apply S_pos].
    apply scaled_nonneg; [cbn [nonneg_finite]; lia|unfold K; lia].
Qed.

Lemma lit_3_36_bound :
  scaled K lit_3_36 <= 2 ^ (2 + K)
  /\ razorPolyZ (scaled K lit_3_36) / 2 ^ K = 155.
Proof. split; [vm_compute; discriminate|vm_compute; reflexivity]. Qed.

Lemma below_lit_3_36 d :
  valid d -> fle zero d = true -> flt d lit_3_36 = true ->
  rep K d /\ 0 <= scaled K d <= scaled K lit_3_36.
Proof.
  intros V H0 Hc.
  destruct (between_rep d lit_3_36 V H0 Hc I) as [R F].
  split; [exact R|]. split.
  - apply scaled_nonneg; [apply R|unfold K; lia].
  - unfold flt, SFltb in Hc.
    rewrite (compare_scaled K) in Hc
      by (try assumption; try reflexivity; try exact I; unfold K; lia).
    destruct (Z.compare_spec (scaled K d) (scaled K lit_3_36)); try discriminate.
    lia.
Qed.

(** Below the threshold the conversion in [razorMargin] is defined and
    the margin is the clamped integer part of the float polynomial. *)
Lemma razorMargin_below d :
  valid d -> fle zero d = true -> flt d lit_3_36 = true ->
  exists k,
    to_int (razorPoly d) = Some k
    /\ k = razorPolyZ (scaled K d) / 2 ^ K
    /\ 0 <= k <= 155
    /\ razorMargin d = Some (Z.max (k + 49) 0).
Proof.
  intros V H0 Hc.
  destruct (below_lit_3_36 d V H0 Hc) as [R [X0 Xc]].
  destruct lit_3_36_bound as [Bc E155].
  destruct (razorPoly_scaled d R ltac:(lia)) as (RA & EA & A0 & _).
  pose proof (rep_trunc _ RA) as Ht. rewrite EA in Ht, A0.
  pose proof (razorPolyZ_mono _ _ (conj X0 Xc)) as Hm.
  pose proof S_pos as HS.
  set (k := razorPolyZ (scaled K d) / 2 ^ K) in *.
  assert (Hk : 0 <= k <= 155).
  { split; [apply Z.div_pos; lia|].
    rewrite <- E155. apply Z.div_le_mono; [apply S_pos|exact Hm]. }
  assert (Hi : to_int (razorPoly d) = Some k).
  { unfold to_int. rewrite Ht.
    destruct (Z.leb_spec INT_MIN k) as [_|C];
      [|unfold INT_MIN in C; change (2 ^ 31) with 2147483648 in C; lia].
    destruct (Z.leb_spec k INT_MAX) as [_|C];
      [|unfold INT_MAX in C; change (2 ^ 31) with 2147483648 in C; lia].
    reflexivity. }
  exists k. split; [exact Hi|]. split; [reflexivity|]. split; [exact Hk|].
  unfold razorMargin. rewrite Hc, Hi. unfold int_add.
  rewrite wrap32_id by (apply in_int_bound; lia). reflexivity.
Qed.

(** C2. From depth [3.36f] on, [razorMargin] is the sentinel
    [MARGIN_INFINITE]. On [0 <= d < 3.36f] it is the quadratic formula
    [max(int(0.125f*d*d + 46*d) + 49, 0)] of the specification
    ([razorMargin_formula]), the conversion being defined and the value
    lying between 49 and 204. The integer part [k] is that of the
    polynomial computed with a rounding after every operation
    ([razorPolyZ]), and it is the integer part of the exact quadratic
    [q = 0.125 d^2 + 46 d] up to the rounding error:
    [k <= q + 2^-13] and [q - 2^-13 < k + 1]. The margin is non-decreasing
    in [d] on [0, 3.36f). The depths are well-formed binary32 floats and
    every float operation rounds to nearest even. *)
Theorem razorMargin_spec (d d' : Depth) :
  valid d -> valid d' ->
  (fle lit_3_36 d = true -> razorMargin d = Some MARGIN_INFINITE)
  /\ (fle zero d = true -> flt d lit_3_36 = true ->
      exists k,
        to_int (razorPoly d) = Some k
        /\ razorMargin d = Some (Z.max (k + 49) 0)
        /\ 49 <= Z.max (k + 49) 0 <= 204
        /\ razorMargin d = razorMargin_formula d
        /\ k = razorPolyZ (scaled K d) / 2 ^ K
        /\ 8 * 2 ^ (2 * K) * k
           <= razorQuadratic (scaled K d) + 2 ^ (2 * K - 10)
        /\ razorQuadratic (scaled K d) - 2 ^ (2 * K - 10)
           < 8 * 2 ^ (2 * K) * (k + 1))
  /\ (fle zero d = true -> fle d d' = true -> flt d' lit_3_36 = true ->
      exists v v',
        razorMargin d = Some v /\ razorMargin d' = Some v' /\ v <= v').
Proof.
  intros V V'. split; [|split].
  - intros H. unfold razorMargin. rewrite (fle_not_flt _ _ H). reflexivity.
  - intros H0 Hc.
    destruct (razorMargin_below d V H0 Hc) as (k & Hi & Ek & Hk & Hr).
    exists k. split; [exact Hi|]. split; [exact Hr|]. split; [lia|].
    split.
    { rewrite Hr. unfold razorMargin_formula.
      change (fadd (fmul (fmul lit_0_125 d) d) (fmul (of_int 46) d))
        with (razorPoly d).
      rewrite Hi. reflexivity. }
    split; [exact Ek|].
    destruct (below_lit_3_36 d V H0 Hc) as [_ [X0 Xc]].
    destruct lit_3_36_bound as [Bc _].
    destruct (razorPolyZ_exact (scaled K d) ltac:(lia)) as [El Eu].
    pose proof S_pos as HS.
    pose proof (Z.div_mod (razorPolyZ (scaled K d)) (2 ^ K) ltac:(lia)) as DM.
    pose proof (Z.mod_pos_bound (razorPolyZ (scaled K d)) (2 ^ K) HS) as MB.
    rewrite <- Ek in DM.
    assert (E2 : 2 ^ (2 * K) = 2 ^ K * 2 ^ K)
      by (replace (2 * K) with (K + K) by lia; apply pow2_split; unfold K; lia).
    rewrite E2.
    set (P := razorPolyZ (scaled K d)) in *.
    set (Q := razorQuadratic (scaled K d)) in *.
    set (E := 2 ^ (2 * K - 10)) in *.
    set (S := 2 ^ K) in *.
    clearbody P Q E S. clear - El Eu HS DM MB.
    split; nia.
  - intros H0 Hle Hc'.
    assert (F' : finite d').
    { destruct d' as [| [] | |]; try exact I; try discriminate.
      destruct d as [| [] | |]; discriminate. }
    assert (F : finite d).
    { destruct d as [| [] | |]; try exact I; try discriminate.
      destruct d' as [| [] | |]; try discriminate; contradiction. }
    assert (Hd : scaled K d <= scaled K d').
    { unfold fle, SFleb in Hle.
      rewrite (compare_scaled K) in Hle by (try assumption; unfold K; lia).
      destruct (Z.compare_spec (scaled K d) (scaled K d')); try discriminate; lia. }
    assert (H0' : fle zero d' = true).
    { unfold fle, SFleb in *.
      rewrite (compare_scaled K) in H0 |- *
        by (try assumption; try reflexivity; try exact I; unfold K; lia).
      change (scaled K zero) with 0 in *.
      destruct (Z.compare_spec 0 (scaled K d)); try discriminate;
        destruct (Z.compare_spec 0 (scaled K d')); try reflexivity; lia. }
    assert (Hc : flt d lit_3_36 = true).
    { unfold flt, SFltb in *.
      rewrite (compare_scaled K) in Hc' |- *
        by (try assumption; try reflexivity; try exact I; unfold K; lia).
      destruct (Z.compare_spec (scaled K d') (scaled K lit_3_36)); try discriminate.
      destruct (Z.compare_spec (scaled K d) (scaled K lit_3_36)); try reflexivity; lia. }
    destruct (razorMargin_below d V H0 Hc) as (k & _ & Ek & Hk & Hr).
    destruct (razorMargin_below d' V' H0' Hc') as (k' & _ & Ek' & Hk' & Hr').
    destruct (below_lit_3_36 d V H0 Hc) as [_ [X0 _]].
    pose proof (razorPolyZ_mono _ _ (conj X0 Hd)) as Hm.
    assert (k <= k') by (subst k k'; apply Z.div_le_mono; [apply S_pos|exact Hm]).
    exists (Z.max (k + 49) 0), (Z.max (k' + 49) 0).
    split; [exact Hr|]. split; [exact Hr'|]. lia.
Qed.

Lemma razorMargin_spec_witness :
  (exists k,
      to_int (razorPoly one) = Some k
      /\ razorMargin one = Some (Z.max (k + 49) 0)
      /\ 49 <= Z.max (k + 49) 0 <= 204
      /\ razorMargin one = razorMargin_formula one
      /\ k = razorPolyZ (scaled K one) / 2 ^ K
      /\ 8 * 2 ^ (2 * K) * k
         <= razorQuadratic (scaled K one) + 2 ^ (2 * K - 10)
      /\ razorQuadratic (scaled K one) - 2 ^ (2 * K - 10)
         < 8 * 2 ^ (2 * K) * (k + 1))
  /\ (exists v v',
      razorMargin one = Some v /\ razorMargin (of_int 2) = Some v' /\ v <= v').
Proof.
  destruct (razorMargin_spec one (of_int 2)) as (_ & H2 & H3);
    [reflexivity|reflexivity|].
  split; [apply H2; reflexivity|apply H3; reflexivity].
Defined.

End RazorFacts.

Module ReductionFacts.
Import CInt CIntFacts F32 F32Sem F32Facts TruncFacts AB.

Lemma to_int_zero : to_int zero = Some 0.
Proof. reflexivity. Qed.

Lemma to_int_positive d i :
  valid d -> flt zero d = true -> to_int d = Some i -> 0 <= i.
Proof.
  intros V Hd Hi.
  apply (to_int_monotone zero d 0 i); try assumption; try reflexivity.
  unfold flt, fle, SFltb, SFleb in *.
  destruct (SFcompare zero d) as [[]|]; try discriminate; reflexivity.
Qed.

Lemma array_get_Some {A} (a : list A) i :
  0 <= i < Z.of_nat (length a) -> exists x, array_get a i = Some x.
Proof.
  intros Hi. unfold array_get.
  destruct (Z.ltb_spec i 0) as [?|_]; [lia|].
  destruct (lookup_lt_is_Some_2 a (Z.to_nat i) ltac:(lia)) as [x Hx].
  exists x. exact Hx.
Qed.

Lemma fadd_zero_r r : same_number (fadd r (of_int 0)) r
                      /\ (r <> S754_zero true -> fadd r (of_int 0) = r).
Proof.
  change (of_int 0) with (S754_zero false).
  destruct r as [[]|[]| |s m e]; unfold fadd; cbn [SFadd].
  - split; [right; eauto|congruence].
  - split; [left; reflexivity|reflexivity].
  - split; [left; reflexivity|reflexivity].
  - split; [left; reflexivity|reflexivity].
  - split; [left; reflexivity|reflexivity].
  - split; [left; reflexivity|reflexivity].
Qed.

(** C5. For a depth [d > 0] whose integer part indexes the table and a
    move count with [0 < moveCount < lut.size()], let
    [r = lut[int(d)] * lut[moveCount]]. At a principal-variation node the
    reduction is [max(r - delta / rootDelta, 0)]; at another node it is
    [r + 1] when [improvement <= 0] and [r > 1], and the number [r]
    otherwise (the datum [r] itself unless [r] is the negative zero). *)
Theorem reduction_spec (lut : list Depth) (d : Depth) (i : Z)
    (moveCount improvement : Z) (delta rootDelta : Value) :
  valid d -> flt zero d = true ->
  to_int d = Some i -> i < Z.of_nat (length lut) ->
  0 < moveCount < Z.of_nat (length lut) ->
  exists a b,
    array_get lut i = Some a /\ array_get lut moveCount = Some b /\
    let r := fmul a b in
    reduction true lut d moveCount improvement delta rootDelta
    = Some (reduction_formula true r improvement delta rootDelta)
    /\ exists res,
        reduction false lut d moveCount improvement delta rootDelta = Some res
        /\ same_number res (reduction_formula false r improvement delta rootDelta)
        /\ (improvement <= 0 /\ fgt r one = true -> res = fadd r one)
        /\ (r <> S754_zero true ->
            res = reduction_formula false r improvement delta rootDelta).
Proof.
  intros V Hd Hi Hb Hmc.
  pose proof (to_int_positive d i V Hd Hi) as Hi0.
  destruct (array_get_Some lut i ltac:(lia)) as [a Ha].
  destruct (array_get_Some lut moveCount ltac:(lia)) as [b Hb'].
  exists a, b. split; [exact Ha|]. split; [exact Hb'|].
  cbv zeta. unfold reduction. rewrite Hi, Ha, Hb'.
  split; [reflexivity|].
  eexists. split; [reflexivity|].
  unfold reduction_formula.
  destruct (Z.leb_spec improvement 0) as [Him|Him];
    destruct (fgt (fmul a b) one) eqn:Hg; cbn [andb Z.b2z].
  - change (of_int 1) with one.
    split; [left; reflexivity|]. split; [reflexivity|reflexivity].
  - destruct (fadd_zero_r (fmul a b)) as [Hs He].
    split; [exact Hs|]. split; [intros [_ C]; discriminate|exact He].
  - destruct (fadd_zero_r (fmul a b)) as [Hs He].
    split; [exact Hs|]. split; [intros [C _]; lia|exact He].
  - destruct (fadd_zero_r (fmul a b)) as [Hs He].
    split; [exact Hs|]. split; [intros [C _]; lia|exact He].
Qed.

Lemma reduction_spec_witness :
  reduction true lut_sample (of_int 2) 3 0 10 20
  = Some (reduction_formula true (fmul (of_int 2) (of_int 3)) 0 10 20)
  /\ reduction false lut_sample (of_int 2) 3 0 10 20
     = Some (fadd (fmul (of_int 2) (of_int 3)) one).
Proof.
  destruct (reduction_spec lut_sample (of_int 2) 2 3 0 10 20)
    as (a & b & Ha & Hb & Hpv & res & Hres & _ & Hplus & _);
    [reflexivity|reflexivity|reflexivity|simpl; lia|simpl; lia|].
  injection Ha as <-. injection Hb as <-.
  split; [exact Hpv|].
  rewrite Hres. f_equal. apply Hplus. split; [lia|reflexivity].
Defined.

End ReductionFacts.

Module EvaluatorFacts.
Import Evaluator.

Section Network.
Variable dim : nat.
Variable boardSize : Z.
Variable radius : Z.
Variable shapeIndex : gmap Cell Color -> Cell -> Direction -> Z.
Variable mapping : Z -> vec Z dim.
Variable kernel : list (Cell * vec Z dim).

Local Abbreviation Acc := (Accumulator dim).
Local Abbreviation update' := (updateAccumulator dim boardSize radius shapeIndex mapping kernel).
Local Abbreviation applyMove' := (applyMove dim boardSize radius shapeIndex mapping kernel).
Local Abbreviation undoMove' := (undoMove dim boardSize radius shapeIndex mapping kernel).
Local Abbreviation window' := (window boardSize radius).
Local Abbreviation convArea' := (convArea dim boardSize radius kernel).
Local Abbreviation conv' := (conv dim kernel).
Local Abbreviation feature' := (feature dim shapeIndex mapping).

(** *** Exact vector arithmetic *)



(** *** Folding deltas into the feature map *)

Lemma addFeature_lookup (m : gmap Cell (vec Z dim)) cv k :
  addFeature dim m cv !! k
  = if decide (cv.1 = k) then (fun v => vadd dim v cv.2) <$> m !! k else m !! k.
Proof.
  unfold addFeature. rewrite lookup_alter.
  destruct (decide (cv.1 = k)) as [->|]; reflexivity.
Qed.







Lemma foldl_addFeature_other l : forall (m : gmap Cell (vec Z dim)) k,
  k ∉ l.*1 -> foldl (addFeature dim) m l !! k = m !! k.
Proof.
  induction l as [|cv l IH]; intros m k Hk; simpl; [reflexivity|].
  rewrite fmap_cons, not_elem_of_cons in Hk. destruct Hk as [Hne Hk].
  rewrite IH by assumption. rewrite addFeature_lookup.
  destruct (decide (cv.1 = k)); [congruence|reflexivity].
Qed.

(** *** Refreshing the convolution *)

Lemma foldl_refresh_lookup (m : gmap Cell (vec Z dim)) l :
  forall (a : gmap Cell (vec Z dim)) k,
    foldl (refresh dim kernel m) a l !! k
    = if decide (k ∈ l) then (fun _ => conv' m k) <$> a !! k else a !! k.
Proof.
  induction l as [|c l IH]; intros a k; simpl.
  - destruct (decide (k ∈ [])) as [H|_]; [|reflexivity].
    apply elem_of_nil in H. contradiction.
  - rewrite IH. unfold refresh. rewrite !lookup_alter.
    destruct (decide (k ∈ l)) as [Hin|Hnin], (decide (k ∈ c :: l)) as [Hin'|Hnin'],
      (decide (c = k)) as [->|Hne];
      try reflexivity.
    + destruct (a !! k); reflexivity.
    + exfalso. apply Hnin'. right. exact Hin.
    + exfalso. apply Hnin'. right. exact Hin.
    + apply elem_of_cons in Hin' as [?|?]; congruence.
    + exfalso. apply Hnin'. left.
Qed.

Lemma conv_ext (m m' : gmap Cell (vec Z dim)) c :
  (forall ow, ow ∈ kernel -> m' !! shift c 1 ow.1 = m !! shift c 1 ow.1) ->
  conv' m' c = conv' m c.
Proof.
  unfold conv. induction kernel as [|ow k IH]; intros H; simpl; [reflexivity|].
  rewrite H by left. f_equal. apply IH. intros ow' Hin. apply H. right. exact Hin.
Qed.

Lemma shift_back c o : shift (shift c 1 o) (-1) o = c.
Proof. destruct c, o. unfold shift. simpl. f_equal; lia. Qed.

(** The convolution away from the window of [p] does not see the deltas. *)
Lemma conv_outside (s s' : gmap Cell Color) (p c : Cell)
    (m : gmap Cell (vec Z dim)) :
  c ∉ convArea' p ->
  conv' (foldl (addFeature dim) m
           (deltas dim boardSize radius shapeIndex mapping s s' p)) c
  = conv' m c.
Proof.
  intros Hc. apply conv_ext. intros ow Hin.
  apply foldl_addFeature_other. intros Hk. apply Hc.
  unfold deltas in Hk. rewrite <- list_fmap_compose in Hk.
  apply list_elem_of_fmap in Hk as (cd & E & Hcd). simpl in E.
  unfold convArea. apply list_elem_of_bind. exists cd. split; [|exact Hcd].
  apply list_elem_of_bind. exists ow. split; [|exact Hin].
  apply list_elem_of_singleton. rewrite <- E. symmetry. apply shift_back.
Qed.

(** *** The accumulator *)

Lemma update_consistent (acc : Acc) (p : Cell) (s' : gmap Cell Color) :
  consistent dim kernel acc -> consistent dim kernel (update' acc p s').
Proof.
  intros Hc c v. unfold updateAccumulator. cbn [mapAfterConv map].
  rewrite foldl_refresh_lookup.
  destruct (decide (c ∈ convArea' p)) as [Hin|Hnin].
  - destruct (mapAfterConv dim acc !! c); simpl; [|discriminate].
    intros [= <-]. reflexivity.
  - intros H. rewrite conv_outside by assumption. apply Hc. exact H.
Qed.

Lemma clear_consistent :
  consistent dim kernel (clear dim boardSize shapeIndex mapping kernel).
Proof.
  intros c v. unfold clear. cbn [mapAfterConv map]. intros H.
  apply elem_of_list_to_map_2 in H.
  apply list_elem_of_fmap in H as (c' & E & _).
  injection E as -> ->. reflexivity.
Qed.

Lemma reachable_consistent (acc : Acc) :
  reachable dim boardSize radius shapeIndex mapping kernel acc ->
  consistent dim kernel acc.
Proof.
  induction 1 as [|acc color p _ IH|acc p _ IH].
  - apply clear_consistent.
  - apply update_consistent. exact IH.
  - apply update_consistent. exact IH.
Qed.


(** *** The deferred move cache *)




Lemma isContraryMove_sym (a b : MoveCache) :
  isContraryMove a b = isContraryMove b a.
Proof.
  unfold isContraryMove.
  destruct (decide (pos a = pos b)), (decide (oldColor a = newColor b)),
    (decide (newColor a = oldColor b));
    repeat first [rewrite bool_decide_eq_true_2 by congruence
                 |rewrite bool_decide_eq_false_2 by congruence];
    simpl; try reflexivity; rewrite ?andb_false_r; reflexivity.
Qed.

Lemma addCache_reduced (cache : list MoveCache) (e : MoveCache) :
  reduced cache -> reduced (addCache cache e).
Proof.
  intros Hr. destruct cache as [|last rest]; simpl; [split; exact I|].
  destruct (isContraryMove last e) eqn:E.
  - simpl in Hr. apply Hr.
  - split; [exact E|exact Hr].
Qed.

Lemma recorded_reduced (cache : list MoveCache) :
  recorded cache -> reduced cache.
Proof.
  induction 1 as [|cache e _ IH]; [exact I|].
  apply addCache_reduced. exact IH.
Qed.



End Network.


End EvaluatorFacts.

(** ** Further properties of the history update *)

Module HistoryMore.
Import CInt CIntFacts History HistoryFacts.

(** The truncated quotient moves by at most [n] when the dividend moves
    by at most [n * R]. *)
Lemma quot_step R x y n :
  0 < R -> 0 <= n -> x <= y <= x + n * R ->
  Z.quot x R <= Z.quot y R <= Z.quot x R + n.
Proof.
  intros HR Hn [Hxy Hyx].
  split; [apply Z.quot_le_mono; lia|].
  pose proof (Z.quot_rem' x R) as Ex. pose proof (Z.quot_rem' y R) as Ey.
  destruct (Z.le_gt_cases 0 y) as [y0|y0].
  - pose proof (Z.rem_bound_pos y R y0 HR).
    destruct (Z.le_gt_cases 0 x) as [x0|x0].
    + pose proof (Z.rem_bound_pos x R x0 HR). nia.
    + pose proof (Z.rem_bound_pos_neg x R HR ltac:(lia)). nia.
  - pose proof (Z.rem_bound_pos_neg y R HR ltac:(lia)).
    pose proof (Z.rem_bound_pos_neg x R HR ltac:(lia)). nia.
Qed.

Lemma update_ge R v b :
  0 < R <= INT16_MAX -> Z.abs v <= R -> 0 <= b <= R -> v <= update R v b.
Proof.
  intros HR Hv Hb. rewrite update_exact by lia.
  rewrite (Z.abs_eq b) by lia.
  destruct (quot_bounds (v * b) R ltac:(lia)) as [Hp Hn].
  destruct (Z.le_gt_cases 0 (v * b)) as [H|H].
  - specialize (Hp H). nia.
  - specialize (Hn ltac:(lia)). nia.
Qed.

Lemma update_gt R v b :
  0 < R <= INT16_MAX -> Z.abs v <= R -> 0 < b <= R -> v < R -> v < update R v b.
Proof.
  intros HR Hv Hb Hlt. rewrite update_exact by lia.
  rewrite (Z.abs_eq b) by lia.
  destruct (quot_bounds (v * b) R ltac:(lia)) as [Hp Hn].
  destruct (Z.le_gt_cases 0 (v * b)) as [H|H].
  - specialize (Hp H). nia.
  - specialize (Hn ltac:(lia)). nia.
Qed.

Lemma update_top R b :
  0 < R <= INT16_MAX -> 0 <= b <= R -> update R R b = R.
Proof.
  intros HR Hb. rewrite update_exact by lia.
  rewrite (Z.abs_eq b) by lia.
  rewrite Z.mul_comm, Z.quot_mul by lia. lia.
Qed.

(** [operator<<] is odd: negating both the entry and the bonus negates the
    stored value. *)
Theorem entry_update_odd (Range v b : Z) :
  0 < Range <= INT16_MAX ->
  Z.abs v <= Range -> Z.abs b <= Range ->
  update Range (- v) (- b) = - update Range v b.
Proof.
  intros HR Hv Hb.
  rewrite !update_exact by (rewrite ?Z.abs_opp; lia).
  rewrite Z.abs_opp, Z.mul_opp_l, Z.quot_opp_l by lia. lia.
Qed.

Lemma entry_update_odd_witness :
  update HistRange (- 5000) (- 700) = - update HistRange 5000 700.
Proof.
  apply (entry_update_odd HistRange 5000 700);
    [vm_compute; split; [reflexivity|discriminate]
    |vm_compute; discriminate|vm_compute; discriminate].
Defined.

(** For a fixed bonus within the range, [operator<<] keeps the order of
    entries: a larger entry stays at least as large after the same bonus. *)
Theorem entry_update_monotone (Range v1 v2 b : Z) :
  0 < Range <= INT16_MAX ->
  Z.abs v1 <= Range -> Z.abs v2 <= Range -> Z.abs b <= Range ->
  v1 <= v2 ->
  update Range v1 b <= update Range v2 b.
Proof.
  intros HR H1 H2 Hb Hle.
  rewrite !update_exact by assumption.
  pose proof (quot_step Range (v1 * Z.abs b) (v2 * Z.abs b) (v2 - v1)
                ltac:(lia) ltac:(lia) ltac:(nia)).
  lia.
Qed.

Lemma entry_update_monotone_witness :
  update HistRange (- 3) 10000 <= update HistRange 4 10000.
Proof.
  apply (entry_update_monotone HistRange (- 3) 4 10000);
    [vm_compute; split; [reflexivity|discriminate]
    |vm_compute; discriminate|vm_compute; discriminate
    |vm_compute; discriminate|lia].
Defined.

(** A bonus never moves an entry against its sign: a non-negative bonus
    does not lower the entry and raises every entry below [Range] when it
    is positive, a non-positive bonus does not raise the entry and lowers
    every entry above [-Range] when it is negative; the bonus 0 leaves the
    entry as it is. *)
Theorem entry_update_direction (Range v b : Z) :
  0 < Range <= INT16_MAX ->
  Z.abs v <= Range -> Z.abs b <= Range ->
  (0 <= b -> v <= update Range v b)
  /\ (0 < b -> v < Range -> v < update Range v b)
  /\ (b <= 0 -> update Range v b <= v)
  /\ (b < 0 -> - Range < v -> update Range v b < v)
  /\ (b = 0 -> update Range v b = v).
Proof.
  intros HR Hv Hb.
  assert (Hop : update Range v b = - update Range (- v) (- b)).
  { rewrite !update_exact by (rewrite ?Z.abs_opp; lia).
    rewrite Z.abs_opp, Z.mul_opp_l, Z.quot_opp_l by lia. lia. }
  assert (Hv' : Z.abs (- v) <= Range) by (rewrite Z.abs_opp; exact Hv).
  assert (P1 : 0 <= b -> v <= update Range v b)
    by (intros; apply update_ge; [assumption|assumption|lia]).
  assert (P3 : b <= 0 -> update Range v b <= v).
  { intros H. rewrite Hop.
    pose proof (update_ge Range (- v) (- b) HR Hv' ltac:(lia)). lia. }
  split; [exact P1|]. split.
  { intros; apply update_gt; [assumption|assumption|lia|assumption]. }
  split; [exact P3|]. split.
  { intros H H'. rewrite Hop.
    pose proof (update_gt Range (- v) (- b) HR Hv' ltac:(lia) ltac:(lia)). lia. }
  intros ->. specialize (P1 ltac:(lia)). specialize (P3 ltac:(lia)). lia.
Qed.

Lemma entry_update_direction_witness :
  (0 <= 300 -> 10000 <= update HistRange 10000 300)
  /\ (0 < 300 -> 10000 < HistRange -> 10000 < update HistRange 10000 300)
  /\ (300 <= 0 -> update HistRange 10000 300 <= 10000)
  /\ (300 < 0 -> - HistRange < 10000 -> update HistRange 10000 300 < 10000)
  /\ (300 = 0 -> update HistRange 10000 300 = 10000).
Proof.
  apply (entry_update_direction HistRange 10000 300);
    [vm_compute; split; [reflexivity|discriminate]
    |vm_compute; discriminate|vm_compute; discriminate].
Defined.

(** Saturation is reached: repeating one positive bonus drives the entry
    to exactly [Range] after at most [Range - v] updates, and it stays
    there. *)
Theorem entry_update_reaches_range (Range v b : Z) (n : nat) :
  0 < Range <= INT16_MAX ->
  Z.abs v <= Range -> 0 < b <= Range ->
  Range - v <= Z.of_nat n ->
  updates Range (repeat b n) v = Range.
Proof.
  intros HR Hv Hb. revert v Hv.
  induction n as [|n IH]; intros v Hv Hn; unfold updates in *.
  - simpl. lia.
  - cbn [repeat fold_left].
    destruct (Z.eq_dec v Range) as [->|Hne].
    + rewrite update_top by lia. apply IH; lia.
    + pose proof (update_gt Range v b HR Hv Hb ltac:(lia)).
      pose proof (update_in_range Range v b HR Hv ltac:(lia)).
      apply IH; lia.
Qed.

Lemma entry_update_reaches_range_witness :
  updates 8 (repeat 1 16) (- 8) = 8.
Proof.
  apply (entry_update_reaches_range 8 (- 8) 1 16);
    [vm_compute; split; [reflexivity|discriminate]
    |vm_compute; discriminate|lia|lia].
Defined.

End HistoryMore.

(** ** Floats within the depth range *)

Module DepthFacts.
Import CInt CIntFacts F32 F32Sem F32Facts TruncFacts RoundFacts.
Import F32Signed SignedFacts AB ABMore.

Local Abbreviation SK := (2 ^ K).

Lemma K149 : 149 <= K.
Proof. unfold K. lia. Qed.

Lemma K298 : 298 <= K.
Proof. unfold K. lia. Qed.

Lemma SK_pos : 0 < SK.
Proof. apply pow2_pos. unfold K. lia. Qed.

Lemma pow2K_split j : 0 <= j -> 2 ^ (j + K) = 2 ^ j * SK.
Proof. intros Hj. apply pow2_split; [exact Hj|unfold K; lia]. Qed.

Lemma range_finite d : in_depth_range d -> vfin d.
Proof.
  intros (V & Hl & Hh). split; [exact V|].
  destruct d as [s|[]| |s m e]; try exact I; discriminate.
Qed.

Lemma depth_bounds_scaled :
  scaled K depth_lo = - 2 ^ (20 + K) /\ scaled K depth_hi = 2 ^ (20 + K).
Proof. split; vm_compute; reflexivity. Qed.

Lemma range_scaled d :
  in_depth_range d -> vfin d /\ Z.abs (scaled K d) <= 2 ^ (20 + K).
Proof.
  intros H. pose proof (range_finite d H) as F. split; [exact F|].
  destruct H as (V & Hl & Hh). destruct depth_bounds_scaled as [El Eh].
  rewrite (fle_scaled K) in Hl, Hh
    by first [exact K149|exact F|split; [reflexivity|exact I]].
  apply Z.leb_le in Hl, Hh. rewrite El in Hl. rewrite Eh in Hh. lia.
Qed.

Lemma fle_le x y :
  vfin x -> vfin y -> fle x y = true -> scaled K x <= scaled K y.
Proof.
  intros Vx Vy H. rewrite (fle_scaled K) in H by first [exact K149|assumption].
  apply Z.leb_le, H.
Qed.

Lemma le_fle x y :
  vfin x -> vfin y -> scaled K x <= scaled K y -> fle x y = true.
Proof.
  intros Vx Vy H. rewrite (fle_scaled K) by first [exact K149|assumption].
  apply Z.leb_le, H.
Qed.

Lemma abs_div_bound a B :
  0 <= B -> Z.abs a <= B * SK -> Z.abs (a / SK) <= B.
Proof.
  intros HB Ha. pose proof SK_pos as HS.
  assert (- B <= a / SK) by (apply Z.div_le_lower_bound; lia).
  assert (a / SK <= B) by (apply Z.div_le_upper_bound; lia).
  lia.
Qed.

Lemma abs_quot_bound a B :
  0 <= B -> Z.abs a <= B * SK -> Z.abs (Z.quot a SK) <= B.
Proof.
  intros HB Ha. pose proof SK_pos as HS.
  rewrite <- Z.quot_abs by lia. rewrite (Z.abs_eq SK) by lia.
  apply Z.quot_le_upper_bound; lia.
Qed.

(** A product with its bound. *)
Lemma fmul_bv x y i j :
  0 <= i -> 0 <= j -> i + j < 100 ->
  vfin x -> vfin y ->
  Z.abs (scaled K x) <= 2 ^ (i + K) -> Z.abs (scaled K y) <= 2 ^ (j + K) ->
  vfin (fmul x y)
  /\ scaled K (fmul x y) = sround K (scaled K x * scaled K y / SK)
  /\ Z.abs (scaled K (fmul x y)) <= 2 ^ (i + j + K).
Proof.
  intros Hi Hj Hij Vx Vy Bx By. pose proof SK_pos as HS.
  assert (Hb : Z.abs (scaled K x * scaled K y / SK) <= 2 ^ (i + j + K)).
  { rewrite pow2K_split in * by lia.
    pose proof (pow2_pos i Hi) as Pi. pose proof (pow2_pos j Hj) as Pj.
    rewrite (pow2_split i j) by lia.
    apply abs_div_bound; [nia|]. rewrite Z.abs_mul.
    set (ax := Z.abs (scaled K x)) in *. set (ay := Z.abs (scaled K y)) in *.
    assert (0 <= ax) by apply Z.abs_nonneg.
    assert (0 <= ay) by apply Z.abs_nonneg.
    set (P := 2 ^ i) in *. set (Q := 2 ^ j) in *.
    assert (ax * ay <= (P * SK) * (Q * SK)) by (apply Z.mul_le_mono_nonneg; lia).
    lia. }
  destruct (fmul_v K x y K298 Vx Vy) as [V E].
  { pose proof (pow2_lt (i + j + K) (100 + K) ltac:(unfold K; lia)). lia. }
  split; [exact V|]. split; [exact E|].
  rewrite E. apply sround_abs_le; [exact K149|lia|exact Hb].
Qed.

(** A sum and a difference with their bounds. *)
Lemma fadd_bv x y j :
  0 <= j < 99 ->
  vfin x -> vfin y ->
  Z.abs (scaled K x) <= 2 ^ (j + K) -> Z.abs (scaled K y) <= 2 ^ (j + K) ->
  vfin (fadd x y)
  /\ scaled K (fadd x y) = sround K (scaled K x + scaled K y)
  /\ Z.abs (scaled K (fadd x y)) <= 2 ^ (j + 1 + K).
Proof.
  intros Hj Vx Vy Bx By.
  assert (Hb : Z.abs (scaled K x + scaled K y) <= 2 ^ (j + 1 + K)).
  { replace (j + 1 + K) with (1 + (j + K)) by lia.
    rewrite (pow2_split 1 (j + K)) by (unfold K; lia). change (2 ^ 1) with 2. lia. }
  destruct (fadd_v K x y K149 Vx Vy) as [V E].
  { pose proof (pow2_lt (j + 1 + K) (100 + K) ltac:(unfold K; lia)). lia. }
  split; [exact V|]. split; [exact E|].
  rewrite E. apply sround_abs_le; [exact K149|lia|exact Hb].
Qed.

Lemma fsub_bv x y j :
  0 <= j < 99 ->
  vfin x -> vfin y ->
  Z.abs (scaled K x) <= 2 ^ (j + K) -> Z.abs (scaled K y) <= 2 ^ (j + K) ->
  vfin (fsub x y)
  /\ scaled K (fsub x y) = sround K (scaled K x - scaled K y)
  /\ Z.abs (scaled K (fsub x y)) <= 2 ^ (j + 1 + K).
Proof.
  intros Hj Vx Vy Bx By.
  assert (Hb : Z.abs (scaled K x - scaled K y) <= 2 ^ (j + 1 + K)).
  { replace (j + 1 + K) with (1 + (j + K)) by lia.
    rewrite (pow2_split 1 (j + K)) by (unfold K; lia). change (2 ^ 1) with 2. lia. }
  destruct (fsub_v K x y K149 Vx Vy) as [V E].
  { pose proof (pow2_lt (j + 1 + K) (100 + K) ltac:(unfold K; lia)). lia. }
  split; [exact V|]. split; [exact E|].
  rewrite E. apply sround_abs_le; [exact K149|lia|exact Hb].
Qed.

(** The conversion to [int] of a float below [2^30] in magnitude. *)
Lemma to_int_bv x j :
  0 <= j <= 30 -> vfin x -> Z.abs (scaled K x) <= 2 ^ (j + K) ->
  to_int x = Some (Z.quot (scaled K x) SK)
  /\ Z.abs (Z.quot (scaled K x) SK) <= 2 ^ j.
Proof.
  intros Hj V B. rewrite pow2K_split in B by lia.
  pose proof (pow2_pos j ltac:(lia)) as Pj.
  pose proof (abs_quot_bound (scaled K x) (2 ^ j) ltac:(lia) B) as Hq.
  split; [|exact Hq].
  apply to_int_vfin; [exact K149|exact V|].
  apply in_int_bound.
  pose proof (pow2_le j 30 ltac:(lia)). change (2 ^ 30) with 1073741824 in *. lia.
Qed.

Lemma to_int_range d :
  in_depth_range d ->
  to_int d = Some (Z.quot (scaled K d) SK)
  /\ Z.abs (Z.quot (scaled K d) SK) <= 2 ^ 20.
Proof.
  intros H. destruct (range_scaled d H) as [V B].
  apply to_int_bv; [lia|exact V|exact B].
Qed.

Lemma quot_SK_mono a b : a <= b -> Z.quot a SK <= Z.quot b SK.
Proof. intros H. apply Z.quot_le_mono; [apply SK_pos|exact H]. Qed.

Lemma quot_SK_ge a n : n * SK <= a -> 0 <= n -> n <= Z.quot a SK.
Proof.
  intros H Hn. pose proof SK_pos as HS.
  rewrite <- (Z.quot_mul n SK) by lia. apply Z.quot_le_mono; lia.
Qed.

Lemma quot_SK_nonpos a : a <= 0 -> Z.quot a SK <= 0.
Proof.
  intros H. pose proof SK_pos as HS.
  rewrite <- (Z.quot_0_l SK) by lia. apply Z.quot_le_mono; lia.
Qed.

Lemma mul_div_mono c a b : 0 <= c -> a <= b -> c * a / SK <= c * b / SK.
Proof.
  intros Hc H. apply Z.div_le_mono; [apply SK_pos|].
  apply Z.mul_le_mono_nonneg_l; assumption.
Qed.

Lemma mul_div_mono_l c c' a : 0 <= a -> c <= c' -> c * a / SK <= c' * a / SK.
Proof.
  intros Ha H. apply Z.div_le_mono; [apply SK_pos|].
  apply Z.mul_le_mono_nonneg_r; assumption.
Qed.

Lemma sround_nonneg_le X : 0 <= X -> 0 <= sround K X.
Proof.
  intros H. rewrite <- (sround_0 K K149). apply sround_mono; [exact K149|exact H].
Qed.

Lemma sround_nonpos_le X : X <= 0 -> sround K X <= 0.
Proof.
  intros H. rewrite <- (sround_0 K K149). apply sround_mono; [exact K149|exact H].
Qed.

Lemma of_int_small z :
  Z.abs z <= 2 ^ 24 -> vfin (of_int z) /\ scaled K (of_int z) = z * SK.
Proof. apply of_int_exact, K149. Qed.

End DepthFacts.

(** ** The margins computed from the integer part of the depth *)

Module MarginFacts.
Import CInt CIntFacts F32 F32Sem F32Facts TruncFacts RoundFacts.
Import F32Signed SignedFacts AB ABMore DepthFacts AspirationFacts.

Local Abbreviation SK := (2 ^ K).

Ltac unwrap :=
  unfold int_add, int_sub, int_mul, int_div;
  repeat match goal with
         | |- context [wrap 32 ?z] =>
             rewrite (wrap32_id z) by (apply in_int_bound; lia)
         end.

Lemma pow20 : 2 ^ 20 = 1048576.
Proof. reflexivity. Qed.

(** [int(d)] on the depth range, with the order of depths carried over. *)
Lemma to_int_depth d :
  in_depth_range d ->
  exists k, to_int d = Some k /\ k = Z.quot (scaled K d) SK /\ Z.abs k <= 1048576.
Proof.
  intros H. destruct (to_int_range d H) as [E B]. rewrite pow20 in B.
  eexists. split; [exact E|]. split; [reflexivity|exact B].
Qed.

Lemma to_int_depth_mono d1 d2 k1 k2 :
  in_depth_range d1 -> in_depth_range d2 -> fle d1 d2 = true ->
  to_int d1 = Some k1 -> to_int d2 = Some k2 -> k1 <= k2.
Proof.
  intros H1 H2 Hle E1 E2.
  apply (to_int_monotone d1 d2 k1 k2); try assumption; [apply H1|apply H2].
Qed.

(** [float(n) <= d] bounds [int(d)] from below. *)
Lemma to_int_depth_ge d n k :
  in_depth_range d -> 0 <= n <= 2 ^ 24 -> fle (of_int n) d = true ->
  to_int d = Some k -> n <= k.
Proof.
  intros H Hn Hle E.
  destruct (to_int_depth d H) as (k' & E' & Ek & _).
  rewrite E in E'. injection E' as <-. subst k.
  destruct (of_int_small n ltac:(lia)) as [Vn Sn].
  pose proof (fle_le _ _ Vn (range_finite d H) Hle) as L. rewrite Sn in L.
  apply quot_SK_ge; lia.
Qed.

Lemma lit_8_of_int : lit_8 = of_int 8.
Proof. reflexivity. Qed.

Lemma fle_range_trans c d1 d2 :
  vfin c -> in_depth_range d1 -> in_depth_range d2 ->
  fle c d1 = true -> fle d1 d2 = true -> fle c d2 = true.
Proof.
  intros Vc H1 H2 L1 L2.
  pose proof (range_finite _ H1) as V1. pose proof (range_finite _ H2) as V2.
  apply le_fle; [exact Vc|exact V2|].
  pose proof (fle_le _ _ Vc V1 L1). pose proof (fle_le _ _ V1 V2 L2). lia.
Qed.

Lemma nullMoveMargin_eq d k :
  in_depth_range d -> fle lit_8 d = true -> to_int d = Some k ->
  8 <= k /\ nullMoveMargin d = Some (680 - 27 * Z.min k 20).
Proof.
  intros H H8 E.
  pose proof (to_int_depth_ge d 8 k H ltac:(lia) H8 E) as Hk.
  split; [exact Hk|].
  unfold nullMoveMargin. rewrite H8, E. unwrap. reflexivity.
Qed.

(** From depth [8.0f] on, the null-move margin is defined, lies between 140
    and 464, does not increase with the depth and is 140 from depth 20 on. *)
Theorem nullMoveMargin_range (d1 d2 : Depth) :
  in_depth_range d1 -> in_depth_range d2 ->
  fle lit_8 d1 = true -> fle d1 d2 = true ->
  exists m1 m2,
    nullMoveMargin d1 = Some m1 /\ nullMoveMargin d2 = Some m2
    /\ 140 <= m2 /\ m2 <= m1 /\ m1 <= 464
    /\ (fle (of_int 20) d1 = true -> m1 = 140).
Proof.
  intros H1 H2 H8 Hle.
  destruct (to_int_depth d1 H1) as (k1 & E1 & _ & _).
  destruct (to_int_depth d2 H2) as (k2 & E2 & _ & _).
  pose proof (to_int_depth_mono _ _ _ _ H1 H2 Hle E1 E2) as Hk.
  assert (H8' : fle lit_8 d2 = true).
  { apply (fle_range_trans lit_8 d1 d2); try assumption.
    split; [reflexivity|exact I]. }
  destruct (nullMoveMargin_eq d1 k1 H1 H8 E1) as [G1 R1].
  destruct (nullMoveMargin_eq d2 k2 H2 H8' E2) as [G2 R2].
  exists (680 - 27 * Z.min k1 20), (680 - 27 * Z.min k2 20).
  split; [exact R1|]. split; [exact R2|].
  split; [lia|]. split; [lia|]. split; [lia|].
  intros H20.
  pose proof (to_int_depth_ge d1 20 k1 H1 ltac:(lia) H20 E1). lia.
Qed.

Lemma nullMoveMargin_range_witness :
  exists m1 m2,
    nullMoveMargin (of_int 9) = Some m1 /\ nullMoveMargin (of_int 25) = Some m2
    /\ 140 <= m2 /\ m2 <= m1 /\ m1 <= 464
    /\ (fle (of_int 20) (of_int 9) = true -> m1 = 140).
Proof.
  apply (nullMoveMargin_range (of_int 9) (of_int 25));
    try reflexivity; (split; [reflexivity|split; reflexivity]).
Defined.

Lemma doubleSEMargin_eq d k :
  in_depth_range d -> to_int d = Some k ->
  doubleSEMargin d = Some (70 - Z.min (Z.quot k 2) 20).
Proof.
  intros H E.
  destruct (to_int_depth d H) as (k' & E' & _ & B).
  rewrite E in E'. injection E' as <-.
  destruct (quot2_bounds k) as [Qp Qn].
  unfold doubleSEMargin. rewrite E. unfold int_sub, int_div.
  assert (Hq : Z.abs (Z.quot k 2) <= 1048576).
  { destruct (Z.le_gt_cases 0 k) as [P|P];
      [specialize (Qp P)|specialize (Qn ltac:(lia))]; lia. }
  rewrite (wrap32_id (Z.quot k 2)) by (apply in_int_bound; lia).
  rewrite wrap32_id by (apply in_int_bound; lia). reflexivity.
Qed.

(** The double-singular-extension margin is defined on the depth range,
    never below 50, does not increase with the depth, is at most 70 for
    non-negative depths and is 50 from depth 40 on. *)
Theorem doubleSEMargin_range (d1 d2 : Depth) :
  in_depth_range d1 -> in_depth_range d2 -> fle d1 d2 = true ->
  exists m1 m2,
    doubleSEMargin d1 = Some m1 /\ doubleSEMargin d2 = Some m2
    /\ 50 <= m2 /\ m2 <= m1
    /\ (fle zero d1 = true -> m1 <= 70)
    /\ (fle (of_int 40) d1 = true -> m1 = 50).
Proof.
  intros H1 H2 Hle.
  destruct (to_int_depth d1 H1) as (k1 & E1 & _ & _).
  destruct (to_int_depth d2 H2) as (k2 & E2 & _ & _).
  pose proof (to_int_depth_mono _ _ _ _ H1 H2 Hle E1 E2) as Hk.
  pose proof (Z.quot_le_mono k1 k2 2 ltac:(lia) Hk) as Hq.
  exists (70 - Z.min (Z.quot k1 2) 20), (70 - Z.min (Z.quot k2 2) 20).
  split; [apply doubleSEMargin_eq; assumption|].
  split; [apply doubleSEMargin_eq; assumption|].
  split; [lia|]. split; [lia|]. split.
  - intros H0.
    pose proof (to_int_depth_ge d1 0 k1 H1 ltac:(lia) H0 E1) as P.
    destruct (quot2_bounds k1) as [Qp _]. specialize (Qp P). lia.
  - intros H40.
    pose proof (to_int_depth_ge d1 40 k1 H1 ltac:(lia) H40 E1) as P.
    destruct (quot2_bounds k1) as [Qp _]. specialize (Qp ltac:(lia)). lia.
Qed.

Lemma doubleSEMargin_range_witness :
  exists m1 m2,
    doubleSEMargin (of_int 7) = Some m1 /\ doubleSEMargin (of_int 12) = Some m2
    /\ 50 <= m2 /\ m2 <= m1
    /\ (fle zero (of_int 7) = true -> m1 <= 70)
    /\ (fle (of_int 40) (of_int 7) = true -> m1 = 50).
Proof.
  apply (doubleSEMargin_range (of_int 7) (of_int 12));
    try reflexivity; (split; [reflexivity|split; reflexivity]).
Defined.

Lemma failHighMargin_eq d k o :
  in_depth_range d -> to_int d = Some k ->
  failHighMargin d o = Some (40 * (k + Z.b2z (negb (o =? 0)) * 2)).
Proof.
  intros H E.
  destruct (to_int_depth d H) as (k' & E' & _ & B).
  rewrite E in E'. injection E' as <-.
  unfold failHighMargin. rewrite E.
  destruct (negb (o =? 0)); cbn [Z.b2z]; unwrap; reflexivity.
Qed.

(** The fail-high margin is [40 * int(d)] without an opponent four, 80
    more with one, and does not decrease with the depth. *)
Theorem failHighMargin_range (d1 d2 : Depth) (oppo4 : Z) :
  in_depth_range d1 -> in_depth_range d2 -> fle d1 d2 = true ->
  exists k1 m1 m2,
    to_int d1 = Some k1
    /\ failHighMargin d1 0 = Some (40 * k1)
    /\ (oppo4 <> 0 -> failHighMargin d1 oppo4 = Some (40 * k1 + 80))
    /\ failHighMargin d1 oppo4 = Some m1
    /\ failHighMargin d2 oppo4 = Some m2
    /\ m1 <= m2.
Proof.
  intros H1 H2 Hle.
  destruct (to_int_depth d1 H1) as (k1 & E1 & _ & _).
  destruct (to_int_depth d2 H2) as (k2 & E2 & _ & _).
  pose proof (to_int_depth_mono _ _ _ _ H1 H2 Hle E1 E2) as Hk.
  exists k1, (40 * (k1 + Z.b2z (negb (oppo4 =? 0)) * 2)),
    (40 * (k2 + Z.b2z (negb (oppo4 =? 0)) * 2)).
  split; [exact E1|]. split.
  { rewrite (failHighMargin_eq d1 k1 0 H1 E1). cbn [Z.eqb negb Z.b2z].
    f_equal. lia. }
  split.
  { intros Ho. rewrite (failHighMargin_eq d1 k1 oppo4 H1 E1).
    destruct (Z.eqb_spec oppo4 0) as [|_]; [contradiction|].
    cbn [negb Z.b2z]. f_equal. lia. }
  split; [apply failHighMargin_eq; assumption|].
  split; [apply failHighMargin_eq; assumption|]. lia.
Qed.

Lemma failHighMargin_range_witness :
  exists k1 m1 m2,
    to_int (of_int 3) = Some k1
    /\ failHighMargin (of_int 3) 0 = Some (40 * k1)
    /\ (1 <> 0 -> failHighMargin (of_int 3) 1 = Some (40 * k1 + 80))
    /\ failHighMargin (of_int 3) 1 = Some m1
    /\ failHighMargin (of_int 5) 1 = Some m2
    /\ m1 <= m2.
Proof.
  apply (failHighMargin_range (of_int 3) (of_int 5) 1);
    try reflexivity; (split; [reflexivity|split; reflexivity]).
Defined.

Lemma qvcfDeltaMargin_eq RENJU rule d k :
  in_depth_range d -> to_int d = Some k ->
  qvcfDeltaMargin RENJU rule d
  = Some (Z.max ((if rule =? RENJU then 4000 else 2500) + 64 * k) 600).
Proof.
  intros H E.
  destruct (to_int_depth d H) as (k' & E' & _ & B).
  rewrite E in E'. injection E' as <-.
  unfold qvcfDeltaMargin. rewrite E.
  destruct (rule =? RENJU); unwrap; reflexivity.
Qed.

(** The delta margin of the quiescence VCF search is defined on the depth
    range, never below 600, does not decrease with the depth, and for
    every rule is at most the margin of the rule RENJU. *)
Theorem qvcfDeltaMargin_range (RENJU rule : Rule) (d1 d2 : Depth) :
  in_depth_range d1 -> in_depth_range d2 -> fle d1 d2 = true ->
  exists m1 m2 r1,
    qvcfDeltaMargin RENJU rule d1 = Some m1
    /\ qvcfDeltaMargin RENJU rule d2 = Some m2
    /\ qvcfDeltaMargin RENJU RENJU d1 = Some r1
    /\ 600 <= m1 /\ m1 <= m2 /\ m1 <= r1.
Proof.
  intros H1 H2 Hle.
  destruct (to_int_depth d1 H1) as (k1 & E1 & _ & _).
  destruct (to_int_depth d2 H2) as (k2 & E2 & _ & _).
  pose proof (to_int_depth_mono _ _ _ _ H1 H2 Hle E1 E2) as Hk.
  rewrite (qvcfDeltaMargin_eq RENJU rule d1 k1 H1 E1).
  rewrite (qvcfDeltaMargin_eq RENJU rule d2 k2 H2 E2).
  rewrite (qvcfDeltaMargin_eq RENJU RENJU d1 k1 H1 E1).
  rewrite Z.eqb_refl.
  eexists _, _, _. split; [reflexivity|]. split; [reflexivity|].
  split; [reflexivity|].
  destruct (rule =? RENJU); lia.
Qed.

Lemma qvcfDeltaMargin_range_witness :
  exists m1 m2 r1,
    qvcfDeltaMargin 2 0 (of_int (- 40)) = Some m1
    /\ qvcfDeltaMargin 2 0 (of_int (- 3)) = Some m2
    /\ qvcfDeltaMargin 2 2 (of_int (- 40)) = Some r1
    /\ 600 <= m1 /\ m1 <= m2 /\ m1 <= r1.
Proof.
  apply (qvcfDeltaMargin_range 2 0 (of_int (- 40)) (of_int (- 3)));
    try reflexivity; (split; [reflexivity|split; reflexivity]).
Defined.

End MarginFacts.

(** ** The margins and reductions computed in float arithmetic *)

Module FloatMarginFacts.
Import CInt CIntFacts F32 F32Sem F32Facts TruncFacts RoundFacts.
Import F32Signed SignedFacts AB ABMore DepthFacts MarginFacts RazorFacts.

Local Abbreviation SK := (2 ^ K).
(** The rounded product of two scaled values, and its integer part. *)
Local Abbreviation mulr C X := (sround K (C * X / SK)).
Local Abbreviation mulq C X := (Z.quot (sround K (C * X / SK)) SK).

Lemma mulr_mono C X Y : 0 <= C -> X <= Y -> mulr C X <= mulr C Y.
Proof. intros HC H. apply sround_mono; [exact K149|apply mul_div_mono; assumption]. Qed.

Lemma mulr_mono_l C C' X : 0 <= X -> C <= C' -> mulr C X <= mulr C' X.
Proof. intros HX H. apply sround_mono; [exact K149|apply mul_div_mono_l; assumption]. Qed.

Lemma mulr_nonneg C X : 0 <= C -> 0 <= X -> 0 <= mulr C X.
Proof.
  intros HC HX. apply sround_nonneg_le. apply Z.div_pos; [nia|apply SK_pos].
Qed.

Lemma mulr_nonpos C X : 0 <= C -> X <= 0 -> mulr C X <= 0.
Proof.
  intros HC HX. apply sround_nonpos_le.
  pose proof SK_pos as HS.
  assert (C * X / SK <= 0 / SK) by (apply Z.div_le_mono; nia).
  rewrite Z.div_0_l in H by lia. exact H.
Qed.

Lemma mulq_mono C X Y : 0 <= C -> X <= Y -> mulq C X <= mulq C Y.
Proof. intros HC H. apply quot_SK_mono, mulr_mono; assumption. Qed.

Lemma mulq_mono_l C C' X : 0 <= X -> C <= C' -> mulq C X <= mulq C' X.
Proof. intros HX H. apply quot_SK_mono, mulr_mono_l; assumption. Qed.

Lemma mulq_nonneg C X : 0 <= C -> 0 <= X -> 0 <= mulq C X.
Proof.
  intros HC HX. apply Z.quot_pos; [apply mulr_nonneg; assumption|].
  pose proof SK_pos. lia.
Qed.

Lemma mulq_nonpos C X : 0 <= C -> X <= 0 -> mulq C X <= 0.
Proof. intros HC HX. apply quot_SK_nonpos, mulr_nonpos; assumption. Qed.

(** [int(c * x)] for floats of bounded magnitude. *)
Lemma scale_int c x i j :
  0 <= i -> 0 <= j -> i + j <= 30 ->
  vfin c -> vfin x ->
  Z.abs (scaled K c) <= 2 ^ (i + K) -> Z.abs (scaled K x) <= 2 ^ (j + K) ->
  to_int (fmul c x) = Some (mulq (scaled K c) (scaled K x))
  /\ Z.abs (mulq (scaled K c) (scaled K x)) <= 2 ^ (i + j).
Proof.
  intros Hi Hj Hij Vc Vx Bc Bx.
  destruct (fmul_bv c x i j Hi Hj ltac:(lia) Vc Vx Bc Bx) as (V & E & B).
  destruct (to_int_bv (fmul c x) (i + j) ltac:(lia) V B) as [T Q].
  rewrite E in T, Q. split; assumption.
Qed.

Lemma scaled_zero_le d :
  in_depth_range d -> fle zero d = true -> 0 <= scaled K d.
Proof.
  intros H H0.
  apply (fle_le zero d (vfin_zero false) (range_finite d H) H0).
Qed.

Lemma scaled_b2z b :
  vfin (of_int (Z.b2z b)) /\ scaled K (of_int (Z.b2z b)) = Z.b2z b * SK.
Proof. apply of_int_small. destruct b; vm_compute; discriminate. Qed.

Lemma pow2K_le i j : 0 <= i <= j -> 2 ^ (i + K) <= 2 ^ (j + K).
Proof. intros H. apply pow2_le. unfold K. lia. Qed.

(** *** [futilityMargin] *)

Lemma futilityMargin_eq d improving :
  in_depth_range d ->
  futilityMargin d improving
  = Some (Z.max (mulq (54 * SK) (sround K (scaled K d - Z.b2z improving * SK))) 0).
Proof.
  intros H. destruct (range_scaled d H) as [V B].
  destruct (scaled_b2z improving) as [Vb Sb].
  destruct (of_int_small 54 ltac:(vm_compute; discriminate)) as [V54 S54].
  assert (Bb : Z.abs (scaled K (of_int (Z.b2z improving))) <= 2 ^ (20 + K)).
  { rewrite Sb, pow2K_split, pow20 by lia. pose proof SK_pos.
    destruct improving; cbn [Z.b2z]; lia. }
  destruct (fsub_bv d _ 20 ltac:(lia) V Vb B Bb) as (Vt & Et & Bt).
  assert (B54 : Z.abs (scaled K (of_int 54)) <= 2 ^ (6 + K)).
  { rewrite S54, pow2K_split by lia. change (2 ^ 6) with 64.
    pose proof SK_pos. lia. }
  destruct (scale_int (of_int 54) _ 6 21 ltac:(lia) ltac:(lia) ltac:(lia)
              V54 Vt B54 Bt) as [T _].
  unfold futilityMargin. rewrite T, Et, S54, Sb. reflexivity.
Qed.

(** The futility margin is defined on the depth range, never negative,
    does not decrease with the depth, is no larger for an improving
    position, and is 0 when the depth does not exceed [improving]. *)
Theorem futilityMargin_range (d1 d2 : Depth) (improving : bool) :
  in_depth_range d1 -> in_depth_range d2 -> fle d1 d2 = true ->
  exists m1 m2 mf,
    futilityMargin d1 improving = Some m1
    /\ futilityMargin d2 improving = Some m2
    /\ futilityMargin d1 false = Some mf
    /\ 0 <= m1 /\ m1 <= m2 /\ m1 <= mf
    /\ (fle d1 (of_int (Z.b2z improving)) = true -> m1 = 0).
Proof.
  intros H1 H2 Hle. pose proof SK_pos as HS.
  pose proof (fle_le _ _ (range_finite _ H1) (range_finite _ H2) Hle) as HD.
  rewrite !futilityMargin_eq by assumption.
  eexists _, _, _. split; [reflexivity|]. split; [reflexivity|].
  split; [reflexivity|].
  split; [lia|]. split; [|split].
  - apply Z.max_le_compat_r, mulq_mono; [lia|].
    apply sround_mono; [exact K149|lia].
  - apply Z.max_le_compat_r, mulq_mono; [lia|].
    apply sround_mono; [exact K149|].
    destruct improving; cbn [Z.b2z]; lia.
  - intros Hb. destruct (scaled_b2z improving) as [Vb Sb].
    pose proof (fle_le _ _ (range_finite _ H1) Vb Hb) as L. rewrite Sb in L.
    apply Z.max_r, mulq_nonpos; [lia|].
    apply sround_nonpos_le. lia.
Qed.

Lemma futilityMargin_range_witness :
  exists m1 m2 mf,
    futilityMargin (of_int 2) true = Some m1
    /\ futilityMargin (of_int 3) true = Some m2
    /\ futilityMargin (of_int 2) false = Some mf
    /\ 0 <= m1 /\ m1 <= m2 /\ m1 <= mf
    /\ (fle (of_int 2) (of_int (Z.b2z true)) = true -> m1 = 0).
Proof.
  apply (futilityMargin_range (of_int 2) (of_int 3) true);
    try reflexivity; (split; [reflexivity|split; reflexivity]).
Defined.

(** *** [failLowMargin] *)

Lemma failLowMargin_eq d :
  in_depth_range d ->
  failLowMargin d = Some (100 + mulq (50 * SK) (scaled K d)).
Proof.
  intros H. destruct (range_scaled d H) as [V B].
  destruct (of_int_small 50 ltac:(vm_compute; discriminate)) as [V50 S50].
  assert (B50 : Z.abs (scaled K (of_int 50)) <= 2 ^ (6 + K)).
  { rewrite S50, pow2K_split by lia. change (2 ^ 6) with 64.
    pose proof SK_pos. lia. }
  destruct (scale_int (of_int 50) d 6 20 ltac:(lia) ltac:(lia) ltac:(lia)
              V50 V B50 B) as [T Q].
  change (2 ^ (6 + 20)) with 67108864 in Q.
  unfold failLowMargin. rewrite T, S50 in *. unwrap. reflexivity.
Qed.

(** The fail-low margin is defined on the depth range, does not decrease
    with the depth and is at least 100 for non-negative depths. *)
Theorem failLowMargin_range (d1 d2 : Depth) :
  in_depth_range d1 -> in_depth_range d2 -> fle d1 d2 = true ->
  exists m1 m2,
    failLowMargin d1 = Some m1 /\ failLowMargin d2 = Some m2
    /\ m1 <= m2
    /\ (fle zero d1 = true -> 100 <= m1).
Proof.
  intros H1 H2 Hle. pose proof SK_pos as HS.
  pose proof (fle_le _ _ (range_finite _ H1) (range_finite _ H2) Hle) as HD.
  rewrite !failLowMargin_eq by assumption.
  eexists _, _. split; [reflexivity|]. split; [reflexivity|]. split.
  - apply Z.add_le_mono_l, mulq_mono; [lia|exact HD].
  - intros H0. pose proof (scaled_zero_le d1 H1 H0) as P.
    pose proof (mulq_nonneg (50 * SK) (scaled K d1) ltac:(lia) P). lia.
Qed.

Lemma failLowMargin_range_witness :
  exists m1 m2,
    failLowMargin (of_int 2) = Some m1 /\ failLowMargin (of_int 3) = Some m2
    /\ m1 <= m2
    /\ (fle zero (of_int 2) = true -> 100 <= m1).
Proof.
  apply (failLowMargin_range (of_int 2) (of_int 3));
    try reflexivity; (split; [reflexivity|split; reflexivity]).
Defined.

(** *** [lateMoveCount] *)

Lemma late_factors :
  vfin lit_1_2 /\ vfin lit_1_35
  /\ 0 <= scaled K lit_1_2 /\ scaled K lit_1_2 <= scaled K lit_1_35
  /\ scaled K lit_1_35 <= 2 ^ (1 + K).
Proof.
  split; [split; [reflexivity|exact I]|].
  split; [split; [reflexivity|exact I]|].
  vm_compute. repeat split; discriminate.
Qed.

Lemma lateMoveCount_eq d improving :
  in_depth_range d ->
  lateMoveCount d improving
  = Some (1 + 2 * Z.b2z improving
          + mulq (scaled K (if improving then lit_1_35 else lit_1_2)) (scaled K d)).
Proof.
  intros H. destruct (range_scaled d H) as [V B].
  destruct late_factors as (V12 & V135 & P12 & L & U).
  assert (Vc : vfin (if improving then lit_1_35 else lit_1_2))
    by (destruct improving; assumption).
  assert (Bc : Z.abs (scaled K (if improving then lit_1_35 else lit_1_2))
               <= 2 ^ (1 + K)) by (destruct improving; lia).
  destruct (scale_int _ d 1 20 ltac:(lia) ltac:(lia) ltac:(lia) Vc V Bc B) as [T Q].
  change (2 ^ (1 + 20)) with 2097152 in Q.
  unfold lateMoveCount. rewrite T.
  destruct improving; cbn [Z.b2z] in *; unwrap; reflexivity.
Qed.

(** The late-move count is defined on the depth range and does not
    decrease with the depth; for non-negative depths it is at least 1, and
    at least 2 more in an improving position than in one that is not. *)
Theorem lateMoveCount_range (d1 d2 : Depth) (improving : bool) :
  in_depth_range d1 -> in_depth_range d2 -> fle d1 d2 = true ->
  exists n1 n2 a b,
    lateMoveCount d1 improving = Some n1
    /\ lateMoveCount d2 improving = Some n2
    /\ n1 <= n2
    /\ lateMoveCount d1 false = Some a
    /\ lateMoveCount d1 true = Some b
    /\ (fle zero d1 = true -> 1 <= a /\ a + 2 <= b).
Proof.
  intros H1 H2 Hle.
  pose proof (fle_le _ _ (range_finite _ H1) (range_finite _ H2) Hle) as HD.
  destruct late_factors as (V12 & V135 & P12 & L & U).
  rewrite !lateMoveCount_eq by assumption.
  eexists _, _, _, _. split; [reflexivity|]. split; [reflexivity|]. split.
  { apply Z.add_le_mono_l, mulq_mono; [destruct improving; lia|exact HD]. }
  split; [reflexivity|]. split; [reflexivity|].
  intros H0. pose proof (scaled_zero_le d1 H1 H0) as P.
  pose proof (mulq_nonneg (scaled K lit_1_2) (scaled K d1) P12 P).
  pose proof (mulq_mono_l _ _ (scaled K d1) P L).
  cbn [Z.b2z]. lia.
Qed.

Lemma lateMoveCount_range_witness :
  exists n1 n2 a b,
    lateMoveCount (of_int 4) true = Some n1
    /\ lateMoveCount (of_int 6) true = Some n2
    /\ n1 <= n2
    /\ lateMoveCount (of_int 4) false = Some a
    /\ lateMoveCount (of_int 4) true = Some b
    /\ (fle zero (of_int 4) = true -> 1 <= a /\ a + 2 <= b).
Proof.
  apply (lateMoveCount_range (of_int 4) (of_int 6) true);
    try reflexivity; (split; [reflexivity|split; reflexivity]).
Defined.

(** *** [singularMargin] and [singularReduction] *)

Lemma singularMargin_eq d formerPv :
  in_depth_range d ->
  singularMargin d formerPv
  = Some (mulq ((2 + Z.b2z formerPv) * SK) (scaled K d)).
Proof.
  intros H. destruct (range_scaled d H) as [V B].
  assert (Ei : int_add 2 (Z.b2z formerPv) = 2 + Z.b2z formerPv)
    by (destruct formerPv; reflexivity).
  unfold singularMargin. rewrite Ei.
  destruct (of_int_small (2 + Z.b2z formerPv)
              ltac:(destruct formerPv; vm_compute; discriminate)) as [Vc Sc].
  assert (Bc : Z.abs (scaled K (of_int (2 + Z.b2z formerPv))) <= 2 ^ (2 + K)).
  { rewrite Sc, pow2K_split by lia. change (2 ^ 2) with 4.
    pose proof SK_pos. destruct formerPv; cbn [Z.b2z]; lia. }
  destruct (scale_int _ d 2 20 ltac:(lia) ltac:(lia) ltac:(lia) Vc V Bc B) as [T _].
  rewrite T, Sc. reflexivity.
Qed.

(** The singular-extension margin is defined on the depth range and does
    not decrease with the depth; for non-negative depths it is not
    negative and no smaller for a former PV node. *)
Theorem singularMargin_range (d1 d2 : Depth) (formerPv : bool) :
  in_depth_range d1 -> in_depth_range d2 -> fle d1 d2 = true ->
  exists m1 m2 a b,
    singularMargin d1 formerPv = Some m1
    /\ singularMargin d2 formerPv = Some m2
    /\ m1 <= m2
    /\ singularMargin d1 false = Some a
    /\ singularMargin d1 true = Some b
    /\ (fle zero d1 = true -> 0 <= a /\ a <= b).
Proof.
  intros H1 H2 Hle. pose proof SK_pos as HS.
  pose proof (fle_le _ _ (range_finite _ H1) (range_finite _ H2) Hle) as HD.
  rewrite !singularMargin_eq by assumption.
  eexists _, _, _, _. split; [reflexivity|]. split; [reflexivity|]. split.
  { apply mulq_mono; [destruct formerPv; cbn [Z.b2z]; lia|exact HD]. }
  split; [reflexivity|]. split; [reflexivity|].
  intros H0. pose proof (scaled_zero_le d1 H1 H0) as P. cbn [Z.b2z]. split.
  - apply mulq_nonneg; lia.
  - apply mulq_mono_l; lia.
Qed.

Lemma singularMargin_range_witness :
  exists m1 m2 a b,
    singularMargin (of_int 7) true = Some m1
    /\ singularMargin (of_int 9) true = Some m2
    /\ m1 <= m2
    /\ singularMargin (of_int 7) false = Some a
    /\ singularMargin (of_int 7) true = Some b
    /\ (fle zero (of_int 7) = true -> 0 <= a /\ a <= b).
Proof.
  apply (singularMargin_range (of_int 7) (of_int 9) true);
    try reflexivity; (split; [reflexivity|split; reflexivity]).
Defined.

Lemma singularReduction_scaled d formerPv :
  in_depth_range d ->
  vfin (singularReduction d formerPv)
  /\ scaled K (singularReduction d formerPv)
     = sround K (mulr (scaled K d) (scaled K lit_0_5) - Z.b2z formerPv * SK).
Proof.
  intros H. destruct (range_scaled d H) as [V B].
  destruct (scaled_b2z formerPv) as [Vb Sb].
  assert (Vh : vfin lit_0_5) by (split; [reflexivity|exact I]).
  assert (Bh : Z.abs (scaled K lit_0_5) <= 2 ^ (0 + K))
    by (vm_compute; discriminate).
  destruct (fmul_bv d lit_0_5 20 0 ltac:(lia) ltac:(lia) ltac:(lia) V Vh B Bh)
    as (Vm & Em & Bm).
  assert (Bb : Z.abs (scaled K (of_int (Z.b2z formerPv))) <= 2 ^ (20 + 0 + K)).
  { rewrite Sb, pow2K_split by lia. change (2 ^ (20 + 0)) with 1048576.
    pose proof SK_pos. destruct formerPv; cbn [Z.b2z]; lia. }
  destruct (fsub_bv _ _ (20 + 0) ltac:(lia) Vm Vb Bm Bb) as (Vs & Es & _).
  unfold singularReduction. split; [exact Vs|].
  rewrite Es, Em, Sb. reflexivity.
Qed.

(** The depth reduction of the singular test search is a finite float on
    the depth range, does not decrease with the depth and is no larger
    for a former PV node. *)
Theorem singularReduction_monotone (d1 d2 : Depth) (formerPv : bool) :
  in_depth_range d1 -> in_depth_range d2 -> fle d1 d2 = true ->
  finite (singularReduction d1 formerPv)
  /\ fle (singularReduction d1 formerPv) (singularReduction d2 formerPv) = true
  /\ fle (singularReduction d1 true) (singularReduction d1 false) = true.
Proof.
  intros H1 H2 Hle. pose proof SK_pos as HS.
  pose proof (fle_le _ _ (range_finite _ H1) (range_finite _ H2) Hle) as HD.
  assert (P5 : 0 <= scaled K lit_0_5) by (vm_compute; discriminate).
  destruct (singularReduction_scaled d1 formerPv H1) as [V1 S1].
  destruct (singularReduction_scaled d2 formerPv H2) as [V2 S2].
  destruct (singularReduction_scaled d1 true H1) as [Vt St].
  destruct (singularReduction_scaled d1 false H1) as [Vf Sf].
  split; [apply V1|]. split.
  - apply le_fle; [exact V1|exact V2|]. rewrite S1, S2.
    apply sround_mono; [exact K149|].
    apply Z.sub_le_mono_r. apply sround_mono; [exact K149|].
    apply mul_div_mono_l; assumption.
  - apply le_fle; [exact Vt|exact Vf|]. rewrite St, Sf.
    apply sround_mono; [exact K149|]. cbn [Z.b2z]. lia.
Qed.

Lemma singularReduction_monotone_witness :
  finite (singularReduction (of_int 7) true)
  /\ fle (singularReduction (of_int 7) true) (singularReduction (of_int 9) true) = true
  /\ fle (singularReduction (of_int 7) true) (singularReduction (of_int 7) false) = true.
Proof.
  apply (singularReduction_monotone (of_int 7) (of_int 9) true);
    try reflexivity; (split; [reflexivity|split; reflexivity]).
Defined.

(** *** [nullMoveReduction] *)

Lemma nullMoveReduction_scaled d :
  in_depth_range d ->
  vfin (nullMoveReduction d)
  /\ scaled K (nullMoveReduction d)
     = sround K (scaled K lit_3_21 + mulr (scaled K lit_0_27) (scaled K d)).
Proof.
  intros H. destruct (range_scaled d H) as [V B].
  assert (Vc : vfin lit_0_27) by (split; [reflexivity|exact I]).
  assert (Bc : Z.abs (scaled K lit_0_27) <= 2 ^ (0 + K))
    by (vm_compute; discriminate).
  assert (Va : vfin lit_3_21) by (split; [reflexivity|exact I]).
  assert (Ba : Z.abs (scaled K lit_3_21) <= 2 ^ (0 + 20 + K))
    by (vm_compute; discriminate).
  destruct (fmul_bv lit_0_27 d 0 20 ltac:(lia) ltac:(lia) ltac:(lia) Vc V Bc B)
    as (Vm & Em & Bm).
  destruct (fadd_bv _ _ (0 + 20) ltac:(lia) Va Vm Ba Bm) as (Vs & Es & _).
  unfold nullMoveReduction. split; [exact Vs|].
  rewrite Es, Em. reflexivity.
Qed.

(** The null-move depth reduction is a finite float on the depth range,
    does not decrease with the depth and is at least [3.21f] for
    non-negative depths. *)
Theorem nullMoveReduction_monotone (d1 d2 : Depth) :
  in_depth_range d1 -> in_depth_range d2 -> fle d1 d2 = true ->
  finite (nullMoveReduction d1)
  /\ fle (nullMoveReduction d1) (nullMoveReduction d2) = true
  /\ (fle zero d1 = true -> fle lit_3_21 (nullMoveReduction d1) = true).
Proof.
  intros H1 H2 Hle.
  pose proof (fle_le _ _ (range_finite _ H1) (range_finite _ H2) Hle) as HD.
  assert (Pc : 0 <= scaled K lit_0_27) by (vm_compute; discriminate).
  assert (Va : vfin lit_3_21) by (split; [reflexivity|exact I]).
  destruct (nullMoveReduction_scaled d1 H1) as [V1 S1].
  destruct (nullMoveReduction_scaled d2 H2) as [V2 S2].
  split; [apply V1|]. split.
  - apply le_fle; [exact V1|exact V2|]. rewrite S1, S2.
    apply sround_mono; [exact K149|].
    apply Z.add_le_mono_l, mulr_mono; assumption.
  - intros H0. pose proof (scaled_zero_le d1 H1 H0) as P.
    apply le_fle; [exact Va|exact V1|]. rewrite S1.
    rewrite <- (vfin_sround K lit_3_21 K149 Va) at 1.
    apply sround_mono; [exact K149|].
    pose proof (mulr_nonneg _ _ Pc P). lia.
Qed.

Lemma nullMoveReduction_monotone_witness :
  finite (nullMoveReduction (of_int 9))
  /\ fle (nullMoveReduction (of_int 9)) (nullMoveReduction (of_int 12)) = true
  /\ (fle zero (of_int 9) = true
      -> fle lit_3_21 (nullMoveReduction (of_int 9)) = true).
Proof.
  apply (nullMoveReduction_monotone (of_int 9) (of_int 12));
    try reflexivity; (split; [reflexivity|split; reflexivity]).
Defined.

End FloatMarginFacts.

(** ** Razoring verification, the reduction table and the per-rule tables *)

Module MoreFacts.
Import CInt CIntFacts F32 F32Sem F32Facts TruncFacts RoundFacts.
Import F32Signed SignedFacts AB ABMore DepthFacts MarginFacts RazorFacts.
Import FutilityFacts ReductionFacts.

Local Abbreviation SK := (2 ^ K).

Lemma flt_lt x y :
  vfin x -> vfin y -> flt x y = true -> scaled K x < scaled K y.
Proof.
  intros Vx Vy H. rewrite (flt_scaled K) in H by first [exact K149|assumption].
  apply Z.ltb_lt, H.
Qed.

Lemma lt_flt x y :
  vfin x -> vfin y -> scaled K x < scaled K y -> flt x y = true.
Proof.
  intros Vx Vy H. rewrite (flt_scaled K) by first [exact K149|assumption].
  apply Z.ltb_lt, H.
Qed.

(** [d - 2.9f] for [d >= 2.9f]: a well-formed float between 0 and [d]. *)
Lemma verify_depth d :
  in_depth_range d -> fle lit_2_9 d = true ->
  vfin (fsub d lit_2_9)
  /\ 0 <= scaled K (fsub d lit_2_9) <= scaled K d.
Proof.
  intros H Hc. destruct (range_scaled d H) as [V B].
  assert (Vc : vfin lit_2_9) by (split; [reflexivity|exact I]).
  assert (Pc : 0 <= scaled K lit_2_9) by (vm_compute; discriminate).
  assert (Bc : Z.abs (scaled K lit_2_9) <= 2 ^ (20 + K))
    by (vm_compute; discriminate).
  pose proof (fle_le _ _ Vc V Hc) as L.
  destruct (fsub_bv d lit_2_9 20 ltac:(lia) V Vc B Bc) as (Vs & Es & _).
  split; [exact Vs|]. rewrite Es. split.
  - apply sround_nonneg_le. lia.
  - rewrite <- (vfin_sround K d K149 V) at 2.
    apply sround_mono; [exact K149|lia].
Qed.

(** From depth [2.9f] on, the razoring verification margin is defined, is
    at least 49 and never exceeds the razoring margin of the same depth. *)
Theorem razorVerifyMargin_le_razorMargin (d : Depth) :
  in_depth_range d -> fle lit_2_9 d = true ->
  exists a b,
    razorVerifyMargin d = Some a /\ razorMargin d = Some b
    /\ 49 <= a /\ a <= b.
Proof.
  intros H Hc. pose proof (range_finite d H) as V.
  destruct (verify_depth d H Hc) as (Vs & P & L).
  assert (V36 : vfin lit_3_36) by (split; [reflexivity|exact I]).
  assert (Z0 : fle zero (fsub d lit_2_9) = true)
    by (apply le_fle; [apply vfin_zero|exact Vs|exact P]).
  assert (Zd : fle zero d = true)
    by (apply le_fle; [apply vfin_zero|exact V|change (scaled K zero) with 0; lia]).
  assert (EI : MARGIN_INFINITE = 32767) by reflexivity.
  unfold razorVerifyMargin.
  destruct (flt d lit_3_36) eqn:Hd.
  - pose proof (flt_lt _ _ V V36 Hd) as Ld.
    assert (Hs : flt (fsub d lit_2_9) lit_3_36 = true)
      by (apply lt_flt; [exact Vs|exact V36|lia]).
    destruct (razorMargin_below _ (proj1 Vs) Z0 Hs) as (k' & _ & Ek' & Hk' & R').
    destruct (razorMargin_below d (proj1 V) Zd Hd) as (k & _ & Ek & Hk & R).
    pose proof (razorPolyZ_mono _ _ (conj P L)) as Hm.
    assert (k' <= k) by (subst k k'; apply Z.div_le_mono; [apply SK_pos|exact Hm]).
    exists (Z.max (k' + 49) 0), (Z.max (k + 49) 0).
    split; [exact R'|]. split; [exact R|]. lia.
  - assert (R : razorMargin d = Some MARGIN_INFINITE)
      by (unfold razorMargin; rewrite Hd; reflexivity).
    destruct (flt (fsub d lit_2_9) lit_3_36) eqn:Hs.
    + destruct (razorMargin_below _ (proj1 Vs) Z0 Hs) as (k' & _ & Ek' & Hk' & R').
      exists (Z.max (k' + 49) 0), MARGIN_INFINITE.
      split; [exact R'|]. split; [exact R|]. rewrite EI. lia.
    + exists MARGIN_INFINITE, MARGIN_INFINITE.
      split; [unfold razorMargin; rewrite Hs; reflexivity|].
      split; [exact R|]. rewrite EI. lia.
Qed.

Lemma razorVerifyMargin_le_razorMargin_witness :
  exists a b,
    razorVerifyMargin (of_int 3) = Some a /\ razorMargin (of_int 3) = Some b
    /\ 49 <= a /\ a <= b.
Proof.
  apply (razorVerifyMargin_le_razorMargin (of_int 3));
    try reflexivity; (split; [reflexivity|split; reflexivity]).
Defined.

(** *** The reduction table *)

Lemma fold_insert_lookup_gen {A} (f : nat -> A) (l : list nat) :
  forall (init : list A) (k : nat),
    (k < length init)%nat ->
    fold_left (fun t i => <[ i := f i ]> t) l init !! k
    = if decide (k ∈ l) then Some (f k) else init !! k.
Proof.
  induction l as [|i l IH]; intros init k Hk; simpl.
  - destruct (decide (k ∈ [])) as [H|_]; [inversion H|reflexivity].
  - rewrite IH by (rewrite length_insert; exact Hk).
    destruct (decide (k ∈ l)) as [Hin|Hnin].
    + rewrite decide_True by (right; exact Hin). reflexivity.
    + destruct (decide (k = i)) as [->|Hne].
      * rewrite decide_True by left.
        apply list_lookup_insert_eq. exact Hk.
      * rewrite decide_False by (intros Hc; inversion Hc; subst; contradiction).
        apply list_lookup_insert_ne. congruence.
Qed.

Lemma fold_insert_length {A} (f : nat -> A) (l : list nat) :
  forall init : list A,
    length (fold_left (fun t i => <[ i := f i ]> t) l init) = length init.
Proof.
  induction l as [|i l IH]; intros init; simpl; [reflexivity|].
  rewrite IH. apply length_insert.
Qed.

Lemma initReductionLUT_length log_entry lut numThreads :
  length (initReductionLUT log_entry lut numThreads) = length lut.
Proof.
  unfold initReductionLUT. rewrite fold_insert_length. apply length_insert.
Qed.

Lemma initReductionLUT_lookup log_entry lut numThreads i :
  (i < length lut)%nat ->
  initReductionLUT log_entry lut numThreads !! i
  = Some (if decide (i = 0%nat) then zero else log_entry i numThreads).
Proof.
  intros Hi. unfold initReductionLUT.
  rewrite fold_insert_lookup_gen by (rewrite length_insert; exact Hi).
  destruct (decide (i = 0%nat)) as [->|Hi0].
  - rewrite decide_False by (rewrite elem_of_seq; lia).
    apply list_lookup_insert_eq. exact Hi.
  - rewrite decide_True by (rewrite elem_of_seq; lia). reflexivity.
Qed.

(** [initReductionLUT] keeps the size of the table and overwrites every
    entry: entry 0 becomes [0.0f] and entry [i >= 1] the logarithmic value
    for [i]; the table it leaves does not depend on what the table held
    before. *)
Theorem initReductionLUT_entries (log_entry : nat -> Z -> Depth)
    (lut lut' : list Depth) (numThreads : Z) (i : nat) :
  (i < length lut)%nat -> length lut' = length lut ->
  length (initReductionLUT log_entry lut numThreads) = length lut
  /\ initReductionLUT log_entry lut numThreads !! i
     = Some (if decide (i = 0%nat) then zero else log_entry i numThreads)
  /\ initReductionLUT log_entry lut' numThreads
     = initReductionLUT log_entry lut numThreads.
Proof.
  intros Hi Hl.
  split; [apply initReductionLUT_length|].
  split; [apply initReductionLUT_lookup, Hi|].
  apply list_eq. intros j.
  destruct (Nat.lt_ge_cases j (length lut)) as [Hj|Hj].
  - rewrite !initReductionLUT_lookup by lia. reflexivity.
  - rewrite !lookup_ge_None_2 by (rewrite initReductionLUT_length; lia).
    reflexivity.
Qed.

Lemma initReductionLUT_entries_witness :
  length (initReductionLUT (fun i _ => of_int (Z.of_nat i)) lut_sample 1)
  = length lut_sample
  /\ initReductionLUT (fun i _ => of_int (Z.of_nat i)) lut_sample 1 !! 2%nat
     = Some (if decide (2%nat = 0%nat) then zero else of_int (Z.of_nat 2))
  /\ initReductionLUT (fun i _ => of_int (Z.of_nat i)) [one; one; one; one] 1
     = initReductionLUT (fun i _ => of_int (Z.of_nat i)) lut_sample 1.
Proof.
  apply (initReductionLUT_entries (fun i _ => of_int (Z.of_nat i))
           lut_sample [one; one; one; one] 1 2);
    [vm_compute; lia|reflexivity].
Defined.

Lemma to_int_fraction d :
  valid d -> fle zero d = true -> flt d one = true -> to_int d = Some 0.
Proof.
  intros V H0 H1.
  assert (F : finite d).
  { destruct d as [s|[]| |s m e]; try exact I; discriminate. }
  assert (Vd : vfin d) by (split; assumption).
  assert (V1 : vfin one) by (split; [reflexivity|exact I]).
  pose proof (fle_le _ _ (vfin_zero false) Vd H0) as L0.
  pose proof (flt_lt _ _ Vd V1 H1) as L1.
  assert (E1 : scaled K one = 1 * SK) by (vm_compute; reflexivity).
  cbn [scaled] in L0. rewrite E1 in L1. pose proof SK_pos as HS.
  assert (Q : Z.quot (scaled K d) SK = 0) by (apply Z.quot_small; lia).
  rewrite <- Q. apply to_int_vfin; [exact K149|exact Vd|].
  rewrite Q. vm_compute. split; discriminate.
Qed.

(** With a table filled by [initReductionLUT], the reduction of a non-PV
    node at a depth [0 < d < 1] is [+0.0f], whatever the move count, the
    improvement and the window are, as long as the table entry of the move
    count is finite. *)
Theorem reduction_shallow_after_init (log_entry : nat -> Z -> Depth)
    (lut : list Depth) (numThreads : Z) (d : Depth)
    (moveCount improvement : Z) (delta rootDelta : Value) :
  valid d -> flt zero d = true -> flt d one = true ->
  0 < moveCount < Z.of_nat (length lut) ->
  finite (log_entry (Z.to_nat moveCount) numThreads) ->
  reduction false (initReductionLUT log_entry lut numThreads) d
    moveCount improvement delta rootDelta
  = Some zero.
Proof.
  intros V Hp H1 Hm F.
  assert (H0 : fle zero d = true).
  { unfold flt, fle, SFltb, SFleb in *.
    destruct (SFcompare zero d) as [[]|]; try discriminate; reflexivity. }
  unfold reduction. rewrite (to_int_fraction d V H0 H1).
  unfold array_get. cbn [Z.ltb Z.compare Z.to_nat].
  destruct (Z.ltb_spec moveCount 0) as [?|_]; [lia|].
  rewrite !initReductionLUT_lookup by lia.
  rewrite decide_True by reflexivity.
  rewrite decide_False by lia.
  destruct (log_entry (Z.to_nat moveCount) numThreads) as [s| | |s m e];
    try contradiction;
    destruct s; rewrite ?andb_false_r; reflexivity.
Qed.

Lemma reduction_shallow_after_init_witness :
  reduction false
    (initReductionLUT (fun i _ => of_int (Z.of_nat i)) lut_sample 1)
    lit_0_5 2 0 10 20
  = Some zero.
Proof.
  apply (reduction_shallow_after_init (fun i _ => of_int (Z.of_nat i))
           lut_sample 1 lit_0_5 2 0 10 20);
    [reflexivity|reflexivity|reflexivity|vm_compute; split; reflexivity|exact I].
Defined.

(** The reduction of a PV node is never below zero: whenever the two table
    reads are defined, the result is not less than [0.0f]. *)
Theorem reduction_pv_not_negative (lut : list Depth) (d : Depth)
    (moveCount improvement : Z) (delta rootDelta : Value) (res : Depth) :
  reduction true lut d moveCount improvement delta rootDelta = Some res ->
  flt res zero = false.
Proof.
  unfold reduction.
  destruct (to_int d) as [i|]; [|discriminate].
  destruct (array_get lut i) as [a|]; [|discriminate].
  destruct (array_get lut moveCount) as [b|]; [|discriminate].
  intros [= <-]. unfold fmax.
  destruct (flt (fsub (fmul a b) (fdiv (of_int delta) (of_int rootDelta))) zero) eqn:E.
  - reflexivity.
  - exact E.
Qed.

Lemma reduction_pv_not_negative_witness :
  reduction true lut_sample one 2 0 100 10 = Some zero
  /\ flt zero zero = false.
Proof.
  split; [reflexivity|].
  apply (reduction_pv_not_negative lut_sample one 2 0 100 10 zero).
  reflexivity.
Defined.

(** *** The per-rule complexity reductions *)

(** For each of the three rules the complexity reduction is defined and
    positive, and ordered by the kind of move: a trivial distracting move
    is reduced more than a trivial one, that more than a move that is
    neither trivial nor important, and that more than an important one. *)
Theorem complexityReduction_ordered (R : Rule) (importantMove distract : bool) :
  0 <= R < 3 ->
  exists a b c e,
    complexityReduction R true importantMove true = Some a
    /\ complexityReduction R true importantMove false = Some b
    /\ complexityReduction R false false distract = Some c
    /\ complexityReduction R false true distract = Some e
    /\ flt zero e = true /\ flt e c = true
    /\ flt c b = true /\ flt b a = true.
Proof.
  intros HR.
  assert (C : R = 0 \/ R = 1 \/ R = 2) by lia.
  destruct C as [->|[->| ->]]; destruct importantMove, distract;
    eexists _, _, _, _; repeat split; reflexivity.
Qed.

Lemma complexityReduction_ordered_witness :
  exists a b c e,
    complexityReduction 2 true false true = Some a
    /\ complexityReduction 2 true false false = Some b
    /\ complexityReduction 2 false false true = Some c
    /\ complexityReduction 2 false true true = Some e
    /\ flt zero e = true /\ flt e c = true
    /\ flt c b = true /\ flt b a = true.
Proof.
  apply (complexityReduction_ordered 2 false true). lia.
Defined.

(** *** The futility move-count table *)

(** The table [FutilityMC] has [MAX_MOVES + 1] entries; entry 0 is 0 and
    entry [i >= 1] is [3 + int(pow(i, 1.4))]; reading it at a negative
    index or beyond [MAX_MOVES] is out of bounds. *)
Theorem FutilityMC_entries (MAX_MOVES : nat) (pow_1_4 : Z -> Z) (i : Z) :
  length (FutilityMC MAX_MOVES pow_1_4) = S MAX_MOVES
  /\ (0 <= i <= Z.of_nat MAX_MOVES ->
      array_get (FutilityMC MAX_MOVES pow_1_4) i
      = Some (if i =? 0 then 0 else int_add 3 (pow_1_4 i)))
  /\ (i < 0 \/ Z.of_nat MAX_MOVES < i ->
      array_get (FutilityMC MAX_MOVES pow_1_4) i = None).
Proof.
  split; [apply FutilityMC_length|]. split.
  - intros Hi. unfold array_get.
    destruct (Z.ltb_spec i 0) as [?|_]; [lia|].
    rewrite FutilityMC_lookup by lia.
    destruct (Z.eqb_spec i 0) as [->|Hn].
    + reflexivity.
    + rewrite decide_False by lia. rewrite Z2Nat.id by lia. reflexivity.
  - intros Hi. unfold array_get.
    destruct (Z.ltb_spec i 0) as [?|?]; [reflexivity|].
    apply lookup_ge_None_2. rewrite FutilityMC_length. lia.
Qed.

Lemma FutilityMC_entries_witness :
  length (FutilityMC 8 pow_1_4_sample) = 9%nat
  /\ array_get (FutilityMC 8 pow_1_4_sample) 3 = Some (int_add 3 (pow_1_4_sample 3))
  /\ array_get (FutilityMC 8 pow_1_4_sample) 9 = None.
Proof.
  destruct (FutilityMC_entries 8 pow_1_4_sample 3) as (L & E & _).
  destruct (FutilityMC_entries 8 pow_1_4_sample 9) as (_ & _ & N).
  split; [exact L|]. split; [apply E; vm_compute; split; discriminate|].
  apply N. right. vm_compute. reflexivity.
Defined.

(** Once [int(d)] is defined, [futilityMoveCount] reads inside the table
    exactly when [int(d)] does not exceed [MAX_MOVES]; negative depths
    read entry 0. *)
Theorem futilityMoveCount_in_bounds (MAX_MOVES : nat) (pow_1_4 : Z -> Z)
    (d : Depth) (improving : bool) (i : Z) :
  to_int d = Some i ->
  (futilityMoveCount MAX_MOVES pow_1_4 d improving = None
   <-> Z.of_nat MAX_MOVES < i).
Proof.
  intros Hi. split.
  - intros HN. destruct (Z.le_gt_cases i (Z.of_nat MAX_MOVES)) as [Hb|Hb]; [|lia].
    destruct (futilityMoveCount_eq MAX_MOVES pow_1_4 d improving i Hi Hb)
      as (mc & _ & E).
    rewrite E in HN. discriminate.
  - intros Hb. unfold futilityMoveCount. rewrite Hi.
    unfold array_get. destruct (Z.ltb_spec (Z.max i 0) 0) as [?|_]; [lia|].
    rewrite lookup_ge_None_2; [reflexivity|].
    rewrite FutilityMC_length. lia.
Qed.

Lemma futilityMoveCount_in_bounds_witness :
  futilityMoveCount 8 pow_1_4_sample (of_int 9) true = None
  <-> Z.of_nat 8 < 9.
Proof.
  apply (futilityMoveCount_in_bounds 8 pow_1_4_sample (of_int 9) true 9).
  reflexivity.
Defined.

End MoreFacts.

(** ** Sample evaluations *)

Module Examples.
Import CInt History F32 AB.

Example update_towards_bonus :
  updates HistRange [5000; 5000; 5000] 0 = 9079.
Proof. reflexivity. Qed.

Example update_decays :
  update HistRange 10692 (-100) = 10492.
Proof. reflexivity. Qed.

Example aspiration_deltas :
  map nextAspirationWindowDelta [0; 17; 30; 50; 80] = [17; 30; 50; 80; 125].
Proof. reflexivity. Qed.

(** The literal [3.36f] is the float [14092861 * 2^-22], just below 3.36. *)
Example lit_3_36_value : lit_3_36 = S754_finite false 14092861 (-22).
Proof. reflexivity. Qed.

Example razorMargin_samples :
  razorMargin zero = Some 49
  /\ razorMargin one = Some 95
  /\ razorMargin (of_int 2) = Some 141
  /\ razorMargin (S754_finite false 14092860 (-22)) = Some 204
  /\ razorMargin lit_3_36 = Some MARGIN_INFINITE
  /\ razorMargin (of_int 200) = Some MARGIN_INFINITE.
Proof. repeat split; reflexivity. Qed.

(** The polynomial is evaluated in binary32: at the depth
    [11669728 * 2^-28] the rounded sum reaches 2 and the margin is 51,
    whereas the integer part of the exact value
    [(m^2 + 46 * m * 2^31) / 2^59] of [0.125 d^2 + 46 d] is 1. *)
Example razorMargin_rounds :
  razorMargin (S754_finite false 11669728 (-28)) = Some 51
  /\ (11669728 * 11669728 + 46 * 11669728 * 2 ^ 31) / 2 ^ 59 = 1.
Proof. split; reflexivity. Qed.

Example futilityMoveCount_samples :
  FutilityMC 8 pow_1_4_sample = [0; 4; 5; 7; 9; 12; 15; 18; 21]
  /\ futilityMoveCount 8 pow_1_4_sample (of_int 5) true = Some 12
  /\ futilityMoveCount 8 pow_1_4_sample (of_int 5) false = Some 6
  /\ futilityMoveCount 8 pow_1_4_sample (of_int (-3)) true = Some 0
  /\ futilityMoveCount 8 pow_1_4_sample (of_int 9) true = None.
Proof. repeat split; reflexivity. Qed.

Example reduction_samples :
  reduction true lut_sample (of_int 2) 3 0 10 20
  = Some (S754_finite false 11534336 (-21))
  /\ reduction false lut_sample (of_int 2) 3 0 10 20
     = Some (of_int 7)
  /\ reduction false lut_sample (of_int 2) 3 1 10 20
     = Some (of_int 6)
  /\ reduction false lut_sample (of_int 7) 3 0 10 20 = None.
Proof. repeat split; reflexivity. Qed.

End Examples.
